(** * MergeCalls: a shallow embedding of SheLLVM's call-site merging pass

    Source: [src/llvm/MergeCallsPass.h].  The pass rewrites a function so
    that a callee invoked from several call sites is invoked from a single
    shared call block; arguments are selected by PHI nodes and control is
    sent back by a discriminator PHI and a switch.

    The IR is modelled the way the pass sees it: a function is the ordered
    list of its basic blocks, a block is the ordered list of its
    instructions, and objects ([BasicBlock*], [Instruction*], [Function*])
    are identified by their addresses.  The LLVM API calls the pass makes
    ([splitBasicBlock], [moveBefore], [eraseFromParent], [addIncoming],
    [replaceAllUsesWith], ...) are modelled one by one as operations of a
    state-and-failure monad over the function being rewritten; a failed
    LLVM assertion or a null dereference is the failure of the monad. *)

From Stdlib Require Import List Arith Bool ZArith Lia PeanoNat.
From Stdlib Require Import Sorting.Sorted Sorting.Permutation.
Import ListNotations.

(** ** Data model *)

(** Addresses of heap objects (blocks, instructions, functions). *)
Definition addr := nat.

Inductive typ : Type :=
| IntegerTy (bits : nat)
| OtherTy (n : nat).

(** [llvm::ConstantInt], built from an [APInt] of a given width. *)
Record ConstantInt : Type := APInt { ci_bits : nat; ci_val : Z }.

(** [llvm::Value] as far as the pass distinguishes values. *)
Inductive value : Type :=
| VInst (i : addr)              (* the result of the instruction at i *)
| VArgument (n : nat)           (* a formal argument of the enclosing function *)
| VConstant (c : ConstantInt)
| VFunction (f : addr)          (* a Function, used as a direct callee *)
| VInlineAsm (n : nat)          (* an InlineAsm callee *)
| VOther (n : nat).             (* globals, other constants, ... *)

Inductive instr_kind : Type :=
| Call (callee : value) (args : list value)                (* CallInst *)
| PHI (ty : typ) (incoming : list (value * addr))          (* PHINode *)
| Br (dest : addr)                                         (* unconditional BranchInst *)
| Switch (cond : value) (default : addr)
         (cases : list (ConstantInt * addr))               (* SwitchInst *)
| Unreachable                                              (* UnreachableInst *)
| Other (ops : list value)                                 (* any other non-terminator *)
| Term (ops : list value) (succs : list addr).             (* any other terminator *)

Record Inst : Type := mkInst { iaddr : addr; ikind : instr_kind }.
Record Block : Type := mkBlock { baddr : addr; insts : list Inst }.

(** A [Function] body: its basic blocks in function order. *)
Definition Func := list Block.

Definition block_addrs (F : Func) : list addr := map baddr F.
Definition all_insts (F : Func) : list Inst := flat_map insts F.
Definition inst_addrs (F : Func) : list addr := map iaddr (all_insts F).

Definition isa_PHI (k : instr_kind) : bool :=
  match k with PHI _ _ => true | _ => false end.
Definition isa_CallInst (k : instr_kind) : bool :=
  match k with Call _ _ => true | _ => false end.
Definition isa_Unreachable (k : instr_kind) : bool :=
  match k with Unreachable => true | _ => false end.
Definition isTerminator (k : instr_kind) : bool :=
  match k with Br _ | Switch _ _ _ | Unreachable | Term _ _ => true | _ => false end.

Definition successors (k : instr_kind) : list addr :=
  match k with
  | Br d => [d]
  | Switch _ d cases => d :: map snd cases
  | Term _ succs => succs
  | _ => []
  end.

(** [CallInst::isInlineAsm] and [CallInst::getCalledFunction]. *)
Definition isInlineAsm (k : instr_kind) : bool :=
  match k with Call (VInlineAsm _) _ => true | _ => false end.
Definition getCalledFunction (k : instr_kind) : option addr :=
  match k with Call (VFunction f) _ => Some f | _ => None end.

(** ** [std::map] keyed by addresses: an association list kept in
    ascending key order, which is the order a range-for visits it in. *)
Module AddrMap.
Fixpoint set {V : Type} (k : addr) (v : V) (m : list (addr * V)) : list (addr * V) :=
  match m with
  | [] => [(k, v)]
  | (k', v') :: m' =>
      if k <? k' then (k, v) :: m
      else if k =? k' then (k, v) :: m'
      else (k', v') :: set k v m'
  end.

Fixpoint get {V : Type} (k : addr) (m : list (addr * V)) : option V :=
  match m with
  | [] => None
  | (k', v') :: m' => if k =? k' then Some v' else get k m'
  end.

(** [m[k].push_back(c)] on a map of vectors. *)
Definition push (k : addr) (c : addr) (m : list (addr * list addr)) :=
  set k (match get k m with Some l => l ++ [c] | None => [c] end) m.
End AddrMap.

(** ** The monad of IR rewriting: state is the function, failure is an
    assertion failure or a null dereference inside LLVM. *)
Definition IR (A : Type) : Type := Func -> option (A * Func).

Definition ret {A} (a : A) : IR A := fun F => Some (a, F).
Definition bind {A B} (m : IR A) (k : A -> IR B) : IR B :=
  fun F => match m F with Some (a, F') => k a F' | None => None end.
Definition abort {A} : IR A := fun _ => None.
Definition gets {A} (f : Func -> A) : IR A := fun F => Some (f F, F).
Definition modify (f : Func -> Func) : IR unit := fun F => Some (tt, f F).
(** Dereference of a possibly-null pointer. *)
Definition deref {A} (o : option A) : IR A :=
  match o with Some a => ret a | None => abort end.

Declare Scope ir_scope.
Delimit Scope ir_scope with ir.
Notation "x <- c ;; k" := (bind c (fun x => k))
  (at level 61, c at next level, right associativity) : ir_scope.
Notation "c ;;; k" := (bind c (fun _ => k))
  (at level 61, right associativity) : ir_scope.
Local Open Scope ir_scope.

(** [for (x : xs) body(x)] *)
Fixpoint for_each {A} (xs : list A) (body : A -> IR unit) : IR unit :=
  match xs with
  | [] => ret tt
  | x :: xs' => body x ;;; for_each xs' body
  end.

(** ** Pure helpers on instruction lists *)

Definition has_inst (i : addr) (b : Block) : bool :=
  existsb (fun x => iaddr x =? i) (insts b).

Definition find_inst (i : addr) (F : Func) : option Inst :=
  find (fun x => iaddr x =? i) (all_insts F).

Definition find_block (a : addr) (F : Func) : option Block :=
  find (fun b => baddr b =? a) F.

Definition on_insts (f : list Inst -> list Inst) (b : Block) : Block :=
  mkBlock (baddr b) (f (insts b)).

Definition on_block (a : addr) (f : list Inst -> list Inst) (F : Func) : Func :=
  map (fun b => if baddr b =? a then on_insts f b else b) F.

Definition remove_inst (i : addr) (l : list Inst) : list Inst :=
  filter (fun x => negb (iaddr x =? i)) l.

Fixpoint insert_before (pos : addr) (x : Inst) (l : list Inst) : list Inst :=
  match l with
  | [] => []
  | y :: l' => if iaddr y =? pos then x :: y :: l' else y :: insert_before pos x l'
  end.

Fixpoint next_in (i : addr) (l : list Inst) : option addr :=
  match l with
  | [] => None
  | x :: l' => if iaddr x =? i then option_map iaddr (hd_error l') else next_in i l'
  end.

Fixpoint prev_in (last : option addr) (i : addr) (l : list Inst) : option addr :=
  match l with
  | [] => None
  | x :: l' => if iaddr x =? i then last else prev_in (Some (iaddr x)) i l'
  end.

Fixpoint split_before (i : addr) (l : list Inst) : option (list Inst * list Inst) :=
  match l with
  | [] => None
  | x :: l' =>
      if iaddr x =? i then Some ([], l)
      else match split_before i l' with
           | Some (a, b) => Some (x :: a, b)
           | None => None
           end
  end.

(** [BasicBlock::getTerminator]: the last instruction when it is a terminator. *)
Definition getTerminator (l : list Inst) : option Inst :=
  match last (map Some l) None with
  | Some x => if isTerminator (ikind x) then Some x else None
  | None => None
  end.

Definition first_non_phi (l : list Inst) : option Inst :=
  find (fun x => negb (isa_PHI (ikind x))) l.

(** [PHINode::replaceIncomingBlockWith] on the PHI nodes that lead a block. *)
Definition replaceIncomingBlockWith (Old New : addr) (k : instr_kind) : instr_kind :=
  match k with
  | PHI ty inc => PHI ty (map (fun vb => (fst vb, if snd vb =? Old then New else snd vb)) inc)
  | _ => k
  end.

Fixpoint replacePhiUsesWith (Old New : addr) (l : list Inst) : list Inst :=
  match l with
  | x :: l' =>
      if isa_PHI (ikind x)
      then mkInst (iaddr x) (replaceIncomingBlockWith Old New (ikind x))
             :: replacePhiUsesWith Old New l'
      else l
  | [] => []
  end.

(** [BasicBlock::replaceSuccessorsPhiUsesWith], given the successors. *)
Definition replaceSuccessorsPhiUsesWith (Old New : addr) (succs : list addr) (F : Func)
  : Func :=
  map (fun x => if existsb (Nat.eqb (baddr x)) succs
                then on_insts (replacePhiUsesWith Old New) x
                else x) F.

(** Operand rewriting of [Value::replaceAllUsesWith]. *)
Definition subst_value (old new : addr) (v : value) : value :=
  match v with
  | VInst i => if i =? old then VInst new else v
  | _ => v
  end.

(** Rewriting of the value operands of an instruction (block operands and
    case constants are not values that an instruction result can replace). *)
Definition map_operands (s : value -> value) (k : instr_kind) : instr_kind :=
  match k with
  | Call callee args => Call (s callee) (map s args)
  | PHI ty inc => PHI ty (map (fun vb => (s (fst vb), snd vb)) inc)
  | Br d => Br d
  | Switch c d cases => Switch (s c) d cases
  | Unreachable => Unreachable
  | Other ops => Other (map s ops)
  | Term ops succs => Term (map s ops) succs
  end.

Definition subst_kind (old new : addr) (k : instr_kind) : instr_kind :=
  map_operands (subst_value old new) k.

Definition map_inst (f : Inst -> Inst) (F : Func) : Func :=
  map (on_insts (map f)) F.

Definition update_inst (i : addr) (f : instr_kind -> instr_kind) (F : Func) : Func :=
  map_inst (fun x => if iaddr x =? i then mkInst (iaddr x) (f (ikind x)) else x) F.

(** ** The pass, over an arbitrary allocator *)

Section MergeCalls.

(** The heap allocator: given the addresses of the live objects of a kind
    (blocks, or instructions), the address of the next allocation. *)
Variable fresh : list addr -> addr.

(** [Function::args()] as the list of parameter types, and
    [Function::isIntrinsic], of the function at a given address. *)
Variable fn_args : addr -> list typ.
Variable fn_isIntrinsic : addr -> bool.

(** *** The LLVM API used by the pass *)

Definition getParent (i : addr) : IR addr :=
  fun F => match find (has_inst i) F with
           | Some b => Some (baddr b, F)
           | None => None
           end.

Definition getNextNode (i : addr) : IR (option addr) :=
  fun F => match find (has_inst i) F with
           | Some b => Some (next_in i (insts b), F)
           | None => None
           end.

Definition getPrevNode (i : addr) : IR (option addr) :=
  fun F => match find (has_inst i) F with
           | Some b => Some (prev_in None i (insts b), F)
           | None => None
           end.

Definition eraseFromParent (i : addr) : IR unit :=
  modify (map (on_insts (remove_inst i))).

(** [BasicBlock::Create(ctx, "", F, nullptr)]: a new empty block at the
    end of the function. *)
Definition BasicBlock_Create : IR addr :=
  fun F => let a := fresh (block_addrs F) in
           Some (a, F ++ [mkBlock a []]).

(** Creation of an instruction at the end of a block ([InsertAtEnd]). *)
Definition create_at_end (k : instr_kind) (bb : addr) : IR addr :=
  fun F => let a := fresh (inst_addrs F) in
           Some (a, on_block bb (fun l => l ++ [mkInst a k]) F).

(** Creation of an instruction before another one ([InsertBefore]). *)
Definition create_before (k : instr_kind) (pos : addr) : IR addr :=
  fun F => let a := fresh (inst_addrs F) in
           Some (a, map (on_insts (insert_before pos (mkInst a k))) F).

Definition BranchInst_Create (dest bb : addr) : IR addr := create_at_end (Br dest) bb.
Definition UnreachableInst_new (bb : addr) : IR addr := create_at_end Unreachable bb.
Definition PHINode_Create (ty : typ) (bb : addr) : IR addr := create_at_end (PHI ty []) bb.
Definition PHINode_Create_before (ty : typ) (pos : addr) : IR addr :=
  create_before (PHI ty []) pos.
Definition CallInst_Create (callee : value) (args : list value) (bb : addr) : IR addr :=
  create_at_end (Call callee args) bb.
Definition SwitchInst_Create (cond : value) (dflt : addr) (bb : addr) : IR addr :=
  create_at_end (Switch cond dflt []) bb.

Definition addIncoming (phi : addr) (v : value) (bb : addr) : IR unit :=
  modify (update_inst phi (fun k =>
    match k with PHI ty inc => PHI ty (inc ++ [(v, bb)]) | _ => k end)).

Definition addCase (sw : addr) (c : ConstantInt) (dest : addr) : IR unit :=
  modify (update_inst sw (fun k =>
    match k with Switch v d cases => Switch v d (cases ++ [(c, dest)]) | _ => k end)).

(** [C->getArgOperand(n)]; an index past the operands trips an assertion. *)
Definition getArgOperand (c : addr) (n : nat) : IR value :=
  fun F => match find_inst c F with
           | Some (mkInst _ (Call _ args)) =>
               match nth_error args n with Some v => Some (v, F) | None => None end
           | _ => None
           end.

Definition replaceAllUsesWith (old new : addr) : IR unit :=
  modify (map_inst (fun x => mkInst (iaddr x) (subst_kind old new (ikind x)))).

(** [BB->getFirstNonPHI()], null when the block holds PHI nodes only. *)
Definition getFirstNonPHI (bb : addr) : IR (option addr) :=
  fun F => match find_block bb F with
           | Some b => Some (option_map iaddr (first_non_phi (insts b)), F)
           | None => None
           end.

(** [C->moveBefore(pos)]: unlink C and link it again before [pos]. *)
Definition moveBefore (c pos : addr) : IR unit :=
  fun F => match find_inst c F with
           | Some ci =>
               Some (tt, map (on_insts (insert_before pos ci))
                           (map (on_insts (remove_inst c)) F))
           | None => None
           end.

(** [BB->splitBasicBlock(I, "")]: the instructions from [I] on move to a
    new block placed right after [BB]; [BB] gets a branch to the new
    block; PHI nodes of the new block's successors that named [BB] as
    incoming block name the new block instead. *)
Definition splitBasicBlock (bb : addr) (I : addr) : IR addr :=
  fun F =>
    match find_block bb F with
    | None => None
    | Some b =>
        match getTerminator (insts b), split_before I (insts b) with
        | Some _, Some (pre, post) =>
            let New := fresh (block_addrs F) in
            let BI := fresh (inst_addrs F) in
            let F1 := flat_map (fun x =>
                        if baddr x =? bb
                        then [mkBlock bb (pre ++ [mkInst BI (Br New)]); mkBlock New post]
                        else [x]) F in
            let succs := match getTerminator post with
                         | Some t => successors (ikind t)
                         | None => []
                         end in
            Some (New, replaceSuccessorsPhiUsesWith bb New succs F1)
        | _, _ => None
        end
    end.

(** *** [MergeCalls::getUnreachableBlock] *)

Fixpoint find_unreachable (bbs : list Block) : option (option addr) :=
  match bbs with
  | [] => Some None
  | BB :: bbs' =>
      if length (insts BB) =? 1 then
        match first_non_phi (insts BB) with
        | None => None                     (* assert(instr && ...) *)
        | Some instr =>
            if isa_Unreachable (ikind instr) then Some (Some (baddr BB))
            else find_unreachable bbs'
        end
      else find_unreachable bbs'
  end.

Definition getUnreachableBlock : IR addr :=
  found <- (fun F => match find_unreachable F with
                     | Some r => Some (r, F)
                     | None => None
                     end) ;;
  match found with
  | Some BB => ret BB
  | None =>
      unreachableBlock <- BasicBlock_Create ;;
      UnreachableInst_new unreachableBlock ;;;
      ret unreachableBlock
  end.

(** *** [MergeCalls::mergeCallSites] *)

Definition is_call_site (Target : addr) (I : Inst) : bool :=
  isa_CallInst (ikind I) && negb (isInlineAsm (ikind I))
  && match getCalledFunction (ikind I) with
     | Some f => f =? Target
     | None => false
     end.

Definition collectCallSites (Target : addr) (F : Func) : list addr :=
  flat_map (fun BB =>
    flat_map (fun I => if is_call_site Target I then [iaddr I] else []) (insts BB)) F.

(** The body of the first loop, for one call site. *)
Definition split_call_site (CallBlock C : addr) : IR (addr * addr) :=
  ParentBlock <- getParent C ;;
  Next <- getNextNode C ;;
  Next <- deref Next ;;
  ReturnBlock <- splitBasicBlock ParentBlock Next ;;
  pos <- getFirstNonPHI ReturnBlock ;;
  pos <- deref pos ;;
  moveBefore C pos ;;;
  B <- BranchInst_Create CallBlock ParentBlock ;;
  prev <- getPrevNode B ;;
  prev <- deref prev ;;
  eraseFromParent prev ;;;
  ret (ParentBlock, ReturnBlock).

(** The first loop; it fills [CallSiteToOrigParent] and [CallSiteToRet]. *)
Fixpoint split_call_sites (CallBlock : addr) (CallSites : list addr)
         (CallSiteToRet CallSiteToOrigParent : list (addr * addr))
  : IR (list (addr * addr) * list (addr * addr)) :=
  match CallSites with
  | [] => ret (CallSiteToRet, CallSiteToOrigParent)
  | C :: rest =>
      PR <- split_call_site CallBlock C ;;
      split_call_sites CallBlock rest
        (AddrMap.set (fst PR) (snd PR) CallSiteToRet)
        (AddrMap.set C (fst PR) CallSiteToOrigParent)
  end.

(** The PHI node of one parameter. *)
Definition build_arg_phi (CallBlock : addr) (CallSites : list addr)
           (CallSiteToOrigParent : list (addr * addr)) (ty : typ) (argCtr : nat)
  : IR value :=
  ArgNode <- PHINode_Create ty CallBlock ;;
  for_each CallSites (fun C =>
    v <- getArgOperand C argCtr ;;
    P <- deref (AddrMap.get C CallSiteToOrigParent) ;;
    addIncoming ArgNode v P) ;;;
  ret (VInst ArgNode).

Fixpoint build_arg_phis (CallBlock : addr) (CallSites : list addr)
         (CallSiteToOrigParent : list (addr * addr)) (params : list typ) (argCtr : nat)
  : IR (list value) :=
  match params with
  | [] => ret []
  | ty :: params' =>
      n <- build_arg_phi CallBlock CallSites CallSiteToOrigParent ty argCtr ;;
      ns <- build_arg_phis CallBlock CallSites CallSiteToOrigParent params' (S argCtr) ;;
      ret (n :: ns)
  end.

(** The last loop: one discriminator entry and one switch case per entry
    of [CallSiteToRet], in the map's iteration order. *)
Fixpoint build_switch (WhereFromNode SwitchBackInstr : addr)
         (kvs : list (addr * addr)) (switchCtr : Z) : IR unit :=
  match kvs with
  | [] => ret tt
  | KV :: kvs' =>
      let BranchIdx := APInt 32 switchCtr in
      addIncoming WhereFromNode (VConstant BranchIdx) (fst KV) ;;;
      addCase SwitchBackInstr BranchIdx (snd KV) ;;;
      build_switch WhereFromNode SwitchBackInstr kvs' (switchCtr + 1)
  end.

(** Everything after the first loop: the argument PHI nodes, the unified
    call, the second loop, the discriminator and the switch. *)
Definition emit_call_block (Target CallBlock : addr) (CallSites : list addr)
           (CallSiteToRet CallSiteToOrigParent : list (addr * addr)) : IR addr :=
  CallArgs <- build_arg_phis CallBlock CallSites CallSiteToOrigParent
                (fn_args Target) 0 ;;
  UnifiedCall <- CallInst_Create (VFunction Target) CallArgs CallBlock ;;
  for_each CallSites (fun C =>
    replaceAllUsesWith C UnifiedCall ;;;
    eraseFromParent C) ;;;
  WhereFromNode <- PHINode_Create_before (IntegerTy 32) UnifiedCall ;;
  dflt <- getUnreachableBlock ;;
  SwitchBackInstr <- SwitchInst_Create (VInst WhereFromNode) dflt CallBlock ;;
  build_switch WhereFromNode SwitchBackInstr CallSiteToRet 0 ;;;
  ret UnifiedCall.

Definition mergeCallSites (Target : addr) : IR (option addr) :=
  CallSites <- gets (collectCallSites Target) ;;
  match CallSites with
  | [] => ret None
  | [C] => ret (Some C)
  | _ =>
      CallBlock <- BasicBlock_Create ;;
      maps <- split_call_sites CallBlock CallSites [] [] ;;
      UnifiedCall <- emit_call_block Target CallBlock CallSites (fst maps) (snd maps) ;;
      ret (Some UnifiedCall)
  end.

(** *** [MergeCalls::runOnFunction] *)

(** The register-to-memory demotion pass, an external collaborator. *)
Variable reg2mem : Func -> Func.

Definition group_step (FuncToInvokers : list (addr * list addr)) (I : Inst)
  : list (addr * list addr) :=
  if isa_CallInst (ikind I) then
    if isInlineAsm (ikind I) then FuncToInvokers
    else match getCalledFunction (ikind I) with
         | None => FuncToInvokers
         | Some f =>
             if fn_isIntrinsic f then FuncToInvokers
             else AddrMap.push f (iaddr I) FuncToInvokers
         end
  else FuncToInvokers.

Definition groupCallSites (F : Func) : list (addr * list addr) :=
  fold_left (fun m BB => fold_left group_step (insts BB) m) F [].

Fixpoint merge_groups (groups : list (addr * list addr)) (Modified : bool) : IR bool :=
  match groups with
  | [] => ret Modified
  | KV :: groups' =>
      if 1 <? length (snd KV) then
        mergeCallSites (fst KV) ;;;
        merge_groups groups' true
      else merge_groups groups' Modified
  end.

(** The result carries the number of times the demotion pass was run. *)
Definition runOnFunction : IR (bool * nat) :=
  FuncToInvokers <- gets groupCallSites ;;
  Modified <- merge_groups FuncToInvokers false ;;
  if Modified then
    modify reg2mem ;;;
    ret (Modified, 1)
  else ret (Modified, 0).

End MergeCalls.

(** ** [mergeCallSites] with a [Target] pointer that may be null

    [Function *Target] is a pointer and [mergeCallSites] does not test it.
    With a null [Target] the comparison [C->getCalledFunction() == Target]
    holds of the calls whose called function is not known statically (the
    indirect calls), and [Target->arg_size()], reached once two or more
    call sites have been split, dereferences the null pointer.  For a
    [Target] that is not null this is [mergeCallSites] above. *)
Definition is_call_site_of (Target : option addr) (I : Inst) : bool :=
  isa_CallInst (ikind I) && negb (isInlineAsm (ikind I))
  && match getCalledFunction (ikind I), Target with
     | Some f, Some t => f =? t
     | None, None => true
     | _, _ => false
     end.

Definition collectCallSites_of (Target : option addr) (F : Func) : list addr :=
  flat_map (fun BB =>
    flat_map (fun I => if is_call_site_of Target I then [iaddr I] else []) (insts BB)) F.

Definition mergeCallSites_of (fresh : list addr -> addr) (fn_args : addr -> list typ)
           (Target : option addr) : IR (option addr) :=
  CallSites <- gets (collectCallSites_of Target) ;;
  match CallSites with
  | [] => ret None
  | [C] => ret (Some C)
  | _ =>
      CallBlock <- BasicBlock_Create fresh ;;
      maps <- split_call_sites fresh CallBlock CallSites [] [] ;;
      match Target with
      | None => abort                       (* Target->arg_size() *)
      | Some T =>
          UnifiedCall <- emit_call_block fresh fn_args T CallBlock CallSites
                           (fst maps) (snd maps) ;;
          ret (Some UnifiedCall)
      end
  end.

(** ** Vocabulary of the specification *)

(** Well-formedness of the input, as the pass assumes it: addresses
    identify objects, every block ends in a terminator, and a direct call
    passes at least as many arguments as its callee has parameters. *)
Definition has_terminator (b : Block) : Prop := getTerminator (insts b) <> None.

Definition args_match (fn_args : addr -> list typ) (x : Inst) : Prop :=
  forall f args, ikind x = Call (VFunction f) args -> length (fn_args f) <= length args.

Record wf (fn_args : addr -> list typ) (F : Func) : Prop := mk_wf {
  wf_blocks : NoDup (block_addrs F);
  wf_insts : NoDup (inst_addrs F);
  wf_term : Forall has_terminator F;
  wf_args : Forall (args_match fn_args) (all_insts F)
}.

(** Every branch target is a block of the function. *)
Definition targets_closed (F : Func) : Prop :=
  forall x a, In x (all_insts F) -> In a (successors (ikind x)) -> In a (block_addrs F).

(** A block whose whole content is one [unreachable]. *)
Definition lone_unreachable (b : Block) : Prop :=
  exists i, insts b = [mkInst i Unreachable].

(** A block whose whole content is one PHI node (it has no terminator). *)
Definition lone_phi (b : Block) : Prop :=
  exists i ty inc, insts b = [mkInst i (PHI ty inc)].

(** The instructions of [F] whose called function is [T]. *)
Definition calls_fn (T : addr) (x : Inst) : bool :=
  match getCalledFunction (ikind x) with
  | Some f => f =? T
  | None => false
  end.

Definition calls_to (T : addr) (F : Func) : list Inst :=
  filter (calls_fn T) (all_insts F).

(** The (call site, origin block, resume block) triples of the first loop
    of [mergeCallSites], in iteration order: the same loop as
    [split_call_sites], keeping every pair it records. *)
Fixpoint split_pairs (fresh : list addr -> addr) (CallBlock : addr)
         (CallSites : list addr) : IR (list (addr * (addr * addr))) :=
  match CallSites with
  | [] => ret []
  | C :: rest =>
      PR <- split_call_site fresh CallBlock C ;;
      l <- split_pairs fresh CallBlock rest ;;
      ret ((C, PR) :: l)
  end.

(** [PHINode::getIncomingValueForBlock]. *)
Fixpoint getIncomingValueForBlock (inc : list (value * addr)) (bb : addr) : option value :=
  match inc with
  | [] => None
  | (v, b) :: inc' => if b =? bb then Some v else getIncomingValueForBlock inc' bb
  end.

(** Where a switch sends control for a given discriminator value: the
    target of the first matching case, or the default edge. *)
Inductive switch_edge : Type :=
| CaseEdge (dest : addr)
| DefaultEdge (dest : addr).

Definition ConstantInt_eqb (a b : ConstantInt) : bool :=
  (ci_bits a =? ci_bits b) && (ci_val a =? ci_val b)%Z.

Fixpoint findCaseDest (cases : list (ConstantInt * addr)) (dflt : addr) (c : ConstantInt)
  : switch_edge :=
  match cases with
  | [] => DefaultEdge dflt
  | (c', d) :: cases' =>
      if ConstantInt_eqb c' c then CaseEdge d else findCaseDest cases' dflt c
  end.

(** Operand renaming done by the second loop: every use of a merged call
    becomes a use of the unified call. *)
Definition rename_value (CallSites : list addr) (u : addr) (v : value) : value :=
  match v with
  | VInst i => if existsb (Nat.eqb i) CallSites then VInst u else v
  | _ => v
  end.

Definition rename_inst (CallSites : list addr) (u : addr) (x : Inst) : Inst :=
  mkInst (iaddr x) (map_operands (rename_value CallSites u) (ikind x)).

(** What the second loop makes of an instruction list: the merged calls are
    gone and their uses renamed. *)
Definition rw (CallSites : list addr) (u : addr) (l : list Inst) : list Inst :=
  map (rename_inst CallSites u)
      (filter (fun x => negb (existsb (Nat.eqb (iaddr x)) CallSites)) l).

(** The arguments a call instruction of [F] passes. *)
Definition args_of (c : addr) (F : Func) : list value :=
  match find_inst c F with
  | Some (mkInst _ (Call _ args)) => args
  | _ => []
  end.

(** Enumeration from a start value, as [switchCtr++] does. *)
Fixpoint number_from {A} (n : Z) (l : list A) : list (Z * A) :=
  match l with
  | [] => []
  | x :: l' => (n, x) :: number_from (n + 1) l'
  end.

(** ** Further vocabulary of the proofs and of the claims *)

Definition strip_kind (k : instr_kind) : instr_kind :=
  match k with
  | PHI ty inc => PHI ty (map (fun vb => (fst vb, 0)) inc)
  | _ => k
  end.

Definition strip (x : Inst) : Inst := mkInst (iaddr x) (strip_kind (ikind x)).

Definition sB (b : Block) : Block := on_insts (map strip) b.

Definition sF (F : Func) : Func := map sB F.

Definition phi_upd (Old New : addr) (succs : list addr) (x : Block) : Block :=
  if existsb (Nat.eqb (baddr x)) succs
  then on_insts (replacePhiUsesWith Old New) x
  else x.

(** One iteration of the first loop, seen on the function with the incoming
    blocks of PHI nodes forgotten: the block of the call is cut after the
    call, the call moves behind the PHI nodes that follow it, and the
    origin block gets a branch to the call block. *)
Inductive split_rel (M : addr) (ci : Inst) : Func -> addr * addr -> Func -> Prop :=
| split_rel_intro A P p q1 q2 B R b :
    Forall (fun x => isa_PHI (ikind x) = true) q1 ->
    ~ In R (block_addrs (A ++ mkBlock P (p ++ ci :: q1 ++ q2) :: B)) ->
    ~ In b (inst_addrs (A ++ mkBlock P (p ++ ci :: q1 ++ q2) :: B)) ->
    getTerminator (q1 ++ ci :: q2) <> None ->
    split_rel M ci (A ++ mkBlock P (p ++ ci :: q1 ++ q2) :: B) (P, R)
              (A ++ mkBlock P (p ++ [mkInst b (Br M)]) :: mkBlock R (q1 ++ ci :: q2) :: B).

Definition origin_of (e : addr * (addr * addr)) : addr := fst (snd e).

Definition resume_of (e : addr * (addr * addr)) : addr := snd (snd e).

Definition isCall (x : Inst) : bool := isa_CallInst (ikind x).

Record loop_inv (T M : addr) (closed : Prop) (calls0 : list Inst)
       (lg : list (addr * (addr * addr))) (todo : list addr) (G : Func) : Prop :=
  mk_loop_inv {
    li_blocks : NoDup (block_addrs G);
    li_insts : NoDup (inst_addrs G);
    li_M : In (mkBlock M []) G;
    li_term : forall b, In b G -> baddr b <> M -> has_terminator b;
    li_calls : filter isCall (all_insts G) = calls0;
    li_sites : map iaddr (filter (is_call_site T) calls0) = map fst lg ++ todo;
    li_origin : forall e, In e lg ->
                exists l b, In (mkBlock (origin_of e) (l ++ [mkInst b (Br M)])) G
                            /\ forall t, In t todo ->
                                         ~ In t (map iaddr (l ++ [mkInst b (Br M)]));
    li_nodup : NoDup (map origin_of lg);
    li_preds : closed -> forall b x, In b G -> In x (insts b) ->
                                     In M (successors (ikind x)) ->
                                     In (baddr b) (map origin_of lg);
    li_resume : forall e, In e lg -> resume_of e <> M
  }.

(** The two maps filled by the first loop, from the pairs it records. *)
Definition ret_map (lg : list (addr * (addr * addr))) (m : list (addr * addr)) :=
  fold_left (fun m e => AddrMap.set (origin_of e) (resume_of e) m) lg m.

Definition orig_map (lg : list (addr * (addr * addr))) (m : list (addr * addr)) :=
  fold_left (fun m e => AddrMap.set (fst e) (origin_of e) m) lg m.

Definition plug (G1 : Func) (M : addr) (l : list Inst) (G2 : Func) : Func :=
  G1 ++ mkBlock M l :: G2.

(** The incoming list of the PHI node of parameter [i]: for each call site
    in collection order, its [i]-th argument and its origin block. *)
Definition phi_incoming (F1 : Func) (orig : list (addr * addr)) (i : nat) (cs : list addr)
  : list (value * addr) :=
  map (fun c => (nth i (args_of c F1) (VOther 0),
                 match AddrMap.get c orig with Some P => P | None => 0 end)) cs.

Fixpoint arg_phi_kinds (F1 : Func) (orig : list (addr * addr)) (cs : list addr)
         (params : list typ) (argCtr : nat) : list instr_kind :=
  match params with
  | [] => []
  | ty :: ps => PHI ty (phi_incoming F1 orig argCtr cs)
                  :: arg_phi_kinds F1 orig cs ps (S argCtr)
  end.

Definition not_in_cs (cs : list addr) (x : Inst) : bool :=
  negb (existsb (Nat.eqb (iaddr x)) cs).

(** The discriminator entries and the switch cases made from the entries of
    [CallSiteToRet], numbered in the map's order. *)
Definition discr_incoming (ctr : Z) (kvs : list (addr * addr)) : list (value * addr) :=
  map (fun ke => (VConstant (APInt 32 (fst ke)), fst (snd ke))) (number_from ctr kvs).

Definition switch_cases (ctr : Z) (kvs : list (addr * addr)) : list (ConstantInt * addr) :=
  map (fun ke => (APInt 32 (fst ke), snd (snd ke))) (number_from ctr kvs).

(** What a merge of two or more call sites produces. *)
Inductive merge_result (fresh : list addr -> addr) (fn_args : addr -> list typ)
          (T : addr) (F : Func) (u : addr) (F' : Func) : Prop :=
| merge_result_intro M lg G1 G2 phis w s dflt tail :
    M = fresh (block_addrs F) ->
    split_pairs fresh M (collectCallSites T F) (F ++ [mkBlock M []])
    = Some (lg, plug G1 M [] G2) ->
    map fst lg = collectCallSites T F ->
    loop_inv T M (targets_closed F) (filter isCall (all_insts F)) lg []
             (sF (plug G1 M [] G2)) ->
    F' = plug (map (on_insts (rw (collectCallSites T F) u)) G1) M
           (map (rename_inst (collectCallSites T F) u) phis
              ++ [mkInst w (PHI (IntegerTy 32) (discr_incoming 0 (ret_map lg [])));
                  mkInst u (Call (VFunction T) (map (fun p => VInst (iaddr p)) phis));
                  mkInst s (Switch (VInst w) dflt (switch_cases 0 (ret_map lg [])))])
           (map (on_insts (rw (collectCallSites T F) u)) G2 ++ tail) ->
    map ikind phis
    = arg_phi_kinds (plug G1 M [] G2) (orig_map lg []) (collectCallSites T F)
                    (fn_args T) 0 ->
    NoDup (block_addrs F') -> NoDup (inst_addrs F') ->
    ~ In u (inst_addrs (plug G1 M [] G2)) ->
    (forall p, In p phis -> ~ In (iaddr p) (inst_addrs (plug G1 M [] G2))) ->
    ((tail = [] /\ In dflt (block_addrs (G1 ++ G2)))
     \/ (exists i, tail = [mkBlock dflt [mkInst i Unreachable]]
                   /\ ~ In dflt (block_addrs (plug G1 M [] G2)))) ->
    merge_result fresh fn_args T F u F'.

(** The redispatch of a call block: the incoming list of the discriminator
    PHI node, the default target and the cases of the switch that ends the
    block. *)
Definition redispatch (M : addr) (F : Func)
  : option (list (value * addr) * addr * list (ConstantInt * addr)) :=
  match find_block M F with
  | Some b =>
      match getTerminator (insts b) with
      | Some (mkInst _ (Switch (VInst w) dflt cases)) =>
          match find_inst w F with
          | Some (mkInst _ (PHI _ inc)) => Some (inc, dflt, cases)
          | _ => None
          end
      | _ => None
      end
  | None => None
  end.

Fixpoint Zseq (start : Z) (n : nat) : list Z :=
  match n with
  | 0 => []
  | S n' => start :: Zseq (start + 1) n'
  end.

(** The values the arguments [args] of a call take when control arrives
    from block [P]: an argument that is a PHI node of [F] stands for its
    incoming value for [P], any other argument for itself. *)
Definition args_on_arrival (F : Func) (args : list value) (P : addr) : list (option value) :=
  map (fun v =>
         match v with
         | VInst a =>
             match find_inst a F with
             | Some (mkInst _ (PHI _ inc)) => getIncomingValueForBlock inc P
             | _ => Some v
             end
         | _ => Some v
         end) args.

(** The call-site classifier: the calls that pass the three tests of the
    first loop of [runOnFunction]. *)
Definition eligible (fn_isIntrinsic : addr -> bool) (x : Inst) : bool :=
  isa_CallInst (ikind x) && negb (isInlineAsm (ikind x))
  && match getCalledFunction (ikind x) with
     | Some f => negb (fn_isIntrinsic f)
     | None => false
     end.

(** C6 as the specification states it: every ineligible call of [F] is
    still in the function, untouched, after the merges of [runOnFunction]. *)
Definition ineligible_untouched (fresh : list addr -> addr) (fn_args : addr -> list typ)
           (fn_isIntrinsic : addr -> bool) (F : Func) : Prop :=
  forall Modified Fm,
    merge_groups fresh fn_args (groupCallSites fn_isIntrinsic F) false F
    = Some (Modified, Fm) ->
    forall x, In x (all_insts F) -> isCall x = true -> eligible fn_isIntrinsic x = false ->
              In x (all_insts Fm).

Fixpoint nodupb (l : list addr) : bool :=
  match l with
  | [] => true
  | x :: l' => negb (existsb (Nat.eqb x) l') && nodupb l'
  end.

Definition wfb (fn_args : addr -> list typ) (F : Func) : bool :=
  nodupb (block_addrs F) && nodupb (inst_addrs F)
  && forallb (fun b => match getTerminator (insts b) with
                       | Some _ => true
                       | None => false
                       end) F
  && forallb (fun x => match ikind x with
                       | Call (VFunction f) args => length (fn_args f) <=? length args
                       | _ => true
                       end) (all_insts F).

Definition targets_closedb (F : Func) : bool :=
  forallb (fun x => forallb (fun a => existsb (Nat.eqb a) (block_addrs F))
                            (successors (ikind x))) (all_insts F).

(** A bump allocator: every new object lies above all live ones. *)
Definition bump (l : list addr) : addr := S (list_max l).

(** An ordinary callee with one [i32] parameter, and an intrinsic. *)
Definition ex_T : addr := 100.

Definition ex_I : addr := 200.

Definition ex_params (f : addr) : list typ := if f =? ex_T then [IntegerTy 32] else [].

Definition ex_intrinsic (f : addr) : bool := f =? ex_I.

(** Three calls in three blocks whose addresses descend in function order. *)
Definition three_blocks : Func :=
  [ mkBlock 30 [ mkInst 1 (Call (VFunction ex_T) [VArgument 0]);
                 mkInst 2 (Other [VInst 1]);
                 mkInst 3 (Br 20) ];
    mkBlock 20 [ mkInst 4 (Call (VFunction ex_T) [VArgument 1]);
                 mkInst 5 (Other [VInst 4]);
                 mkInst 6 (Br 10) ];
    mkBlock 10 [ mkInst 7 (Call (VFunction ex_T) [VArgument 2]);
                 mkInst 8 (Term [VInst 7] []) ] ].

Definition one_call : Func :=
  [ mkBlock 10 [ mkInst 1 (Call (VFunction ex_T) [VArgument 0]);
                 mkInst 2 (Term [VInst 1] []) ] ].

(** Two direct calls to an intrinsic. *)
Definition intrinsic_calls : Func :=
  [ mkBlock 10 [ mkInst 1 (Call (VFunction ex_I) []);
                 mkInst 2 (Call (VFunction ex_I) []);
                 mkInst 3 (Term [] []) ] ].

(** C4 as stated: with fewer than two call sites the result is null. *)
Definition few_sites_returns_null (fresh : list addr -> addr) (fn_args : addr -> list typ)
           (T : addr) (F : Func) : Prop :=
  length (collectCallSites T F) < 2 -> mergeCallSites fresh fn_args T F = Some (None, F).

(** C8 as stated: the constants follow the collection order. *)
Definition discriminator_in_collection_order
           (fresh : list addr -> addr) (fn_args : addr -> list typ)
           (T : addr) (F : Func) : Prop :=
  forall u F' lg F1 inc dflt cases,
    mergeCallSites fresh fn_args T F = Some (Some u, F') ->
    split_pairs fresh (fresh (block_addrs F)) (collectCallSites T F)
                (F ++ [mkBlock (fresh (block_addrs F)) []]) = Some (lg, F1) ->
    redispatch (fresh (block_addrs F)) F' = Some (inc, dflt, cases) ->
    inc = map (fun ke => (VConstant (APInt 32 (fst ke)), origin_of (snd ke)))
              (number_from 0 lg).

Definition three_blocks_merged_fn : Func :=
  match mergeCallSites bump ex_params ex_T three_blocks with
  | Some (_, F') => F'
  | None => []
  end.

Definition three_blocks_split : Func :=
  match split_pairs bump (bump (block_addrs three_blocks))
                    (collectCallSites ex_T three_blocks)
                    (three_blocks ++ [mkBlock (bump (block_addrs three_blocks)) []]) with
  | Some (_, F1) => F1
  | None => []
  end.

(** What the first loop of [mergeCallSites] keeps of the function [F0] it
    started from (both seen with the incoming blocks of PHI nodes
    forgotten): the first block, the blocks of [F0] and their order, and
    the instructions of [F0]; what it adds is one resume block per recorded
    pair and branches to the call block [M]. *)
Record loop_keeps (M : addr) (F0 : Func) (lg : list (addr * (addr * addr)))
       (G : Func) : Prop :=
  mk_loop_keeps {
    lk_hd : forall a, hd_error (block_addrs F0) = Some a ->
                      hd_error (block_addrs G) = Some a;
    lk_len : length G = S (length F0 + length lg);
    lk_blocks : incl (block_addrs F0) (block_addrs G);
    lk_order : filter (fun a => existsb (Nat.eqb a) (block_addrs F0)) (block_addrs G)
               = block_addrs F0;
    lk_resume : forall e, In e lg ->
                          In (resume_of e) (block_addrs G)
                          /\ ~ In (resume_of e) (block_addrs F0);
    lk_old : forall x, In x (all_insts F0) -> In x (all_insts G);
    lk_new : forall x, In x (all_insts G) ->
                       In x (all_insts F0)
                       \/ (ikind x = Br M /\ ~ In (iaddr x) (inst_addrs F0))
  }.

(** A second ordinary callee, without parameters. *)
Definition ex_U : addr := 150.

(** Calls to two ordinary callees and to an intrinsic, two each. *)
Definition two_callees : Func :=
  [ mkBlock 10 [ mkInst 1 (Call (VFunction ex_T) [VArgument 0]);
                 mkInst 2 (Call (VFunction ex_U) []);
                 mkInst 3 (Call (VFunction ex_I) []);
                 mkInst 4 (Br 20) ];
    mkBlock 20 [ mkInst 5 (Call (VFunction ex_U) []);
                 mkInst 6 (Call (VFunction ex_T) [VInst 5]);
                 mkInst 7 (Call (VFunction ex_I) []);
                 mkInst 8 (Term [VInst 6] []) ] ].

(** [b] is the instruction right after [a] in the instruction list [l]. *)
Definition follows (a b : Inst) (l : list Inst) : Prop :=
  exists pre post, l = pre ++ a :: b :: post.

(** [b] is the instruction right after [a] in some block of [F]
    ([a->getNextNode() == b]). *)
Definition next_in_function (F : Func) (a b : Inst) : Prop :=
  exists blk, In blk F /\ follows a b (insts blk).

(** What the first loop keeps of a call [ci] and the instruction [n] that
    follows it: until the call is split out they stay next to each other,
    and from then on they lead the resume block recorded for the call. *)
Definition resumes_inv (lg : list (addr * (addr * addr))) (G : Func) (ci n : Inst) : Prop :=
  (~ In (iaddr ci) (map fst lg) /\ next_in_function G ci n)
  \/ (exists P R post, In (iaddr ci, (P, R)) lg /\ In (mkBlock R (ci :: n :: post)) G).

(** [x'] is [x] with its operands redirected along [R]: an operand that
    is the result of an instruction [i] with [R i j] has become the result
    of [j]; every other operand (a constant, an argument, a function, the
    result of an instruction that [R] does not relate to anything) is as
    it was.  The address, the kind of instruction and the number and order
    of the operands are the same. *)
Definition redirected (R : addr -> addr -> Prop) (x x' : Inst) : Prop :=
  iaddr x' = iaddr x
  /\ exists sigma : value -> value,
       (forall v, (sigma v = v /\ forall i j, v = VInst i -> ~ R i j)
                  \/ exists i j, v = VInst i /\ R i j /\ sigma v = VInst j)
       /\ ikind x' = map_operands sigma (ikind x).

(** [i] is one of the calls [runOnFunction] merged and [j] is the unified
    call that replaced it: [i] is a call site, in [F], of a callee that is
    not an intrinsic and has two or more call sites in [F], and [j] is the
    one call site of that callee in [Fm]. *)
Definition merged_into (fn_isIntrinsic : addr -> bool) (F Fm : Func) (i j : addr) : Prop :=
  exists f, fn_isIntrinsic f = false
            /\ In i (collectCallSites f F)
            /\ 2 <= length (collectCallSites f F)
            /\ collectCallSites f Fm = [j].

(** The eligible call sites of [F] whose callee is [f]: the calls that the
    first loop of [runOnFunction] files under [f]. *)
Definition eligible_calls_to (fn_isIntrinsic : addr -> bool) (f : addr) (F : Func)
  : list Inst :=
  filter (fun x => eligible fn_isIntrinsic x && calls_fn f x) (all_insts F).

(** An inline-assembly call that uses the result of a merged call, before
    the next merged call. *)
Definition asm_user : Func :=
  [ mkBlock 10 [ mkInst 1 (Call (VFunction ex_T) [VArgument 0]);
                 mkInst 2 (Call (VInlineAsm 0) [VInst 1]);
                 mkInst 3 (Call (VFunction ex_T) [VArgument 1]);
                 mkInst 4 (Term [] []) ] ].

Definition asm_user_merged : Func :=
  [ mkBlock 10 [ mkInst 6 (Br 11) ];
    mkBlock 12 [ mkInst 2 (Call (VInlineAsm 0) [VInst 10]);
                 mkInst 8 (Br 11) ];
    mkBlock 13 [ mkInst 4 (Term [] []) ];
    mkBlock 11 [ mkInst 9 (PHI (IntegerTy 32) [(VArgument 0, 10); (VArgument 1, 12)]);
                 mkInst 11 (PHI (IntegerTy 32)
                                [(VConstant (APInt 32 0), 10);
                                 (VConstant (APInt 32 1), 12)]);
                 mkInst 10 (Call (VFunction ex_T) [VInst 9]);
                 mkInst 13 (Switch (VInst 11) 14 [(APInt 32 0, 12); (APInt 32 1, 13)]) ];
    mkBlock 14 [ mkInst 12 Unreachable ] ].

(** Three calls to the same callee, the third of which passes the result
    of the first. *)
Definition chained_calls : Func :=
  [ mkBlock 10 [ mkInst 1 (Call (VFunction ex_T) [VArgument 0]);
                 mkInst 2 (Call (VFunction ex_T) [VArgument 1]);
                 mkInst 3 (Call (VFunction ex_T) [VInst 1]);
                 mkInst 4 (Term [VInst 3] []) ] ].

(** Two indirect calls, through a function pointer passed as argument. *)
Definition indirect_calls : Func :=
  [ mkBlock 10 [ mkInst 1 (Call (VArgument 0) []);
                 mkInst 2 (Call (VArgument 0) []);
                 mkInst 3 (Term [] []) ] ].

(** What the merger leaves of [chained_calls]: block 11 is the call block,
    instruction 12 the unified call, blocks 10, 12 and 13 the origin blocks
    of the first, second and third call, and blocks 12, 13 and 14 their
    resume blocks. *)
Definition chained_merged : Func :=
  [ mkBlock 10 [ mkInst 6 (Br 11) ];
    mkBlock 12 [ mkInst 8 (Br 11) ];
    mkBlock 13 [ mkInst 10 (Br 11) ];
    mkBlock 14 [ mkInst 4 (Term [VInst 12] []) ];
    mkBlock 11 [ mkInst 11 (PHI (IntegerTy 32)
                                [(VArgument 0, 10); (VArgument 1, 12); (VInst 12, 13)]);
                 mkInst 13 (PHI (IntegerTy 32)
                                [(VConstant (APInt 32 0), 10);
                                 (VConstant (APInt 32 1), 12);
                                 (VConstant (APInt 32 2), 13)]);
                 mkInst 12 (Call (VFunction ex_T) [VInst 11]);
                 mkInst 15 (Switch (VInst 13) 15
                                   [(APInt 32 0, 12); (APInt 32 1, 13); (APInt 32 2, 14)]) ];
    mkBlock 15 [ mkInst 14 Unreachable ] ].

(** [chained_calls] after the first loop: every call heads its resume
    block, every origin block ends in a branch to the call block. *)
Definition chained_split : Func :=
  [ mkBlock 10 [ mkInst 6 (Br 11) ];
    mkBlock 12 [ mkInst 1 (Call (VFunction ex_T) [VArgument 0]);
                 mkInst 8 (Br 11) ];
    mkBlock 13 [ mkInst 2 (Call (VFunction ex_T) [VArgument 1]);
                 mkInst 10 (Br 11) ];
    mkBlock 14 [ mkInst 3 (Call (VFunction ex_T) [VInst 1]);
                 mkInst 4 (Term [VInst 3] []) ];
    mkBlock 11 [] ].

(** ** Basic facts about the monad *)

Lemma bind_Some {A B} (m : IR A) (k : A -> IR B) F r :
  bind m k F = Some r <-> exists a F', m F = Some (a, F') /\ k a F' = Some r.
Proof.
  unfold bind. destruct (m F) as [[a F']|].
  - split.
    + intros H. exists a, F'. auto.
    + intros (a' & F'' & E & H). inversion E; subst. exact H.
  - split; [discriminate|]. intros (a' & F'' & E & _). discriminate.
Qed.

Lemma bind_eq {A B} (m : IR A) (k : A -> IR B) F a F' :
  m F = Some (a, F') -> bind m k F = k a F'.
Proof. unfold bind. intros ->. reflexivity. Qed.

Ltac inv H := inversion H; subst; clear H.

(** ** No-op on fewer than two call sites *)

Section FewCallSites.
Variable fresh : list addr -> addr.
Variable fn_args : addr -> list typ.

Lemma mergeCallSites_none F T :
  collectCallSites T F = [] -> mergeCallSites fresh fn_args T F = Some (None, F).
Proof.
  intros E. unfold mergeCallSites, bind, gets. rewrite E. reflexivity.
Qed.

Lemma mergeCallSites_single F T C :
  collectCallSites T F = [C] -> mergeCallSites fresh fn_args T F = Some (Some C, F).
Proof.
  intros E. unfold mergeCallSites, bind, gets. rewrite E. reflexivity.
Qed.

Lemma mergeCallSites_few F T :
  length (collectCallSites T F) < 2 ->
  exists r, mergeCallSites fresh fn_args T F = Some (r, F).
Proof.
  intros H. destruct (collectCallSites T F) as [|C [|C' l]] eqn:E.
  - exists None. apply (mergeCallSites_none _ _ E).
  - exists (Some C). apply (mergeCallSites_single _ _ _ E).
  - simpl in H. lia.
Qed.

(** C4 (as amended): with fewer than two call sites of [T], the function
    is left exactly as it was; the result is null when there is no call
    site, and the sole call instruction when there is one. *)
Theorem mergeCallSites_few_call_sites F T :
  length (collectCallSites T F) < 2 ->
  exists r, mergeCallSites fresh fn_args T F = Some (r, F)
            /\ (collectCallSites T F = [] -> r = None)
            /\ (forall C, collectCallSites T F = [C] -> r = Some C).
Proof.
  intros H. destruct (collectCallSites T F) as [|C [|C' l]] eqn:E.
  - exists None. rewrite (mergeCallSites_none _ _ E).
    repeat split; auto. discriminate.
  - exists (Some C). rewrite (mergeCallSites_single _ _ _ E).
    repeat split; try discriminate. intros C0 E0. inv E0. reflexivity.
  - simpl in H. lia.
Qed.
End FewCallSites.

(** ** Instructions up to the incoming blocks of PHI nodes

    [splitBasicBlock] renames incoming blocks in PHI nodes of successor
    blocks.  Everything the pass relies on is insensitive to that, so the
    first loop is followed on functions whose PHI nodes have their incoming
    blocks forgotten. *)

Lemma strip_iaddr x : iaddr (strip x) = iaddr x.
Proof. reflexivity. Qed.

Lemma strip_isa_PHI x : isa_PHI (ikind (strip x)) = isa_PHI (ikind x).
Proof. destruct x as [a []]; reflexivity. Qed.

Lemma strip_nonphi x : isa_PHI (ikind x) = false -> strip x = x.
Proof. destruct x as [a []]; simpl; try reflexivity. discriminate. Qed.

Lemma strip_eq_nonphi x y : strip x = strip y -> isa_PHI (ikind x) = false -> x = y.
Proof.
  intros E H. assert (Hy : isa_PHI (ikind y) = false).
  { rewrite <- strip_isa_PHI, <- E, strip_isa_PHI. exact H. }
  rewrite <- (strip_nonphi x H), <- (strip_nonphi y Hy). exact E.
Qed.

Lemma strip_isTerminator x : isTerminator (ikind (strip x)) = isTerminator (ikind x).
Proof. destruct x as [a []]; reflexivity. Qed.

Lemma strip_successors x : successors (ikind (strip x)) = successors (ikind x).
Proof. destruct x as [a []]; reflexivity. Qed.

Lemma strip_idem x : strip (strip x) = strip x.
Proof.
  destruct x as [a []]; try reflexivity.
  unfold strip; simpl. rewrite map_map. reflexivity.
Qed.

Lemma map_strip_iaddr l l' : map strip l = map strip l' -> map iaddr l = map iaddr l'.
Proof.
  intros E. apply (f_equal (map iaddr)) in E. rewrite !map_map in E.
  exact E.
Qed.

Lemma sB_baddr b : baddr (sB b) = baddr b.
Proof. reflexivity. Qed.

Lemma sF_block_addrs F : block_addrs (sF F) = block_addrs F.
Proof. unfold block_addrs, sF. rewrite map_map. reflexivity. Qed.

Lemma all_insts_app F G : all_insts (F ++ G) = all_insts F ++ all_insts G.
Proof. unfold all_insts. apply flat_map_app. Qed.

Lemma inst_addrs_app F G : inst_addrs (F ++ G) = inst_addrs F ++ inst_addrs G.
Proof. unfold inst_addrs. rewrite all_insts_app, map_app. reflexivity. Qed.

Lemma inst_addrs_cons b F : inst_addrs (b :: F) = map iaddr (insts b) ++ inst_addrs F.
Proof. unfold inst_addrs. simpl. rewrite map_app. reflexivity. Qed.

Lemma block_addrs_app F G : block_addrs (F ++ G) = block_addrs F ++ block_addrs G.
Proof. apply map_app. Qed.

Lemma sF_all_insts F : all_insts (sF F) = map strip (all_insts F).
Proof.
  induction F as [|b F IH]; simpl; [reflexivity|].
  rewrite map_app. f_equal. exact IH.
Qed.

Lemma sF_inst_addrs F : inst_addrs (sF F) = inst_addrs F.
Proof.
  unfold inst_addrs. rewrite sF_all_insts, map_map. reflexivity.
Qed.

Lemma sF_eq_block_addrs F G : sF F = sF G -> block_addrs F = block_addrs G.
Proof. intros E. rewrite <- (sF_block_addrs F), E. apply sF_block_addrs. Qed.

Lemma sF_eq_inst_addrs F G : sF F = sF G -> inst_addrs F = inst_addrs G.
Proof. intros E. rewrite <- (sF_inst_addrs F), E. apply sF_inst_addrs. Qed.

Lemma sF_app F G : sF (F ++ G) = sF F ++ sF G.
Proof. apply map_app. Qed.

Lemma replacePhiUsesWith_strip Old New l :
  map strip (replacePhiUsesWith Old New l) = map strip l.
Proof.
  induction l as [|x l IH]; simpl; [reflexivity|].
  destruct (isa_PHI (ikind x)) eqn:E; [|reflexivity].
  simpl. rewrite IH. f_equal.
  destruct x as [a []]; try discriminate.
  unfold strip; simpl. rewrite map_map. reflexivity.
Qed.

(** ** Facts about the list helpers *)

Lemma getTerminator_app l x :
  getTerminator (l ++ [x]) = if isTerminator (ikind x) then Some x else None.
Proof.
  unfold getTerminator. rewrite map_app. simpl map. rewrite last_last. reflexivity.
Qed.

Lemma getTerminator_inv l t :
  getTerminator l = Some t -> exists l', l = l' ++ [t] /\ isTerminator (ikind t) = true.
Proof.
  destruct l as [|x l] using rev_ind; [discriminate|].
  rewrite getTerminator_app. destruct (isTerminator (ikind x)) eqn:E; [|discriminate].
  intros H. inv H. eauto.
Qed.

Lemma getTerminator_app_r l1 l2 :
  l2 <> [] -> getTerminator (l1 ++ l2) = getTerminator l2.
Proof.
  destruct l2 as [|x l2] using rev_ind; [congruence|].
  intros _. rewrite app_assoc, !getTerminator_app. reflexivity.
Qed.

Lemma getTerminator_strip l :
  getTerminator (map strip l) = option_map strip (getTerminator l).
Proof.
  destruct l as [|x l] using rev_ind; [reflexivity|].
  rewrite map_app. simpl. rewrite !getTerminator_app, strip_isTerminator.
  destruct (isTerminator (ikind x)); reflexivity.
Qed.

Lemma remove_inst_notin i l : ~ In i (map iaddr l) -> remove_inst i l = l.
Proof.
  induction l as [|x l IH]; simpl; [reflexivity|].
  intros H. destruct (Nat.eqb_spec (iaddr x) i) as [E|E]; simpl.
  - exfalso. apply H. left. exact E.
  - f_equal. apply IH. tauto.
Qed.

Lemma remove_inst_app i l1 l2 :
  remove_inst i (l1 ++ l2) = remove_inst i l1 ++ remove_inst i l2.
Proof. apply filter_app. Qed.

Lemma remove_inst_here i x l :
  iaddr x = i -> ~ In i (map iaddr l) -> remove_inst i (x :: l) = l.
Proof.
  intros E H. simpl. rewrite E, Nat.eqb_refl. simpl. apply remove_inst_notin, H.
Qed.

Lemma insert_before_notin pos x l : ~ In pos (map iaddr l) -> insert_before pos x l = l.
Proof.
  induction l as [|y l IH]; simpl; [reflexivity|].
  intros H. destruct (Nat.eqb_spec (iaddr y) pos) as [E|E].
  - exfalso. apply H. left. exact E.
  - f_equal. apply IH. tauto.
Qed.

Lemma insert_before_here pos x l1 y l2 :
  ~ In pos (map iaddr l1) -> iaddr y = pos ->
  insert_before pos x (l1 ++ y :: l2) = l1 ++ x :: y :: l2.
Proof.
  intros H E. induction l1 as [|z l1 IH]; simpl.
  - rewrite E, Nat.eqb_refl. reflexivity.
  - simpl in H. destruct (Nat.eqb_spec (iaddr z) pos) as [E'|E'].
    + exfalso. apply H. left. exact E'.
    + f_equal. apply IH. tauto.
Qed.

Lemma next_in_here i l1 x y l2 :
  ~ In i (map iaddr l1) -> iaddr x = i ->
  next_in i (l1 ++ x :: y :: l2) = Some (iaddr y).
Proof.
  intros H E. induction l1 as [|z l1 IH]; simpl.
  - rewrite E, Nat.eqb_refl. reflexivity.
  - simpl in H. destruct (Nat.eqb_spec (iaddr z) i) as [E'|E'].
    + exfalso. apply H. left. exact E'.
    + apply IH. tauto.
Qed.

Lemma prev_in_here i last l1 p x l2 :
  ~ In i (map iaddr l1) -> iaddr p <> i -> iaddr x = i ->
  prev_in last i (l1 ++ p :: x :: l2) = Some (iaddr p).
Proof.
  intros H Hp E. revert last. induction l1 as [|z l1 IH]; intros last; simpl.
  - destruct (Nat.eqb_spec (iaddr p) i) as [E'|E']; [contradiction|].
    rewrite E, Nat.eqb_refl. reflexivity.
  - simpl in H. destruct (Nat.eqb_spec (iaddr z) i) as [E'|E'].
    + exfalso. apply H. left. exact E'.
    + apply IH. tauto.
Qed.

Lemma split_before_here i l1 x l2 :
  ~ In i (map iaddr l1) -> iaddr x = i ->
  split_before i (l1 ++ x :: l2) = Some (l1, x :: l2).
Proof.
  intros H E. induction l1 as [|z l1 IH]; simpl.
  - rewrite E, Nat.eqb_refl. reflexivity.
  - simpl in H. destruct (Nat.eqb_spec (iaddr z) i) as [E'|E'].
    + exfalso. apply H. left. exact E'.
    + rewrite IH by tauto. reflexivity.
Qed.

Lemma has_inst_true i b : has_inst i b = true <-> In i (map iaddr (insts b)).
Proof.
  unfold has_inst. rewrite existsb_exists, in_map_iff. split.
  - intros (x & Hx & E). apply Nat.eqb_eq in E. eauto.
  - intros (x & E & Hx). exists x. split; [exact Hx|]. apply Nat.eqb_eq, E.
Qed.

Lemma in_inst_addrs i F :
  In i (inst_addrs F) <-> exists b, In b F /\ In i (map iaddr (insts b)).
Proof.
  unfold inst_addrs, all_insts. rewrite in_map_iff. split.
  - intros (x & E & Hx). apply in_flat_map in Hx. destruct Hx as (b & Hb & Hx).
    exists b. split; [exact Hb|]. apply in_map_iff. eauto.
  - intros (b & Hb & Hi). apply in_map_iff in Hi. destruct Hi as (x & E & Hx).
    exists x. split; [exact E|]. apply in_flat_map. eauto.
Qed.

Lemma find_has_inst_here i bs1 B bs2 :
  ~ In i (inst_addrs bs1) -> In i (map iaddr (insts B)) ->
  find (has_inst i) (bs1 ++ B :: bs2) = Some B.
Proof.
  intros H HB. induction bs1 as [|b bs1 IH]; simpl.
  - apply has_inst_true in HB. rewrite HB. reflexivity.
  - rewrite inst_addrs_cons, in_app_iff in H.
    destruct (has_inst i b) eqn:E.
    + apply has_inst_true in E. tauto.
    + apply IH. tauto.
Qed.

Lemma find_block_here a bs1 B bs2 :
  ~ In a (block_addrs bs1) -> baddr B = a ->
  find_block a (bs1 ++ B :: bs2) = Some B.
Proof.
  intros H E. unfold find_block. induction bs1 as [|b bs1 IH]; simpl.
  - rewrite E, Nat.eqb_refl. reflexivity.
  - simpl in H. destruct (Nat.eqb_spec (baddr b) a) as [E'|E'].
    + exfalso. apply H. left. exact E'.
    + apply IH. tauto.
Qed.

Lemma find_inst_here i l1 x l2 :
  ~ In i (map iaddr l1) -> iaddr x = i ->
  find (fun y => iaddr y =? i) (l1 ++ x :: l2) = Some x.
Proof.
  intros H E. induction l1 as [|z l1 IH]; simpl.
  - rewrite E, Nat.eqb_refl. reflexivity.
  - simpl in H. destruct (Nat.eqb_spec (iaddr z) i) as [E'|E'].
    + exfalso. apply H. left. exact E'.
    + apply IH. tauto.
Qed.

Lemma map_id_on {A} (f : A -> A) l : (forall x, In x l -> f x = x) -> map f l = l.
Proof.
  induction l as [|x l IH]; simpl; intros H; [reflexivity|].
  rewrite H by (left; reflexivity). f_equal. apply IH. intros y Hy. apply H. right. exact Hy.
Qed.

Lemma map_remove_notin i F :
  ~ In i (inst_addrs F) -> map (on_insts (remove_inst i)) F = F.
Proof.
  intros H. apply map_id_on. intros b Hb. destruct b as [a l]. unfold on_insts. simpl.
  f_equal. apply remove_inst_notin. intros Hi. apply H, in_inst_addrs. exists (mkBlock a l). auto.
Qed.

Lemma map_insert_notin pos x F :
  ~ In pos (inst_addrs F) -> map (on_insts (insert_before pos x)) F = F.
Proof.
  intros H. apply map_id_on. intros b Hb. destruct b as [a l]. unfold on_insts. simpl.
  f_equal. apply insert_before_notin. intros Hi. apply H, in_inst_addrs. exists (mkBlock a l). auto.
Qed.

Lemma on_block_notin a f F : ~ In a (block_addrs F) -> on_block a f F = F.
Proof.
  intros H. apply map_id_on. intros b Hb.
  destruct (Nat.eqb_spec (baddr b) a) as [E|E]; [|reflexivity].
  exfalso. apply H. apply in_map_iff. eauto.
Qed.

Lemma on_block_app a f F G : on_block a f (F ++ G) = on_block a f F ++ on_block a f G.
Proof. apply map_app. Qed.

Lemma on_block_here a f bs1 B bs2 :
  ~ In a (block_addrs bs1) -> ~ In a (block_addrs bs2) -> baddr B = a ->
  on_block a f (bs1 ++ B :: bs2) = bs1 ++ on_insts f B :: bs2.
Proof.
  intros H1 H2 E. rewrite on_block_app, (on_block_notin a f bs1 H1). f_equal.
  unfold on_block at 1. simpl. rewrite E, Nat.eqb_refl. f_equal.
  apply on_block_notin, H2.
Qed.

Lemma replacePhiUsesWith_app_nonphi Old New l x r :
  isa_PHI (ikind x) = false ->
  replacePhiUsesWith Old New (l ++ x :: r) = replacePhiUsesWith Old New l ++ x :: r.
Proof.
  intros Hx. induction l as [|y l IH]; simpl.
  - rewrite Hx. reflexivity.
  - destruct (isa_PHI (ikind y)); [|reflexivity]. rewrite IH. reflexivity.
Qed.

Lemma phi_upd_baddr Old New succs x : baddr (phi_upd Old New succs x) = baddr x.
Proof. unfold phi_upd. destruct (existsb _ _); reflexivity. Qed.

Lemma phi_upd_sB Old New succs x : sB (phi_upd Old New succs x) = sB x.
Proof.
  unfold phi_upd. destruct (existsb _ _); [|reflexivity].
  unfold sB, on_insts. simpl. rewrite replacePhiUsesWith_strip. reflexivity.
Qed.

Lemma phi_upd_sF Old New succs F : sF (map (phi_upd Old New succs) F) = sF F.
Proof.
  unfold sF. rewrite map_map. apply map_ext. intros x. apply phi_upd_sB.
Qed.

Lemma phi_upd_shape Old New succs a l x r :
  isa_PHI (ikind x) = false ->
  exists l', phi_upd Old New succs (mkBlock a (l ++ x :: r)) = mkBlock a (l' ++ x :: r)
             /\ map strip l' = map strip l.
Proof.
  intros Hx. unfold phi_upd. destruct (existsb _ _).
  - exists (replacePhiUsesWith Old New l). unfold on_insts. simpl.
    rewrite (replacePhiUsesWith_app_nonphi _ _ _ _ _ Hx). split; [reflexivity|].
    apply replacePhiUsesWith_strip.
  - exists l. auto.
Qed.

Lemma phi_upd_insts Old New succs b :
  exists l', phi_upd Old New succs b = mkBlock (baddr b) l'
             /\ map strip l' = map strip (insts b).
Proof.
  unfold phi_upd. destruct (existsb _ _).
  - exists (replacePhiUsesWith Old New (insts b)). split; [reflexivity|].
    apply replacePhiUsesWith_strip.
  - exists (insts b). destruct b; auto.
Qed.

Lemma flat_map_split_here (a : addr) (h : Block -> list Block) bs1 B bs2 :
  ~ In a (block_addrs bs1) -> ~ In a (block_addrs bs2) -> baddr B = a ->
  flat_map (fun x => if baddr x =? a then h x else [x]) (bs1 ++ B :: bs2)
  = bs1 ++ h B ++ bs2.
Proof.
  intros H1 H2 E.
  assert (Hid : forall bs, ~ In a (block_addrs bs) ->
                flat_map (fun x => if baddr x =? a then h x else [x]) bs = bs).
  { induction bs as [|b bs IH]; simpl; intros H; [reflexivity|].
    destruct (Nat.eqb_spec (baddr b) a) as [E'|E'].
    - exfalso. apply H. left. exact E'.
    - simpl. f_equal. apply IH. tauto. }
  rewrite flat_map_app. simpl. rewrite E, Nat.eqb_refl, (Hid _ H1), (Hid _ H2).
  reflexivity.
Qed.

Lemma NoDup_app_inv {A} (l1 l2 : list A) :
  NoDup (l1 ++ l2) ->
  NoDup l1 /\ NoDup l2 /\ (forall x, In x l1 -> ~ In x l2).
Proof.
  induction l1 as [|x l1 IH]; simpl; intros H.
  - repeat split; auto. constructor.
  - apply NoDup_cons_iff in H. destruct H as [Hx Hl].
    destruct (IH Hl) as (H1 & H2 & H12). repeat split; auto.
    + constructor; auto. intros Hi. apply Hx. apply in_or_app. auto.
    + intros y [<-|Hy]; auto. intros Hi. apply Hx. apply in_or_app. auto.
Qed.

Section SplitStep.
Variable fresh : list addr -> addr.
Hypothesis fresh_spec : forall l, ~ In (fresh l) l.

(** The effect of [splitBasicBlock] right after a non-PHI instruction. *)
Lemma splitBasicBlock_shape F bs1 P pre ci n post bs2 t :
  F = bs1 ++ mkBlock P (pre ++ ci :: n :: post) :: bs2 ->
  NoDup (block_addrs F) -> NoDup (inst_addrs F) ->
  isa_PHI (ikind ci) = false ->
  getTerminator (n :: post) = Some t ->
  exists bs1' pre' post' bs2',
    splitBasicBlock fresh P (iaddr n) F
    = Some (fresh (block_addrs F),
            bs1' ++ mkBlock P (pre' ++ [ci; mkInst (fresh (inst_addrs F))
                                                  (Br (fresh (block_addrs F)))])
                 :: mkBlock (fresh (block_addrs F)) post' :: bs2')
    /\ sF bs1' = sF bs1 /\ map strip pre' = map strip pre
    /\ map strip post' = map strip (n :: post) /\ sF bs2' = sF bs2.
Proof.
  intros EF ND NI Hci Ht.
  assert (NDb := ND). rewrite EF, block_addrs_app in NDb. simpl in NDb.
  apply NoDup_remove_2 in NDb. rewrite in_app_iff in NDb.
  assert (NIb := NI). rewrite EF, inst_addrs_app, inst_addrs_cons in NIb. simpl in NIb.
  apply NoDup_app_inv in NIb. destruct NIb as (_ & NIb & _).
  apply NoDup_app_inv in NIb. destruct NIb as (NIb & _ & _).
  rewrite map_app in NIb. simpl in NIb.
  assert (Hn : ~ In (iaddr n) (map iaddr (pre ++ [ci]))).
  { rewrite map_app. simpl. apply NoDup_app_inv in NIb. destruct NIb as (_ & N2 & N3).
    intros Hi. apply in_app_iff in Hi. destruct Hi as [Hi|[Hi|[]]].
    - apply (N3 _ Hi). right. left. reflexivity.
    - apply NoDup_cons_iff in N2. destruct N2 as [N2 _]. apply N2. left. congruence. }
  unfold splitBasicBlock.
  pose (B := mkBlock P (pre ++ ci :: n :: post)).
  assert (Hfb : find_block P F = Some B).
  { rewrite EF. apply find_block_here; [tauto | reflexivity]. }
  rewrite Hfb. simpl insts.
  replace (pre ++ ci :: n :: post) with ((pre ++ [ci]) ++ n :: post)
    by (rewrite <- app_assoc; reflexivity).
  rewrite getTerminator_app_r by discriminate. rewrite Ht.
  rewrite (split_before_here _ _ _ _ Hn eq_refl).
  set (R := fresh (block_addrs F)). set (BI := fresh (inst_addrs F)).
  rewrite Ht.
  set (succs := successors (ikind t)).
  assert (Hfm : flat_map (fun x => if baddr x =? P
                  then [mkBlock P ((pre ++ [ci]) ++ [mkInst BI (Br R)]); mkBlock R (n :: post)]
                  else [x]) F
                = bs1 ++ [mkBlock P ((pre ++ [ci]) ++ [mkInst BI (Br R)]); mkBlock R (n :: post)]
                      ++ bs2).
  { rewrite EF.
    apply (flat_map_split_here P
             (fun _ => [mkBlock P ((pre ++ [ci]) ++ [mkInst BI (Br R)]); mkBlock R (n :: post)]));
      simpl; tauto. }
  rewrite Hfm. unfold replaceSuccessorsPhiUsesWith.
  fold (phi_upd P R succs). rewrite map_app. simpl map.
  rewrite <- app_assoc. simpl app.
  destruct (phi_upd_shape P R succs P pre ci [mkInst BI (Br R)] Hci) as (pre' & E1 & S1).
  destruct (phi_upd_insts P R succs (mkBlock R (n :: post))) as (post' & E2 & S2).
  exists (map (phi_upd P R succs) bs1), pre', post', (map (phi_upd P R succs) bs2).
  rewrite E1, E2. simpl. repeat split; auto using phi_upd_sF.
Qed.
End SplitStep.

Lemma first_non_phi_split l :
  (exists x, In x l /\ isa_PHI (ikind x) = false) ->
  exists phis pos rest,
    l = phis ++ pos :: rest
    /\ Forall (fun x => isa_PHI (ikind x) = true) phis
    /\ isa_PHI (ikind pos) = false
    /\ first_non_phi l = Some pos.
Proof.
  induction l as [|y l IH]; intros (x & Hx & Hp); [destruct Hx|].
  destruct (isa_PHI (ikind y)) eqn:Ey.
  - destruct Hx as [->|Hx]; [congruence|].
    destruct IH as (phis & pos & rest & E & Hphis & Hpos & Hf); [eauto|].
    exists (y :: phis), pos, rest. subst l. repeat split; auto.
    unfold first_non_phi in *. simpl. rewrite Ey. simpl. exact Hf.
  - exists [], y, l. repeat split; auto.
    unfold first_non_phi. simpl. rewrite Ey. reflexivity.
Qed.

Lemma NoDup_mid {A} (l1 : list A) x l2 :
  NoDup (l1 ++ x :: l2) -> ~ In x l1 /\ ~ In x l2.
Proof.
  intros H. apply NoDup_remove_2 in H. rewrite in_app_iff in H. tauto.
Qed.

Lemma in_split_inst_addrs i F :
  In i (inst_addrs F) ->
  exists bs1 P pre ci post bs2,
    F = bs1 ++ mkBlock P (pre ++ ci :: post) :: bs2 /\ iaddr ci = i.
Proof.
  intros H. apply in_inst_addrs in H. destruct H as (b & Hb & Hi).
  apply in_split in Hb. destruct Hb as (bs1 & bs2 & ->).
  apply in_map_iff in Hi. destruct Hi as (ci & E & Hi).
  apply in_split in Hi. destruct Hi as (pre & post & Hi).
  exists bs1, (baddr b), pre, ci, post, bs2. split; [|exact E].
  destruct b as [a l]. simpl in *. subst l. reflexivity.
Qed.

Lemma on_insts_mk f a l : on_insts f (mkBlock a l) = mkBlock a (f l).
Proof. reflexivity. Qed.

Ltac norm_in H :=
  repeat (progress (rewrite ?inst_addrs_app, ?inst_addrs_cons, ?block_addrs_app,
                      ?map_app, ?in_app_iff in H; simpl in H)).

Section SplitCallSite.
Variable fresh : list addr -> addr.
Hypothesis fresh_spec : forall l, ~ In (fresh l) l.

(** One iteration of the first loop, on a call [ci] followed by at least
    one instruction in a block that ends in a terminator. *)
Lemma split_call_site_shape M F bs1 P pre ci n post bs2 t :
  F = bs1 ++ mkBlock P (pre ++ ci :: n :: post) :: bs2 ->
  NoDup (block_addrs F) -> NoDup (inst_addrs F) ->
  isa_PHI (ikind ci) = false ->
  getTerminator (n :: post) = Some t ->
  exists R b bs1' pre' phis rest bs2',
    split_call_site fresh M (iaddr ci) F
    = Some ((P, R), bs1' ++ mkBlock P (pre' ++ [mkInst b (Br M)])
                         :: mkBlock R (phis ++ ci :: rest) :: bs2')
    /\ ~ In R (block_addrs F) /\ ~ In b (inst_addrs F)
    /\ sF bs1' = sF bs1 /\ map strip pre' = map strip pre
    /\ map strip (phis ++ rest) = map strip (n :: post) /\ sF bs2' = sF bs2
    /\ Forall (fun x => isa_PHI (ikind x) = true) phis
    /\ getTerminator (phis ++ ci :: rest) <> None.
Proof.
  intros EF ND NI Hci Ht.
  set (c := iaddr ci).
  (* address bookkeeping on the input *)
  assert (NDb := ND). rewrite EF, block_addrs_app in NDb. simpl in NDb.
  apply NoDup_mid in NDb. destruct NDb as [HP1 HP2].
  assert (NI' := NI). rewrite EF, inst_addrs_app, inst_addrs_cons in NI'.
  simpl in NI'. rewrite map_app in NI'. simpl in NI'.
  assert (NIc : NoDup ((inst_addrs bs1 ++ map iaddr pre)
                         ++ c :: (iaddr n :: map iaddr post) ++ inst_addrs bs2)).
  { rewrite <- !app_assoc in *. simpl in *. exact NI'. }
  destruct (NoDup_mid _ _ _ NIc) as [Hc1 Hc2].
  rewrite in_app_iff in Hc1, Hc2.
  (* the split *)
  destruct (splitBasicBlock_shape fresh F bs1 P pre ci n post bs2 t EF ND NI Hci Ht)
    as (bs1' & pre' & post' & bs2' & Hsplit & S1 & Spre & Spost & S2).
  set (R := fresh (block_addrs F)) in *. set (BI := fresh (inst_addrs F)) in *.
  assert (HR : ~ In R (block_addrs F)) by apply fresh_spec.
  assert (HBI : ~ In BI (inst_addrs F)) by apply fresh_spec.
  assert (A1 : block_addrs bs1' = block_addrs bs1) by (apply sF_eq_block_addrs, S1).
  assert (A2 : block_addrs bs2' = block_addrs bs2) by (apply sF_eq_block_addrs, S2).
  assert (I1 : inst_addrs bs1' = inst_addrs bs1) by (apply sF_eq_inst_addrs, S1).
  assert (I2 : inst_addrs bs2' = inst_addrs bs2) by (apply sF_eq_inst_addrs, S2).
  assert (Ipre : map iaddr pre' = map iaddr pre) by (apply map_strip_iaddr, Spre).
  assert (Ipost : map iaddr post' = iaddr n :: map iaddr post)
    by (apply map_strip_iaddr in Spost; exact Spost).
  assert (HRF : ~ In R (block_addrs bs1) /\ R <> P /\ ~ In R (block_addrs bs2)).
  { rewrite EF in HR. norm_in HR. intuition congruence. }
  assert (HBIF : ~ In BI (inst_addrs bs1) /\ ~ In BI (map iaddr pre) /\ BI <> c
                 /\ ~ In BI (iaddr n :: map iaddr post) /\ ~ In BI (inst_addrs bs2)).
  { rewrite EF in HBI. norm_in HBI. unfold c. simpl. intuition congruence. }
  (* the first non-PHI instruction of the new block *)
  destruct (getTerminator_inv _ _ Ht) as (lt & Elt & Htt).
  destruct (first_non_phi_split post') as (phis & pos & rest & Epost & Hphis & Hpos & Hfnp).
  { assert (Hin : In (strip t) (map strip post')).
    { rewrite Spost, Elt. apply in_map, in_or_app. right. left. reflexivity. }
    apply in_map_iff in Hin. destruct Hin as (t' & Et' & Hin). exists t'. split; [exact Hin|].
    rewrite <- strip_isa_PHI, Et', strip_isa_PHI.
    destruct t as [a []]; simpl in *; congruence. }
  assert (NIpost : NoDup (map iaddr phis ++ iaddr pos :: map iaddr rest)).
  { assert (E : map iaddr phis ++ iaddr pos :: map iaddr rest = map iaddr post')
      by (rewrite Epost, map_app; reflexivity).
    rewrite E, Ipost.
    apply NoDup_app_inv in NI'. destruct NI' as (_ & NI' & _).
    apply NoDup_app_inv in NI'. destruct NI' as (NI' & _ & _).
    apply NoDup_app_inv in NI'. destruct NI' as (_ & NI' & _).
    apply NoDup_cons_iff in NI'. tauto. }
  destruct (NoDup_mid _ _ _ NIpost) as [Hpos1 Hpos2].
  assert (Hposin : In (iaddr pos) (iaddr n :: map iaddr post)).
  { rewrite <- Ipost, Epost, map_app. apply in_or_app. right. left. reflexivity. }
  assert (HposF : ~ In (iaddr pos) (inst_addrs bs1) /\ ~ In (iaddr pos) (map iaddr pre)
                  /\ iaddr pos <> c /\ iaddr pos <> BI
                  /\ ~ In (iaddr pos) (inst_addrs bs2)).
  { repeat split.
    - intros Hi. apply NoDup_app_inv in NI'. destruct NI' as (_ & _ & D).
      apply (D _ Hi). apply in_or_app. left. apply in_or_app. right. right. exact Hposin.
    - intros Hi. apply NoDup_app_inv in NI'. destruct NI' as (_ & NI' & _).
      apply NoDup_app_inv in NI'. destruct NI' as (NI' & _ & _).
      apply NoDup_app_inv in NI'. destruct NI' as (_ & _ & D).
      apply (D _ Hi). right. exact Hposin.
    - intros Hi. apply Hc2. left. rewrite <- Hi. exact Hposin.
    - intros Hi. destruct HBIF as (_ & _ & _ & HB & _). apply HB. rewrite <- Hi. exact Hposin.
    - intros Hi. apply NoDup_app_inv in NI'. destruct NI' as (_ & NI' & _).
      apply NoDup_app_inv in NI'. destruct NI' as (_ & _ & D).
      apply (D (iaddr pos)); [|exact Hi].
      apply in_or_app. right. right. exact Hposin. }
  (* run the iteration *)
  set (F1 := bs1' ++ mkBlock P (pre' ++ [ci; mkInst BI (Br R)])
                  :: mkBlock R post' :: bs2') in *.
  set (F2 := bs1' ++ mkBlock P (pre' ++ [mkInst BI (Br R)])
                  :: mkBlock R (phis ++ ci :: pos :: rest) :: bs2').
  set (b := fresh (inst_addrs F2)).
  assert (Hb : ~ In b (inst_addrs F2)) by apply fresh_spec.
  assert (HbF : ~ In b (inst_addrs bs1) /\ ~ In b (map iaddr pre) /\ b <> BI /\ b <> c
                /\ ~ In b (map iaddr phis) /\ ~ In b (iaddr pos :: map iaddr rest)
                /\ ~ In b (inst_addrs bs2)).
  { unfold F2 in Hb. norm_in Hb. rewrite I1, I2, Ipre in Hb.
    unfold c. simpl. intuition congruence. }
  exists R, b, bs1', pre', phis, (pos :: rest), bs2'.
  assert (Hrun : split_call_site fresh M c F
                 = Some ((P, R), bs1' ++ mkBlock P (pre' ++ [mkInst b (Br M)])
                                      :: mkBlock R (phis ++ ci :: pos :: rest) :: bs2')).
  { unfold split_call_site.
    (* getParent / getNextNode *)
    assert (Hfind : find (has_inst c) F = Some (mkBlock P (pre ++ ci :: n :: post))).
    { rewrite EF. apply find_has_inst_here; [tauto|]. simpl. rewrite map_app.
      apply in_or_app. right. left. reflexivity. }
    rewrite (bind_eq _ _ F P F) by (unfold getParent; rewrite Hfind; reflexivity).
    rewrite (bind_eq _ _ F (Some (iaddr n)) F).
    2:{ unfold getNextNode. rewrite Hfind. simpl insts.
        rewrite (next_in_here c pre ci n post); [reflexivity | tauto | reflexivity]. }
    rewrite (bind_eq _ _ F (iaddr n) F) by reflexivity.
    rewrite (bind_eq _ _ F R F1) by exact Hsplit.
    (* getFirstNonPHI *)
    rewrite (bind_eq _ _ F1 (Some (iaddr pos)) F1).
    2:{ unfold getFirstNonPHI, F1.
        replace (bs1' ++ mkBlock P (pre' ++ [ci; mkInst BI (Br R)]) :: mkBlock R post' :: bs2')
          with ((bs1' ++ [mkBlock P (pre' ++ [ci; mkInst BI (Br R)])])
                  ++ mkBlock R post' :: bs2')
          by (rewrite <- app_assoc; reflexivity).
        rewrite (find_block_here R _ (mkBlock R post') bs2').
        - simpl. rewrite Hfnp. reflexivity.
        - rewrite block_addrs_app, in_app_iff, A1. simpl. intuition congruence.
        - reflexivity. }
    rewrite (bind_eq _ _ F1 (iaddr pos) F1) by reflexivity.
    (* moveBefore *)
    rewrite (bind_eq _ _ F1 tt F2).
    2:{ unfold moveBefore, find_inst, F1.
        rewrite all_insts_app. simpl. rewrite <- !app_assoc. simpl.
        rewrite app_assoc.
        rewrite (find_inst_here c (all_insts bs1' ++ pre') ci).
        2:{ rewrite map_app, in_app_iff. fold (inst_addrs bs1'). rewrite I1, Ipre. tauto. }
        2:{ reflexivity. }
        f_equal. f_equal. unfold F2.
        rewrite !map_app. simpl. rewrite !on_insts_mk.
        rewrite (map_remove_notin c bs1') by (rewrite I1; tauto).
        rewrite (map_remove_notin c bs2') by (rewrite I2; tauto).
        rewrite (map_insert_notin (iaddr pos) ci bs1') by (rewrite I1; tauto).
        rewrite (map_insert_notin (iaddr pos) ci bs2') by (rewrite I2; tauto).
        rewrite remove_inst_app.
        rewrite (remove_inst_notin c pre') by (rewrite Ipre; tauto).
        rewrite (remove_inst_here c ci [mkInst BI (Br R)]);
          [| reflexivity | simpl; intuition congruence].
        rewrite (remove_inst_notin c post') by (rewrite Ipost; tauto).
        rewrite (insert_before_notin (iaddr pos) ci (pre' ++ [mkInst BI (Br R)])).
        2:{ rewrite map_app, in_app_iff, Ipre. simpl. intuition congruence. }
        rewrite Epost.
        rewrite (insert_before_here (iaddr pos) ci phis pos rest Hpos1 eq_refl).
        reflexivity. }
    (* the branch to the call block replaces the branch made by the split *)
    set (F3 := bs1' ++ mkBlock P (pre' ++ [mkInst BI (Br R); mkInst b (Br M)])
                    :: mkBlock R (phis ++ ci :: pos :: rest) :: bs2').
    rewrite (bind_eq _ _ F2 b F3).
    2:{ unfold BranchInst_Create, create_at_end. fold b. f_equal. f_equal.
        unfold F2, F3.
        rewrite (on_block_here P _ bs1' _ _); [| rewrite A1; tauto | | reflexivity].
        - rewrite on_insts_mk, <- app_assoc. reflexivity.
        - simpl. rewrite A2. intuition congruence. }
    rewrite (bind_eq _ _ F3 (Some BI) F3).
    2:{ unfold getPrevNode, F3.
        rewrite (find_has_inst_here b bs1' _ _).
        - simpl insts.
          rewrite (prev_in_here b None pre' (mkInst BI (Br R)) (mkInst b (Br M)) []);
            [reflexivity | rewrite Ipre; tauto | simpl; intuition congruence | reflexivity].
        - rewrite I1. tauto.
        - simpl. rewrite map_app. apply in_or_app. right. right. left. reflexivity. }
    rewrite (bind_eq _ _ F3 BI F3) by reflexivity.
    rewrite (bind_eq _ _ F3 tt
               (bs1' ++ mkBlock P (pre' ++ [mkInst b (Br M)])
                     :: mkBlock R (phis ++ ci :: pos :: rest) :: bs2')).
    2:{ unfold eraseFromParent, modify, F3. f_equal. f_equal.
        rewrite map_app. simpl. rewrite !on_insts_mk.
        rewrite (map_remove_notin BI bs1') by (rewrite I1; tauto).
        rewrite (map_remove_notin BI bs2') by (rewrite I2; tauto).
        rewrite remove_inst_app.
        rewrite (remove_inst_notin BI pre') by (rewrite Ipre; tauto).
        rewrite (remove_inst_here BI (mkInst BI (Br R)) [mkInst b (Br M)]);
          [| reflexivity | simpl; intuition congruence].
        rewrite (remove_inst_notin BI (phis ++ ci :: pos :: rest)); [reflexivity|].
        assert (E : map iaddr (phis ++ ci :: pos :: rest)
                    = map iaddr phis ++ c :: iaddr pos :: map iaddr rest)
          by (rewrite map_app; reflexivity).
        rewrite E. intros Hi. apply in_app_iff in Hi.
        assert (Hsub : forall z, In z (map iaddr phis ++ iaddr pos :: map iaddr rest) ->
                                 In z (iaddr n :: map iaddr post)).
        { intros z Hz. rewrite <- Ipost, Epost, map_app. exact Hz. }
        destruct HBIF as (_ & _ & HB1 & HB2 & _).
        destruct Hi as [Hi|[Hi|Hi]].
        - apply HB2, Hsub, in_or_app. left. exact Hi.
        - congruence.
        - apply HB2, Hsub, in_or_app. right. exact Hi. }
    reflexivity. }
  split; [exact Hrun|].
  repeat split; auto.
  - rewrite EF. intros Hi. norm_in Hi.
    assert (Hsub : forall z, In z (iaddr n :: map iaddr post) ->
                             In z (map iaddr phis ++ iaddr pos :: map iaddr rest)).
    { intros z Hz. rewrite <- Ipost, Epost, map_app in Hz. exact Hz. }
    assert (Hbp : ~ In b (iaddr n :: map iaddr post)).
    { intros Hz. apply Hsub in Hz. apply in_app_iff in Hz. tauto. }
    simpl in Hbp. unfold c in *. intuition congruence.
  - rewrite <- Spost, Epost. reflexivity.
  - rewrite getTerminator_app_r by discriminate.
    change (ci :: pos :: rest) with ([ci] ++ pos :: rest).
    rewrite getTerminator_app_r by discriminate.
    rewrite <- (getTerminator_app_r phis (pos :: rest)) by discriminate.
    rewrite <- Epost. intros Hn.
    assert (E := getTerminator_strip post'). rewrite Hn, Spost in E.
    rewrite getTerminator_strip, Ht in E. discriminate.
Qed.
End SplitCallSite.

Lemma sF_cons b F : sF (b :: F) = sB b :: sF F.
Proof. reflexivity. Qed.

Lemma sB_mk a l : sB (mkBlock a l) = mkBlock a (map strip l).
Proof. reflexivity. Qed.

Section SplitSim.
Variable fresh : list addr -> addr.
Hypothesis fresh_spec : forall l, ~ In (fresh l) l.

Lemma split_call_site_sim M F ci :
  NoDup (block_addrs F) -> NoDup (inst_addrs F) ->
  In ci (all_insts F) ->
  isa_PHI (ikind ci) = false -> isTerminator (ikind ci) = false ->
  (forall b, In b F -> In ci (insts b) -> has_terminator b) ->
  exists PR F',
    split_call_site fresh M (iaddr ci) F = Some (PR, F')
    /\ split_rel M ci (sF F) PR (sF F').
Proof.
  intros ND NI Hin Hphi Hterm HT.
  apply in_flat_map in Hin. destruct Hin as (blk & Hb & Hci).
  specialize (HT blk Hb Hci).
  apply in_split in Hb. destruct Hb as (bs1 & bs2 & EF).
  apply in_split in Hci. destruct Hci as (pre & post0 & Eb).
  destruct blk as [P l]. simpl in Eb. subst l.
  unfold has_terminator in HT. simpl in HT.
  destruct (getTerminator (pre ++ ci :: post0)) as [t|] eqn:Ht; [clear HT|congruence].
  destruct post0 as [|n post].
  { rewrite getTerminator_app, Hterm in Ht. discriminate. }
  replace (pre ++ ci :: n :: post) with ((pre ++ [ci]) ++ n :: post) in Ht
    by (rewrite <- app_assoc; reflexivity).
  rewrite getTerminator_app_r in Ht by discriminate.
  destruct (split_call_site_shape fresh fresh_spec M F bs1 P pre ci n post bs2 t
              EF ND NI Hphi Ht)
    as (R & b & bs1' & pre' & phis & rest & bs2' & Hrun & HR & Hb & S1 & Spre & Spost
        & S2 & Hphis & HtR).
  exists (P, R). eexists. split; [exact Hrun|].
  rewrite EF. rewrite !sF_app, !sF_cons, !sB_mk, S1, S2.
  rewrite !map_app. simpl map. rewrite Spre, (strip_nonphi ci Hphi).
  change (strip n :: map strip post) with (map strip (n :: post)).
  rewrite <- Spost, map_app.
  apply split_rel_intro.
  - clear -Hphis. induction Hphis; simpl; constructor; auto.
    rewrite strip_isa_PHI. assumption.
  - rewrite <- map_app, Spost. intros Hi. apply HR. rewrite EF.
    rewrite <- sF_block_addrs, sF_app, sF_cons, sB_mk, map_app.
    simpl map. rewrite (strip_nonphi ci Hphi). exact Hi.
  - rewrite <- map_app, Spost. intros Hi. apply Hb. rewrite EF.
    rewrite <- sF_inst_addrs, sF_app, sF_cons, sB_mk, map_app.
    simpl map. rewrite (strip_nonphi ci Hphi). exact Hi.
  - intros Hn. apply HtR.
    assert (E := getTerminator_strip (phis ++ ci :: rest)).
    rewrite map_app in E. simpl map in E. rewrite (strip_nonphi ci Hphi), Hn in E.
    destruct (getTerminator (phis ++ ci :: rest)); [discriminate|reflexivity].
Qed.
End SplitSim.

(** ** The invariant of the first loop *)

Lemma NoDup_insert_after {A} (l1 : list A) x y l2 :
  NoDup (l1 ++ x :: l2) -> ~ In y (l1 ++ x :: l2) -> NoDup (l1 ++ x :: y :: l2).
Proof.
  intros H Hy.
  apply (Permutation_NoDup (l := y :: l1 ++ x :: l2)); [|constructor; assumption].
  replace (l1 ++ x :: y :: l2) with ((l1 ++ [x]) ++ y :: l2)
    by (rewrite <- app_assoc; reflexivity).
  replace (l1 ++ x :: l2) with ((l1 ++ [x]) ++ l2)
    by (rewrite <- app_assoc; reflexivity).
  apply Permutation_middle.
Qed.

Lemma perm_split_step {A} (b c : A) a p q1 q2 d :
  Permutation (b :: a ++ (p ++ c :: q1 ++ q2) ++ d)
              (a ++ (p ++ [b]) ++ (q1 ++ c :: q2) ++ d).
Proof.
  rewrite <- !app_assoc. simpl.
  etransitivity; [apply Permutation_middle|].
  apply Permutation_app_head.
  etransitivity; [apply Permutation_middle|].
  apply Permutation_app_head. apply perm_skip.
  rewrite <- !app_assoc. simpl.
  apply Permutation_middle.
Qed.

Lemma filter_isCall_phis q :
  Forall (fun x => isa_PHI (ikind x) = true) q -> filter isCall q = [].
Proof.
  induction 1 as [|x q Hx _ IH]; simpl; [reflexivity|].
  unfold isCall at 1. destruct x as [a []]; simpl in *; try discriminate. exact IH.
Qed.

Lemma NoDup_map_filter {A B} (f : A -> B) (g : A -> bool) l :
  NoDup (map f l) -> NoDup (map f (filter g l)).
Proof.
  induction l as [|x l IH]; simpl; intros H; [constructor|].
  apply NoDup_cons_iff in H. destruct H as [Hx Hl].
  destruct (g x); simpl; auto. constructor; auto.
  intros Hi. apply Hx. apply in_map_iff in Hi. destruct Hi as (y & E & Hy).
  apply filter_In in Hy. apply in_map_iff. exists y. tauto.
Qed.

Lemma NoDup_split_unique {A} (l1 l2 l1' l2' : list A) x :
  NoDup (l1 ++ x :: l2) -> l1 ++ x :: l2 = l1' ++ x :: l2' -> l1 = l1' /\ l2 = l2'.
Proof.
  revert l1'. induction l1 as [|y l1 IH]; intros l1' ND E.
  - destruct l1' as [|y' l1']; simpl in *.
    + inv E. auto.
    + inv E. apply NoDup_cons_iff in ND. exfalso. apply (proj1 ND).
      apply in_or_app. right. left. reflexivity.
  - destruct l1' as [|y' l1']; simpl in *.
    + inv E. apply NoDup_cons_iff in ND. exfalso. apply (proj1 ND).
      apply in_or_app. right. left. reflexivity.
    + inv E. apply NoDup_cons_iff in ND. destruct (IH l1' (proj2 ND) H1) as [-> ->]. auto.
Qed.

Lemma block_eq_of_addr G b1 b2 :
  NoDup (block_addrs G) -> In b1 G -> In b2 G -> baddr b1 = baddr b2 -> b1 = b2.
Proof.
  induction G as [|b G IH]; simpl; intros ND H1 H2 E; [contradiction|].
  apply NoDup_cons_iff in ND. destruct ND as [Hb ND].
  destruct H1 as [->|H1], H2 as [->|H2]; auto.
  - exfalso. apply Hb. rewrite E. apply in_map, H2.
  - exfalso. apply Hb. rewrite <- E. apply in_map, H1.
Qed.

Lemma is_call_site_isCall T x : is_call_site T x = true -> isCall x = true.
Proof.
  unfold is_call_site, isCall. intros H.
  apply andb_true_iff in H. destruct H as [H _].
  apply andb_true_iff in H. tauto.
Qed.

Lemma filter_filter_sub {A} (f g : A -> bool) l :
  (forall x, f x = true -> g x = true) -> filter f (filter g l) = filter f l.
Proof.
  intros H. induction l as [|x l IH]; simpl; [reflexivity|].
  destruct (g x) eqn:Eg; simpl.
  - destruct (f x); rewrite IH; reflexivity.
  - destruct (f x) eqn:Ef; [|exact IH]. rewrite (H x Ef) in Eg. discriminate.
Qed.

Lemma collectCallSites_filter T F :
  collectCallSites T F = map iaddr (filter (is_call_site T) (all_insts F)).
Proof.
  unfold collectCallSites, all_insts.
  induction F as [|b F IH]; simpl; [reflexivity|].
  rewrite filter_app, map_app, IH. f_equal.
  induction (insts b) as [|x l IHl]; simpl; [reflexivity|].
  destruct (is_call_site T x); simpl; rewrite IHl; reflexivity.
Qed.

Lemma loop_inv_step T M closed calls0 lg c todo G ci PR G' :
  loop_inv T M closed calls0 lg (c :: todo) G ->
  iaddr ci = c -> is_call_site T ci = true ->
  split_rel M ci G PR G' ->
  loop_inv T M closed calls0 (lg ++ [(c, PR)]) todo G'.
Proof.
  intros [NB NI HM HT HC HS HO HN HP HR] Ec Hsite Hrel.
  destruct Hrel as [A P p q1 q2 B R b Hq1 HRf Hbf HtR].
  set (blkP := mkBlock P (p ++ ci :: q1 ++ q2)) in *.
  assert (HciC : isCall ci = true) by (apply (is_call_site_isCall T), Hsite).
  (* the block being split is not an origin block yet *)
  assert (HPnew : ~ In P (map origin_of lg)).
  { intros Hi. apply in_map_iff in Hi. destruct Hi as (e & Ee & He).
    destruct (HO e He) as (l & b0 & Hblk & Hfree).
    assert (E : mkBlock (origin_of e) (l ++ [mkInst b0 (Br M)]) = blkP).
    { apply (block_eq_of_addr (A ++ blkP :: B)); auto.
      - apply in_or_app. right. left. reflexivity. }
    apply (Hfree c); [left; reflexivity|].
    unfold blkP in E. inv E. rewrite H1, map_app. apply in_or_app. right. left. reflexivity. }
  (* the call sites still to do all come after the call *)
  assert (Htodo : forall t, In t todo ->
                            In t (map iaddr (q1 ++ q2) ++ inst_addrs B)
                            /\ ~ In t (map iaddr p)).
  { assert (E : map iaddr (filter (is_call_site T) calls0)
                = map iaddr (filter (is_call_site T) (all_insts A ++ p))
                    ++ c :: map iaddr (filter (is_call_site T) ((q1 ++ q2) ++ all_insts B))).
    { rewrite <- HC, filter_filter_sub by apply is_call_site_isCall.
      rewrite all_insts_app. unfold all_insts at 2. simpl. fold (all_insts B).
      unfold blkP. simpl.
      rewrite <- !app_assoc. simpl.
      rewrite !filter_app. simpl. rewrite Hsite. rewrite !map_app. simpl.
      rewrite !filter_app, !map_app, Ec, <- !app_assoc. reflexivity. }
    assert (NDs : NoDup (map iaddr (filter (is_call_site T) calls0))).
    { rewrite <- HC, filter_filter_sub by apply is_call_site_isCall.
      apply NoDup_map_filter. exact NI. }
    rewrite HS in E. rewrite HS in NDs.
    destruct (NoDup_split_unique _ _ _ _ _ NDs E) as [_ E2].
    intros t Ht. rewrite E2 in Ht. apply in_map_iff in Ht.
    destruct Ht as (x & Ex & Hx). apply filter_In in Hx. destruct Hx as [Hx _].
    assert (Hin : In t (map iaddr (q1 ++ q2) ++ inst_addrs B)).
    { unfold inst_addrs. rewrite <- map_app, <- Ex. apply in_map. exact Hx. }
    split; [exact Hin|].
    intros Hp. unfold inst_addrs in NI. rewrite all_insts_app in NI.
    unfold all_insts at 2 in NI. simpl in NI. fold (all_insts B) in NI.
    rewrite !map_app in NI. simpl in NI.
    apply NoDup_app_inv in NI. destruct NI as (_ & NI & _).
    rewrite <- app_assoc in NI.
    apply NoDup_app_inv in NI. destruct NI as (_ & _ & D).
    apply (D t Hp). simpl. right. exact Hin. }
  assert (HinG : forall x, In x (A ++ blkP :: B) <-> In x A \/ x = blkP \/ In x B).
  { intros x. rewrite in_app_iff. simpl. intuition congruence. }
  assert (HinG' : forall x,
             In x (A ++ mkBlock P (p ++ [mkInst b (Br M)]) :: mkBlock R (q1 ++ ci :: q2) :: B)
             <-> In x A \/ x = mkBlock P (p ++ [mkInst b (Br M)])
                 \/ x = mkBlock R (q1 ++ ci :: q2) \/ In x B).
  { intros x. rewrite in_app_iff. simpl. intuition congruence. }
  constructor.
  - (* block addresses *)
    rewrite block_addrs_app. simpl.
    rewrite block_addrs_app in NB, HRf. simpl in NB, HRf.
    apply NoDup_insert_after; assumption.
  - (* instruction addresses *)
    apply (Permutation_NoDup (l := b :: inst_addrs (A ++ blkP :: B)));
      [|constructor; assumption].
    rewrite !inst_addrs_app, !inst_addrs_cons. simpl.
    rewrite !map_app. simpl. rewrite !map_app. simpl.
    apply perm_split_step.
  - (* the call block stays empty *)
    apply HinG'. apply HinG in HM. destruct HM as [HM|[HM|HM]]; auto.
    unfold blkP in HM. inv HM. destruct p; discriminate.
  - (* terminators *)
    intros x Hx Hne. apply HinG' in Hx. destruct Hx as [Hx|[->|[->|Hx]]].
    + apply HT; auto. apply HinG. auto.
    + unfold has_terminator. simpl. rewrite getTerminator_app. simpl. discriminate.
    + exact HtR.
    + apply HT; auto. apply HinG. auto.
  - (* the call instructions *)
    rewrite <- HC. rewrite !all_insts_app. unfold all_insts at 2 4. simpl.
    fold (all_insts B). rewrite !filter_app. simpl. rewrite HciC.
    rewrite !filter_app, (filter_isCall_phis q1 Hq1). simpl.
    rewrite app_nil_r, <- !app_assoc. reflexivity.
  - (* the call sites *)
    rewrite map_app. simpl. rewrite <- app_assoc. exact HS.
  - (* origin blocks *)
    intros e He. apply in_app_iff in He. destruct He as [He|[<-|[]]].
    + destruct (HO e He) as (l & b0 & Hblk & Hfree).
      exists l, b0. split.
      * apply HinG'. apply HinG in Hblk. destruct Hblk as [Hblk|[Hblk|Hblk]]; auto.
        exfalso. apply (Hfree c); [left; reflexivity|].
        unfold blkP in Hblk. inv Hblk. rewrite H1, map_app.
        apply in_or_app. right. left. reflexivity.
      * intros t Ht. apply Hfree. right. exact Ht.
    + exists p, b. split.
      * apply HinG'. right. left. reflexivity.
      * intros t Ht Hi. destruct (Htodo t Ht) as [Hin Hnp].
        rewrite map_app in Hi. apply in_app_iff in Hi. destruct Hi as [Hi|[Hi|[]]]; auto.
        simpl in Hi. subst t. apply Hbf.
        rewrite inst_addrs_app, inst_addrs_cons. apply in_or_app. right.
        unfold blkP. simpl. rewrite map_app. simpl.
        rewrite <- app_assoc. apply in_or_app. right. simpl. right. exact Hin.
  - (* origins are pairwise distinct *)
    rewrite map_app. simpl.
    apply (Permutation_NoDup (l := P :: map origin_of lg)).
    + apply Permutation_cons_append.
    + constructor; assumption.
  - (* predecessors of the call block *)
    intros Hcl x y Hx Hy Hs. rewrite map_app. simpl. apply in_or_app.
    apply HinG' in Hx. destruct Hx as [Hx|[->|[->|Hx]]].
    + left. apply (HP Hcl x y); auto. apply HinG. auto.
    + right. left. reflexivity.
    + exfalso. apply HPnew. apply (HP Hcl blkP y); auto.
      * apply HinG. auto.
      * unfold blkP. simpl in *. rewrite !in_app_iff in *. simpl in *.
        rewrite in_app_iff. tauto.
    + left. apply (HP Hcl x y); auto. apply HinG. auto.
  - (* resume blocks *)
    intros e He. apply in_app_iff in He. destruct He as [He|[<-|[]]]; auto.
    unfold resume_of. simpl. intros ->. apply HRf.
    change M with (baddr (mkBlock M [])). apply in_map. exact HM.
Qed.

Lemma has_terminator_sB b : has_terminator (sB b) <-> has_terminator b.
Proof.
  unfold has_terminator. simpl. rewrite getTerminator_strip.
  destruct (getTerminator (insts b)); simpl; split; congruence.
Qed.

Lemma in_all_insts_sF x F :
  In x (all_insts (sF F)) -> isa_PHI (ikind x) = false -> In x (all_insts F).
Proof.
  rewrite sF_all_insts. intros H Hx. apply in_map_iff in H.
  destruct H as (y & E & Hy).
  assert (Hy' : isa_PHI (ikind y) = false) by (rewrite <- strip_isa_PHI, E; exact Hx).
  rewrite (strip_nonphi y Hy') in E. subst y. exact Hy.
Qed.

Lemma isCall_nonphi x : isCall x = true -> isa_PHI (ikind x) = false.
Proof. unfold isCall. destruct x as [a []]; simpl; congruence. Qed.

Lemma isCall_nonterm x : isCall x = true -> isTerminator (ikind x) = false.
Proof. unfold isCall. destruct x as [a []]; simpl; congruence. Qed.

Section FirstLoop.
Variable fresh : list addr -> addr.
Hypothesis fresh_spec : forall l, ~ In (fresh l) l.

Lemma split_call_sites_pairs M cs : forall ret orig F,
  split_call_sites fresh M cs ret orig F
  = match split_pairs fresh M cs F with
    | Some (lg, F') => Some ((ret_map lg ret, orig_map lg orig), F')
    | None => None
    end.
Proof.
  induction cs as [|c cs IH]; intros ret orig F; simpl; [reflexivity|].
  unfold bind at 1 2. destruct (split_call_site fresh M c F) as [[[P R] F1]|]; [|reflexivity].
  rewrite IH. simpl. unfold bind.
  destruct (split_pairs fresh M cs F1) as [[lg F2]|]; reflexivity.
Qed.

Lemma split_pairs_total T M closed calls0 todo : forall lg F,
  loop_inv T M closed calls0 lg todo (sF F) ->
  exists lg' F',
    split_pairs fresh M todo F = Some (lg', F')
    /\ map fst lg' = todo
    /\ loop_inv T M closed calls0 (lg ++ lg') [] (sF F').
Proof.
  induction todo as [|c todo IH]; intros lg F Inv.
  - exists [], F. rewrite app_nil_r. auto.
  - assert (Hc : In c (map iaddr (filter (is_call_site T) calls0))).
    { rewrite (li_sites _ _ _ _ _ _ _ Inv). apply in_or_app. right. left. reflexivity. }
    apply in_map_iff in Hc. destruct Hc as (ci & Ec & Hci).
    apply filter_In in Hci. destruct Hci as [Hci Hsite].
    rewrite <- (li_calls _ _ _ _ _ _ _ Inv) in Hci.
    apply filter_In in Hci. destruct Hci as [Hci HciC].
    apply in_all_insts_sF in Hci; [|apply isCall_nonphi, HciC].
    destruct (split_call_site_sim fresh fresh_spec M F ci) as (PR & F1 & Hrun & Hrel).
    + rewrite <- sF_block_addrs. apply (li_blocks _ _ _ _ _ _ _ Inv).
    + rewrite <- sF_inst_addrs. apply (li_insts _ _ _ _ _ _ _ Inv).
    + exact Hci.
    + apply isCall_nonphi, HciC.
    + apply isCall_nonterm, HciC.
    + intros b Hb Hin. apply has_terminator_sB.
      apply (li_term _ _ _ _ _ _ _ Inv); [apply in_map, Hb|].
      intros EM.
      assert (E : sB b = mkBlock M []).
      { apply (block_eq_of_addr (sF F)); auto.
        - apply (li_blocks _ _ _ _ _ _ _ Inv).
        - apply in_map, Hb.
        - apply (li_M _ _ _ _ _ _ _ Inv). }
      apply (f_equal insts) in E. simpl in E.
      destruct (insts b); [destruct Hin | discriminate].
    + assert (Inv1 := loop_inv_step _ _ _ _ _ _ _ _ _ _ _ Inv Ec Hsite Hrel).
      destruct (IH _ _ Inv1) as (lg' & F' & Hrun' & Hfst & Inv').
      exists ((c, PR) :: lg'), F'. split; [|split].
      * simpl. rewrite Ec in Hrun. rewrite (bind_eq _ _ _ _ _ Hrun).
        rewrite (bind_eq _ _ _ _ _ Hrun'). reflexivity.
      * simpl. rewrite Hfst. reflexivity.
      * rewrite <- app_assoc in Inv'. exact Inv'.
Qed.
End FirstLoop.

(** ** The second loop: uses renamed, merged calls erased *)

Lemma map_operands_comp f g k :
  map_operands f (map_operands g k) = map_operands (fun v => f (g v)) k.
Proof.
  destruct k; simpl; rewrite ?map_map; reflexivity.
Qed.

Lemma map_operands_ext f g k :
  (forall v, f v = g v) -> map_operands f k = map_operands g k.
Proof.
  intros H. destruct k; simpl; rewrite ?H; try reflexivity.
  - rewrite (map_ext _ _ H). reflexivity.
  - rewrite (map_ext _ (fun vb => (g (fst vb), snd vb))); [reflexivity|].
    intros vb. rewrite H. reflexivity.
  - rewrite (map_ext _ _ H). reflexivity.
  - rewrite (map_ext _ _ H). reflexivity.
Qed.

Lemma rename_subst c cs u v :
  rename_value cs u (subst_value c u v) = rename_value (c :: cs) u v.
Proof.
  destruct v as [i| | | | |]; simpl; try reflexivity.
  destruct (Nat.eqb_spec i c) as [E|E]; simpl.
  - destruct (existsb (Nat.eqb u) cs); reflexivity.
  - reflexivity.
Qed.

Lemma rw_cons c cs u l :
  rw cs u (remove_inst c (map (fun x => mkInst (iaddr x) (subst_kind c u (ikind x))) l))
  = rw (c :: cs) u l.
Proof.
  unfold rw, remove_inst. induction l as [|x l IH]; simpl; [reflexivity|].
  destruct (Nat.eqb_spec (iaddr x) c) as [E|E]; simpl.
  - exact IH.
  - destruct (existsb (Nat.eqb (iaddr x)) cs); simpl; [exact IH|].
    rewrite IH. f_equal. unfold rename_inst, subst_kind. simpl.
    rewrite map_operands_comp. f_equal. apply map_operands_ext.
    intros v. apply rename_subst.
Qed.

Lemma rename_value_nil u v : rename_value [] u v = v.
Proof. destruct v; reflexivity. Qed.

Lemma map_operands_id k : map_operands (fun v => v) k = k.
Proof.
  destruct k; simpl; rewrite ?map_id; try reflexivity.
  f_equal. apply map_id_on. intros [v b] _. reflexivity.
Qed.

Lemma rw_nil u l : rw [] u l = l.
Proof.
  unfold rw. simpl.
  rewrite (forallb_filter_id _ l).
  - apply map_id_on. intros [a k] _. unfold rename_inst. simpl. f_equal.
    rewrite (map_operands_ext _ (fun v => v)) by apply rename_value_nil.
    apply map_operands_id.
  - apply forallb_forall. reflexivity.
Qed.

Lemma second_loop_spec u cs : forall F,
  for_each cs (fun C => replaceAllUsesWith C u ;;; eraseFromParent C) F
  = Some (tt, map (on_insts (rw cs u)) F).
Proof.
  induction cs as [|c cs IH]; intros F; simpl.
  - unfold ret. f_equal. f_equal. symmetry. apply map_id_on.
    intros [a l] _. unfold on_insts. simpl. rewrite rw_nil. reflexivity.
  - unfold bind at 1 2. unfold replaceAllUsesWith, eraseFromParent, modify.
    rewrite IH. f_equal. f_equal. unfold map_inst. rewrite !map_map.
    apply map_ext. intros [a l]. unfold on_insts. simpl. rewrite rw_cons. reflexivity.
Qed.

(** ** The function around the call block *)

Lemma inst_addrs_plug G1 M l G2 :
  inst_addrs (plug G1 M l G2) = inst_addrs G1 ++ map iaddr l ++ inst_addrs G2.
Proof. unfold plug. rewrite inst_addrs_app, inst_addrs_cons. reflexivity. Qed.

Lemma block_addrs_plug G1 M l G2 :
  block_addrs (plug G1 M l G2) = block_addrs G1 ++ M :: block_addrs G2.
Proof. unfold plug. rewrite block_addrs_app. reflexivity. Qed.

Lemma all_insts_plug G1 M l G2 :
  all_insts (plug G1 M l G2) = all_insts G1 ++ l ++ all_insts G2.
Proof. unfold plug. rewrite all_insts_app. reflexivity. Qed.

Lemma NoDup_plug_snoc G1 M l G2 a k :
  NoDup (inst_addrs (plug G1 M l G2)) -> ~ In a (inst_addrs (plug G1 M l G2)) ->
  NoDup (inst_addrs (plug G1 M (l ++ [mkInst a k]) G2)).
Proof.
  rewrite !inst_addrs_plug, map_app. simpl. intros ND Ha.
  apply (Permutation_NoDup (l := a :: inst_addrs G1 ++ map iaddr l ++ inst_addrs G2));
    [|constructor; assumption].
  rewrite <- app_assoc. simpl.
  rewrite (app_assoc (inst_addrs G1)), (app_assoc (inst_addrs G1) _ (a :: _)).
  apply Permutation_middle.
Qed.

Lemma update_list_notin i f l :
  ~ In i (map iaddr l) ->
  map (fun x => if iaddr x =? i then mkInst (iaddr x) (f (ikind x)) else x) l = l.
Proof.
  intros H. apply map_id_on. intros x Hx.
  destruct (Nat.eqb_spec (iaddr x) i) as [E|E]; [|reflexivity].
  exfalso. apply H. rewrite <- E. apply in_map, Hx.
Qed.

Lemma update_inst_notin i f G : ~ In i (inst_addrs G) -> update_inst i f G = G.
Proof.
  intros H. unfold update_inst, map_inst. apply map_id_on. intros [a l] Hb.
  unfold on_insts. simpl. f_equal. apply update_list_notin.
  intros Hi. apply H, in_inst_addrs. exists (mkBlock a l). auto.
Qed.

Lemma update_inst_plug i f G1 M l1 k l2 G2 :
  NoDup (inst_addrs (plug G1 M (l1 ++ mkInst i k :: l2) G2)) ->
  update_inst i f (plug G1 M (l1 ++ mkInst i k :: l2) G2)
  = plug G1 M (l1 ++ mkInst i (f k) :: l2) G2.
Proof.
  intros ND. rewrite inst_addrs_plug, map_app in ND. simpl in ND.
  assert (H1 : ~ In i (inst_addrs G1) /\ ~ In i (map iaddr l1)
               /\ ~ In i (map iaddr l2) /\ ~ In i (inst_addrs G2)).
  { rewrite <- app_assoc in ND. simpl in ND.
    rewrite app_assoc in ND. apply NoDup_mid in ND.
    rewrite !in_app_iff in ND. tauto. }
  destruct H1 as (A1 & A2 & A3 & A4).
  unfold plug. unfold update_inst, map_inst. rewrite map_app. simpl.
  fold (map_inst (fun x => if iaddr x =? i then mkInst (iaddr x) (f (ikind x)) else x) G1).
  fold (map_inst (fun x => if iaddr x =? i then mkInst (iaddr x) (f (ikind x)) else x) G2).
  fold (update_inst i f G1). fold (update_inst i f G2).
  rewrite (update_inst_notin i f G1 A1), (update_inst_notin i f G2 A4).
  rewrite on_insts_mk, map_app. simpl. rewrite Nat.eqb_refl.
  rewrite (update_list_notin i f l1 A2), (update_list_notin i f l2 A3). reflexivity.
Qed.

Lemma find_app_skip {A} (p : A -> bool) l1 l l2 :
  (forall x, In x l -> p x = false) -> find p (l1 ++ l ++ l2) = find p (l1 ++ l2).
Proof.
  intros H. induction l1 as [|y l1 IH]; simpl.
  - induction l as [|x l IHl]; simpl; [reflexivity|].
    rewrite (H x) by (left; reflexivity). apply IHl. intros z Hz. apply H. right. exact Hz.
  - destruct (p y); [reflexivity|exact IH].
Qed.

Lemma args_of_plug c G1 M l G2 :
  ~ In c (map iaddr l) -> args_of c (plug G1 M l G2) = args_of c (plug G1 M [] G2).
Proof.
  intros H. unfold args_of, find_inst. rewrite !all_insts_plug. simpl.
  rewrite find_app_skip; [reflexivity|].
  intros x Hx. apply Nat.eqb_neq. intros E. apply H. rewrite <- E. apply in_map, Hx.
Qed.

Lemma getArgOperand_args_of c i F :
  i < length (args_of c F) ->
  getArgOperand c i F = Some (nth i (args_of c F) (VOther 0), F).
Proof.
  unfold getArgOperand, args_of.
  destruct (find_inst c F) as [[a []]|]; simpl; try lia.
  intros H. rewrite (nth_error_nth' args (VOther 0) H). reflexivity.
Qed.

Section ArgPhis.
Variable fresh : list addr -> addr.
Hypothesis fresh_spec : forall l, ~ In (fresh l) l.

Lemma create_at_end_plug k G1 M l G2 :
  NoDup (block_addrs (plug G1 M l G2)) ->
  create_at_end fresh k M (plug G1 M l G2)
  = Some (fresh (inst_addrs (plug G1 M l G2)),
          plug G1 M (l ++ [mkInst (fresh (inst_addrs (plug G1 M l G2))) k]) G2).
Proof.
  intros ND. rewrite block_addrs_plug in ND. apply NoDup_mid in ND.
  unfold create_at_end. f_equal. f_equal. unfold plug.
  apply on_block_here; tauto.
Qed.

Lemma arg_loop_spec G1 M cur a ty G2 orig i : forall cs inc,
  NoDup (inst_addrs (plug G1 M (cur ++ [mkInst a (PHI ty inc)]) G2)) ->
  (forall c, In c cs ->
             ~ In c (map iaddr cur) /\ c <> a
             /\ i < length (args_of c (plug G1 M [] G2))
             /\ AddrMap.get c orig <> None) ->
  for_each cs (fun C =>
    v <- getArgOperand C i ;;
    P <- deref (AddrMap.get C orig) ;;
    addIncoming a v P) (plug G1 M (cur ++ [mkInst a (PHI ty inc)]) G2)
  = Some (tt, plug G1 M (cur ++ [mkInst a (PHI ty
                  (inc ++ phi_incoming (plug G1 M [] G2) orig i cs))]) G2).
Proof.
  induction cs as [|c cs IH]; intros inc ND H; simpl.
  - rewrite app_nil_r. reflexivity.
  - destruct (H c (or_introl eq_refl)) as (Hc1 & Hc2 & Hc3 & Hc4).
    assert (Ea : args_of c (plug G1 M (cur ++ [mkInst a (PHI ty inc)]) G2)
                 = args_of c (plug G1 M [] G2)).
    { apply args_of_plug. rewrite map_app, in_app_iff. simpl. intuition congruence. }
    unfold bind at 1 2.
    rewrite getArgOperand_args_of by (rewrite Ea; exact Hc3).
    rewrite Ea. destruct (AddrMap.get c orig) as [P|] eqn:EP; [|congruence].
    simpl. unfold bind at 1. unfold addIncoming, modify.
    rewrite update_inst_plug by exact ND.
    rewrite IH.
    + rewrite <- app_assoc. reflexivity.
    + rewrite inst_addrs_plug, map_app in *. exact ND.
    + intros c' Hc'. apply H. right. exact Hc'.
Qed.

Lemma build_arg_phis_spec G1 M G2 orig cs : forall params argCtr cur,
  NoDup (block_addrs (plug G1 M cur G2)) ->
  NoDup (inst_addrs (plug G1 M cur G2)) ->
  (forall c, In c cs ->
             In c (inst_addrs (G1 ++ G2))
             /\ argCtr + length params <= length (args_of c (plug G1 M [] G2))
             /\ AddrMap.get c orig <> None) ->
  exists phis,
    build_arg_phis fresh M cs orig params argCtr (plug G1 M cur G2)
    = Some (map (fun p => VInst (iaddr p)) phis, plug G1 M (cur ++ phis) G2)
    /\ map ikind phis = arg_phi_kinds (plug G1 M [] G2) orig cs params argCtr
    /\ NoDup (inst_addrs (plug G1 M (cur ++ phis) G2)).
Proof.
  induction params as [|ty ps IH]; intros argCtr cur NB NI H.
  - exists []. rewrite app_nil_r. simpl. auto.
  - simpl.
    set (a := fresh (inst_addrs (plug G1 M cur G2))).
    assert (Ha : ~ In a (inst_addrs (plug G1 M cur G2))) by apply fresh_spec.
    assert (NI1 : NoDup (inst_addrs (plug G1 M (cur ++ [mkInst a (PHI ty [])]) G2)))
      by (apply NoDup_plug_snoc; assumption).
    assert (Hloop := arg_loop_spec G1 M cur a ty G2 orig argCtr cs [] NI1).
    simpl in Hloop.
    destruct (IH (S argCtr)
                 (cur ++ [mkInst a (PHI ty (phi_incoming (plug G1 M [] G2) orig argCtr cs))]))
      as (phis & Hrun & Hk & NI2).
    + rewrite block_addrs_plug in *. exact NB.
    + rewrite inst_addrs_plug, map_app in *. exact NI1.
    + intros c Hc. destruct (H c Hc) as (A1 & A2 & A3). simpl in A2.
      repeat split; auto. lia.
    + exists (mkInst a (PHI ty (phi_incoming (plug G1 M [] G2) orig argCtr cs)) :: phis).
      repeat split.
      * assert (Hphi : build_arg_phi fresh M cs orig ty argCtr (plug G1 M cur G2)
                       = Some (VInst a, plug G1 M (cur ++ [mkInst a (PHI ty
                            (phi_incoming (plug G1 M [] G2) orig argCtr cs))]) G2)).
        { unfold build_arg_phi, PHINode_Create.
          rewrite (bind_eq _ _ _ _ _ (create_at_end_plug (PHI ty []) G1 M cur G2 NB)).
          fold a. rewrite (bind_eq _ _ _ tt
            (plug G1 M (cur ++ [mkInst a (PHI ty
                            (phi_incoming (plug G1 M [] G2) orig argCtr cs))]) G2));
            [reflexivity|].
          apply Hloop.
          intros c Hc. destruct (H c Hc) as (A1 & A2 & A3). simpl in A2.
            rewrite inst_addrs_plug in Ha, NI. rewrite inst_addrs_app in A1.
            repeat split; auto; try lia.
            - intros Hi. rewrite app_assoc in NI.
              apply in_app_iff in A1. destruct A1 as [A1|A1].
              + apply NoDup_app_inv in NI. destruct NI as (NI & _ & _).
                apply NoDup_app_inv in NI. destruct NI as (_ & _ & D).
                apply (D c A1 Hi).
              + apply NoDup_app_inv in NI. destruct NI as (_ & _ & D).
                apply (D c); auto. apply in_or_app. right. exact Hi.
            - intros ->. apply Ha. rewrite !in_app_iff.
              apply in_app_iff in A1. tauto. }
        rewrite (bind_eq _ _ _ _ _ Hphi), (bind_eq _ _ _ _ _ Hrun).
        simpl. rewrite <- app_assoc. reflexivity.
      * simpl. rewrite Hk. reflexivity.
      * rewrite <- app_assoc in NI2. exact NI2.
Qed.
End ArgPhis.

(** ** The unreachable-block locator *)

Lemma find_unreachable_found bs1 b bs2 :
  (forall b', In b' bs1 -> ~ lone_phi b') ->
  (forall b', In b' bs1 -> ~ lone_unreachable b') ->
  lone_unreachable b ->
  find_unreachable (bs1 ++ b :: bs2) = Some (Some (baddr b)).
Proof.
  intros Hphi Hno (i & Eb). induction bs1 as [|b' bs1 IH]; simpl.
  - rewrite Eb. reflexivity.
  - assert (IH' : find_unreachable (bs1 ++ b :: bs2) = Some (Some (baddr b))).
    { apply IH; intros x Hx; [apply Hphi | apply Hno]; right; exact Hx. }
    destruct (insts b') as [|x [|y l]] eqn:E; simpl; auto.
    destruct x as [a k]. unfold first_non_phi. simpl.
    destruct k; simpl; auto.
    + exfalso. apply (Hphi b'); [left; reflexivity|]. exists a, ty, incoming. exact E.
    + exfalso. apply (Hno b'); [left; reflexivity|]. exists a. exact E.
Qed.

Lemma find_unreachable_none F :
  (forall b, In b F -> ~ lone_phi b) ->
  (forall b, In b F -> ~ lone_unreachable b) ->
  find_unreachable F = Some None.
Proof.
  intros Hphi Hno. induction F as [|b' F IH]; simpl; [reflexivity|].
  assert (IH' : find_unreachable F = Some None).
  { apply IH; intros x Hx; [apply Hphi | apply Hno]; right; exact Hx. }
  destruct (insts b') as [|x [|y l]] eqn:E; simpl; auto.
  destruct x as [a k]. unfold first_non_phi. simpl.
  destruct k; simpl; auto.
  - exfalso. apply (Hphi b'); [left; reflexivity|]. exists a, ty, incoming. exact E.
  - exfalso. apply (Hno b'); [left; reflexivity|]. exists a. exact E.
Qed.

Lemma lone_unreachable_dec b : {lone_unreachable b} + {~ lone_unreachable b}.
Proof.
  unfold lone_unreachable. destruct (insts b) as [|[a k] [|y l]].
  - right. intros (i & E). discriminate.
  - destruct k; try (right; intros (i & E); discriminate).
    left. exists a. reflexivity.
  - right. intros (i & E). discriminate.
Qed.

Lemma first_lone_unreachable F :
  (exists bs1 b bs2, F = bs1 ++ b :: bs2 /\ lone_unreachable b
                     /\ forall b', In b' bs1 -> ~ lone_unreachable b')
  \/ (forall b, In b F -> ~ lone_unreachable b).
Proof.
  induction F as [|b F IH].
  - right. intros b [].
  - destruct (lone_unreachable_dec b) as [Hb|Hb].
    + left. exists [], b, F. repeat split; auto.
    + destruct IH as [(bs1 & b0 & bs2 & E & H0 & Hno)|Hnone].
      * left. exists (b :: bs1), b0, bs2. subst F. repeat split; auto.
        intros b' [<-|Hb']; auto.
      * right. intros b' [<-|Hb']; auto.
Qed.

Section UnreachableBlock.
Variable fresh : list addr -> addr.
Hypothesis fresh_spec : forall l, ~ In (fresh l) l.

Lemma getUnreachableBlock_found bs1 b bs2 :
  (forall b', In b' bs1 -> ~ lone_phi b') ->
  (forall b', In b' bs1 -> ~ lone_unreachable b') ->
  lone_unreachable b ->
  getUnreachableBlock fresh (bs1 ++ b :: bs2) = Some (baddr b, bs1 ++ b :: bs2).
Proof.
  intros Hphi Hno Hb. unfold getUnreachableBlock, bind.
  rewrite (find_unreachable_found bs1 b bs2 Hphi Hno Hb). reflexivity.
Qed.

Lemma getUnreachableBlock_created F :
  (forall b, In b F -> ~ lone_phi b) ->
  (forall b, In b F -> ~ lone_unreachable b) ->
  getUnreachableBlock fresh F
  = Some (fresh (block_addrs F),
          F ++ [mkBlock (fresh (block_addrs F))
                        [mkInst (fresh (inst_addrs F)) Unreachable]]).
Proof.
  intros Hphi Hno. unfold getUnreachableBlock, bind.
  rewrite (find_unreachable_none F Hphi Hno).
  unfold BasicBlock_Create, UnreachableInst_new, create_at_end, ret.
  rewrite on_block_app, (on_block_notin _ _ F (fresh_spec (block_addrs F))).
  unfold on_block. simpl. rewrite Nat.eqb_refl.
  unfold inst_addrs. rewrite all_insts_app. simpl. rewrite app_nil_r. reflexivity.
Qed.

(** C5: [getUnreachableBlock] returns the first block, in function
    order, whose whole content is one [unreachable], and leaves the
    function as it is; when there is none, it appends a new block that
    holds a single new [unreachable] and returns it.  (A block made of a
    lone PHI node, which has no terminator, trips the assertion.) *)
Theorem getUnreachableBlock_spec F :
  (forall b, In b F -> ~ lone_phi b) ->
  (forall bs1 b bs2,
      F = bs1 ++ b :: bs2 -> lone_unreachable b ->
      (forall b', In b' bs1 -> ~ lone_unreachable b') ->
      getUnreachableBlock fresh F = Some (baddr b, F))
  /\ ((forall b, In b F -> ~ lone_unreachable b) ->
      exists a i,
        ~ In a (block_addrs F) /\ ~ In i (inst_addrs F)
        /\ getUnreachableBlock fresh F
           = Some (a, F ++ [mkBlock a [mkInst i Unreachable]])).
Proof.
  intros Hphi. split.
  - intros bs1 b bs2 -> Hb Hno. apply getUnreachableBlock_found; auto.
    intros b' Hb'. apply Hphi. apply in_or_app. left. exact Hb'.
  - intros Hno. exists (fresh (block_addrs F)), (fresh (inst_addrs F)).
    repeat split; try apply fresh_spec.
    apply getUnreachableBlock_created; assumption.
Qed.

Lemma getUnreachableBlock_total F :
  (forall b, In b F -> ~ lone_phi b) ->
  exists dflt tail,
    getUnreachableBlock fresh F = Some (dflt, F ++ tail)
    /\ ((tail = [] /\ exists b, In b F /\ baddr b = dflt /\ lone_unreachable b)
        \/ (tail = [mkBlock dflt [mkInst (fresh (inst_addrs F)) Unreachable]]
            /\ dflt = fresh (block_addrs F))).
Proof.
  intros Hphi. destruct (first_lone_unreachable F)
    as [(bs1 & b & bs2 & E & Hb & Hno)|Hnone].
  - exists (baddr b), []. rewrite app_nil_r. split.
    + subst F. apply getUnreachableBlock_found; auto.
      intros b' Hb'. apply Hphi. apply in_or_app. left. exact Hb'.
    + left. split; [reflexivity|]. exists b. subst F. repeat split; auto.
      apply in_or_app. right. left. reflexivity.
  - eexists _, _. split; [apply getUnreachableBlock_created; assumption|].
    right. split; reflexivity.
Qed.
End UnreachableBlock.

(** ** Facts about the renaming of the second loop *)

Lemma existsb_eqb_In i cs : existsb (Nat.eqb i) cs = true <-> In i cs.
Proof.
  rewrite existsb_exists. split.
  - intros (x & Hx & E). apply Nat.eqb_eq in E. subst. exact Hx.
  - intros H. exists i. split; [exact H|apply Nat.eqb_refl].
Qed.

Lemma not_in_cs_true cs x : not_in_cs cs x = true <-> ~ In (iaddr x) cs.
Proof.
  unfold not_in_cs. rewrite negb_true_iff, <- existsb_eqb_In.
  destruct (existsb (Nat.eqb (iaddr x)) cs); split; congruence.
Qed.

Lemma rw_app cs u l1 l2 : rw cs u (l1 ++ l2) = rw cs u l1 ++ rw cs u l2.
Proof. unfold rw. rewrite filter_app, map_app. reflexivity. Qed.

Lemma rw_keep cs u l :
  (forall x, In x l -> ~ In (iaddr x) cs) -> rw cs u l = map (rename_inst cs u) l.
Proof.
  intros H. unfold rw. f_equal. apply forallb_filter_id. apply forallb_forall.
  intros x Hx. apply (not_in_cs_true cs x), H, Hx.
Qed.

Lemma rw_iaddr cs u l :
  map iaddr (rw cs u l) = filter (fun i => negb (existsb (Nat.eqb i) cs)) (map iaddr l).
Proof.
  unfold rw. rewrite map_map. simpl.
  induction l as [|x l IH]; simpl; [reflexivity|].
  destruct (existsb (Nat.eqb (iaddr x)) cs); simpl; rewrite IH; reflexivity.
Qed.

Lemma rw_inst_addrs cs u F :
  inst_addrs (map (on_insts (rw cs u)) F)
  = filter (fun i => negb (existsb (Nat.eqb i) cs)) (inst_addrs F).
Proof.
  induction F as [|b F IH]; [reflexivity|].
  simpl map. rewrite !inst_addrs_cons, filter_app, IH. f_equal.
  apply rw_iaddr.
Qed.

Lemma rw_block_addrs cs u F : block_addrs (map (on_insts (rw cs u)) F) = block_addrs F.
Proof. unfold block_addrs. rewrite map_map. reflexivity. Qed.

Lemma rw_plug cs u G1 M l G2 :
  map (on_insts (rw cs u)) (plug G1 M l G2)
  = plug (map (on_insts (rw cs u)) G1) M (rw cs u l) (map (on_insts (rw cs u)) G2).
Proof. unfold plug. rewrite map_app. reflexivity. Qed.

Lemma in_rw cs u x l :
  In x (rw cs u l) <-> exists y, In y l /\ ~ In (iaddr y) cs /\ x = rename_inst cs u y.
Proof.
  unfold rw. rewrite in_map_iff. split.
  - intros (y & E & Hy). apply filter_In in Hy. destruct Hy as [Hy Hn].
    exists y. repeat split; auto. apply (not_in_cs_true cs y), Hn.
  - intros (y & Hy & Hn & E). exists y. split; auto. apply filter_In. split; auto.
    apply (not_in_cs_true cs y), Hn.
Qed.

Lemma rename_isTerminator cs u x :
  isTerminator (ikind (rename_inst cs u x)) = isTerminator (ikind x).
Proof. destruct x as [a []]; reflexivity. Qed.

Lemma rename_successors cs u x :
  successors (ikind (rename_inst cs u x)) = successors (ikind x).
Proof. destruct x as [a []]; reflexivity. Qed.

Lemma rename_isa_PHI cs u x : isa_PHI (ikind (rename_inst cs u x)) = isa_PHI (ikind x).
Proof. destruct x as [a []]; reflexivity. Qed.

Lemma rename_getCalledFunction cs u x :
  getCalledFunction (ikind (rename_inst cs u x)) = getCalledFunction (ikind x).
Proof.
  destruct x as [a [[]| | | | | |]]; try reflexivity.
  unfold rename_inst. simpl. destruct (existsb _ _); reflexivity.
Qed.

Lemma rw_has_terminator cs u b :
  has_terminator b ->
  (forall x, In x (insts b) -> In (iaddr x) cs -> isTerminator (ikind x) = false) ->
  has_terminator (on_insts (rw cs u) b).
Proof.
  unfold has_terminator. intros H Hcs.
  destruct (getTerminator (insts b)) as [t|] eqn:Et; [clear H|congruence].
  apply getTerminator_inv in Et. destruct Et as (l & El & Ht).
  simpl. rewrite El, rw_app.
  assert (Hn : ~ In (iaddr t) cs).
  { intros Hi. rewrite (Hcs t) in Ht; [discriminate| |exact Hi].
    rewrite El. apply in_or_app. right. left. reflexivity. }
  rewrite (rw_keep cs u [t]).
  - simpl. rewrite getTerminator_app, rename_isTerminator, Ht. discriminate.
  - intros x [<-|[]]. exact Hn.
Qed.

Lemma insert_before_plug pos y G1 M l1 x l2 G2 :
  NoDup (inst_addrs (plug G1 M (l1 ++ x :: l2) G2)) -> iaddr x = pos ->
  map (on_insts (insert_before pos y)) (plug G1 M (l1 ++ x :: l2) G2)
  = plug G1 M (l1 ++ y :: x :: l2) G2.
Proof.
  intros ND E. rewrite inst_addrs_plug, map_app in ND. simpl in ND.
  assert (H : ~ In pos (inst_addrs G1) /\ ~ In pos (map iaddr l1)
              /\ ~ In pos (inst_addrs G2)).
  { rewrite <- app_assoc in ND. simpl in ND.
    rewrite app_assoc, E in ND. apply NoDup_mid in ND.
    rewrite !in_app_iff in ND. tauto. }
  destruct H as (A1 & A2 & A3).
  unfold plug. rewrite map_app. simpl.
  rewrite (map_insert_notin pos y G1 A1), (map_insert_notin pos y G2 A3).
  rewrite on_insts_mk, (insert_before_here pos y l1 x l2 A2 E). reflexivity.
Qed.

Lemma NoDup_plug_ids G1 M l l' G2 :
  map iaddr l = map iaddr l' ->
  NoDup (inst_addrs (plug G1 M l G2)) -> NoDup (inst_addrs (plug G1 M l' G2)).
Proof. rewrite !inst_addrs_plug. intros ->. auto. Qed.

Lemma build_switch_spec G1 M l1 w ty uc s cond dflt G2 : forall kvs ctr inc cases,
  NoDup (inst_addrs (plug G1 M (l1 ++ [mkInst w (PHI ty inc); uc;
                                       mkInst s (Switch cond dflt cases)]) G2)) ->
  build_switch w s kvs ctr
    (plug G1 M (l1 ++ [mkInst w (PHI ty inc); uc; mkInst s (Switch cond dflt cases)]) G2)
  = Some (tt, plug G1 M (l1 ++ [mkInst w (PHI ty (inc ++ discr_incoming ctr kvs)); uc;
                                mkInst s (Switch cond dflt (cases ++ switch_cases ctr kvs))])
                   G2).
Proof.
  induction kvs as [|[P R] kvs IH]; intros ctr inc cases ND.
  - simpl. unfold discr_incoming, switch_cases. simpl. rewrite !app_nil_r. reflexivity.
  - simpl. unfold bind at 1 2. unfold addIncoming, addCase, modify.
    rewrite update_inst_plug by exact ND.
    replace (l1 ++ [mkInst w (PHI ty (inc ++ [(VConstant (APInt 32 ctr), P)])); uc;
                    mkInst s (Switch cond dflt cases)])
      with ((l1 ++ [mkInst w (PHI ty (inc ++ [(VConstant (APInt 32 ctr), P)])); uc])
              ++ mkInst s (Switch cond dflt cases) :: [])
      by (rewrite <- app_assoc; reflexivity).
    rewrite update_inst_plug.
    + rewrite <- app_assoc. simpl app. rewrite IH.
      * unfold discr_incoming, switch_cases. simpl. rewrite <- !app_assoc. reflexivity.
      * revert ND. apply NoDup_plug_ids. rewrite !map_app. reflexivity.
    + revert ND. apply NoDup_plug_ids. rewrite !map_app, <- app_assoc. reflexivity.
Qed.

Lemma NoDup_plug_disjoint G1 M l G2 c :
  NoDup (inst_addrs (plug G1 M l G2)) -> In c (inst_addrs (G1 ++ G2)) ->
  ~ In c (map iaddr l).
Proof.
  rewrite inst_addrs_plug, inst_addrs_app. intros ND Hc Hl.
  apply in_app_iff in Hc. destruct Hc as [Hc|Hc].
  - apply NoDup_app_inv in ND. destruct ND as (_ & _ & D).
    apply (D c Hc). apply in_or_app. left. exact Hl.
  - apply NoDup_app_inv in ND. destruct ND as (_ & ND & _).
    apply NoDup_app_inv in ND. destruct ND as (_ & _ & D). apply (D c Hl Hc).
Qed.

Lemma NoDup_plug_insert G1 M l1 l2 G2 a k :
  NoDup (inst_addrs (plug G1 M (l1 ++ l2) G2)) ->
  ~ In a (inst_addrs (plug G1 M (l1 ++ l2) G2)) ->
  NoDup (inst_addrs (plug G1 M (l1 ++ mkInst a k :: l2) G2)).
Proof.
  rewrite !inst_addrs_plug, !map_app. simpl. intros ND Ha.
  apply (Permutation_NoDup
           (l := a :: inst_addrs G1 ++ (map iaddr l1 ++ map iaddr l2) ++ inst_addrs G2));
    [|constructor; assumption].
  rewrite <- !app_assoc. simpl.
  rewrite (app_assoc (inst_addrs G1)), (app_assoc (inst_addrs G1) _ (a :: _)).
  apply Permutation_middle.
Qed.

Lemma plug_app_tail G1 M l G2 tail : plug G1 M l G2 ++ tail = plug G1 M l (G2 ++ tail).
Proof. unfold plug. rewrite <- app_assoc. reflexivity. Qed.

Lemma lone_phi_no_terminator b : has_terminator b -> ~ lone_phi b.
Proof.
  unfold has_terminator. intros H (i & ty & inc & E). rewrite E in H.
  apply H. reflexivity.
Qed.

Lemma rename_args_keep cs u (phis : list Inst) :
  (forall x, In x phis -> ~ In (iaddr x) cs) ->
  map (rename_value cs u) (map (fun p => VInst (iaddr p)) phis)
  = map (fun p => VInst (iaddr p)) phis.
Proof.
  intros H. rewrite map_map. apply map_ext_in. intros p Hp. simpl.
  destruct (existsb (Nat.eqb (iaddr p)) cs) eqn:E; [|reflexivity].
  apply existsb_eqb_In in E. exfalso. apply (H p Hp E).
Qed.

Section EmitCallBlock.
Variable fresh : list addr -> addr.
Hypothesis fresh_spec : forall l, ~ In (fresh l) l.
Variable fn_args : addr -> list typ.

(** The call block and the rest of the function once the call block has
    been filled, from the function [plug G1 M [] G2] the first loop left. *)
Lemma emit_call_block_spec T M cs ret orig G1 G2 :
  NoDup (block_addrs (plug G1 M [] G2)) ->
  NoDup (inst_addrs (plug G1 M [] G2)) ->
  (forall c, In c cs ->
             In c (inst_addrs (G1 ++ G2))
             /\ length (fn_args T) <= length (args_of c (plug G1 M [] G2))
             /\ AddrMap.get c orig <> None) ->
  (forall b, In b (G1 ++ G2) -> has_terminator b) ->
  (forall x, In x (all_insts (G1 ++ G2)) -> In (iaddr x) cs ->
             isTerminator (ikind x) = false) ->
  exists phis u w s dflt tail,
    let F' := plug (map (on_insts (rw cs u)) G1) M
                (map (rename_inst cs u) phis
                   ++ [mkInst w (PHI (IntegerTy 32) (discr_incoming 0 ret));
                       mkInst u (Call (VFunction T) (map (fun p => VInst (iaddr p)) phis));
                       mkInst s (Switch (VInst w) dflt (switch_cases 0 ret))])
                (map (on_insts (rw cs u)) G2 ++ tail) in
    emit_call_block fresh fn_args T M cs ret orig (plug G1 M [] G2) = Some (u, F')
    /\ map ikind phis = arg_phi_kinds (plug G1 M [] G2) orig cs (fn_args T) 0
    /\ NoDup (block_addrs F') /\ NoDup (inst_addrs F')
    /\ ~ In u (inst_addrs (plug G1 M [] G2))
    /\ (forall p, In p phis -> ~ In (iaddr p) (inst_addrs (plug G1 M [] G2)))
    /\ ((tail = [] /\ In dflt (block_addrs (G1 ++ G2)))
        \/ (exists i, tail = [mkBlock dflt [mkInst i Unreachable]]
                      /\ ~ In dflt (block_addrs (plug G1 M [] G2)))).
Proof.
  intros NB NI Hcs Hterm Hnt.
  (* the argument PHI nodes *)
  destruct (build_arg_phis_spec fresh fresh_spec G1 M G2 orig cs (fn_args T) 0 [] NB NI)
    as (phis & Hphis & Hk & NI1).
  { intros c Hc. destruct (Hcs c Hc) as (A1 & A2 & A3). auto. }
  simpl app in Hphis, NI1.
  assert (NB1 : NoDup (block_addrs (plug G1 M phis G2)))
    by (rewrite block_addrs_plug in *; exact NB).
  (* the unified call *)
  set (u := fresh (inst_addrs (plug G1 M phis G2))).
  assert (Hu : ~ In u (inst_addrs (plug G1 M phis G2))) by apply fresh_spec.
  set (CallArgs := map (fun p => VInst (iaddr p)) phis) in *.
  set (uc := mkInst u (Call (VFunction T) CallArgs)).
  assert (NI2 : NoDup (inst_addrs (plug G1 M (phis ++ [uc]) G2)))
    by (apply NoDup_plug_snoc; assumption).
  assert (Hnew : forall x, In x (phis ++ [uc]) -> ~ In (iaddr x) cs).
  { intros x Hx Hi. destruct (Hcs _ Hi) as (A1 & _).
    apply (NoDup_plug_disjoint _ _ _ _ _ NI2 A1). apply in_map, Hx. }
  (* the second loop *)
  set (G1' := map (on_insts (rw cs u)) G1). set (G2' := map (on_insts (rw cs u)) G2).
  set (phis' := map (rename_inst cs u) phis).
  assert (E3 : map (on_insts (rw cs u)) (plug G1 M (phis ++ [uc]) G2)
               = plug G1' M (phis' ++ [uc]) G2').
  { rewrite rw_plug, (rw_keep cs u _ Hnew), map_app. simpl. f_equal. f_equal.
    unfold rename_inst, uc. simpl. unfold CallArgs. rewrite rename_args_keep; [reflexivity|].
    intros x Hx. apply Hnew. apply in_or_app. left. exact Hx. }
  assert (NI3 : NoDup (inst_addrs (plug G1' M (phis' ++ [uc]) G2'))).
  { rewrite <- E3, rw_inst_addrs. apply NoDup_filter. exact NI2. }
  assert (NB3 : NoDup (block_addrs (plug G1' M (phis' ++ [uc]) G2'))).
  { rewrite block_addrs_plug in *. unfold G1', G2'. rewrite !rw_block_addrs. exact NB. }
  (* the discriminator *)
  set (w := fresh (inst_addrs (plug G1' M (phis' ++ [uc]) G2'))).
  assert (Hw : ~ In w (inst_addrs (plug G1' M (phis' ++ [uc]) G2'))) by apply fresh_spec.
  assert (NI4 : NoDup (inst_addrs
                         (plug G1' M (phis' ++ mkInst w (PHI (IntegerTy 32) []) :: [uc]) G2')))
    by (apply NoDup_plug_insert; assumption).
  set (X4 := plug G1' M (phis' ++ mkInst w (PHI (IntegerTy 32) []) :: [uc]) G2') in *.
  (* the default target *)
  destruct (getUnreachableBlock_total fresh fresh_spec X4) as (dflt & tail & Hdflt & Htail).
  { intros b Hb. unfold X4, plug in Hb. apply in_app_iff in Hb.
    assert (HG : forall b0, In b0 (G1 ++ G2) -> ~ lone_phi (on_insts (rw cs u) b0)).
    { intros b0 Hb0. apply lone_phi_no_terminator, rw_has_terminator; auto.
      intros x Hx. apply Hnt. unfold all_insts. apply in_flat_map. eauto. }
    destruct Hb as [Hb|[<-|Hb]].
    - apply in_map_iff in Hb. destruct Hb as (b0 & <- & Hb0).
      apply HG. apply in_or_app. auto.
    - intros (i & ty & inc & E). simpl in E.
      apply (f_equal (@length Inst)) in E. rewrite length_app in E. simpl in E. lia.
    - apply in_map_iff in Hb. destruct Hb as (b0 & <- & Hb0).
      apply HG. apply in_or_app. auto. }
  assert (HtailB : (tail = [] /\ In dflt (block_addrs (G1 ++ G2)))
                   \/ (tail = [mkBlock dflt [mkInst (fresh (inst_addrs X4)) Unreachable]]
                       /\ ~ In dflt (block_addrs X4))).
  { destruct Htail as [(-> & b & Hb & <- & Hlone)|(-> & ->)].
    - left. split; [reflexivity|]. unfold X4, plug in Hb. apply in_app_iff in Hb.
      rewrite block_addrs_app.
      destruct Hb as [Hb|[<-|Hb]].
      + apply in_or_app. left. apply in_map_iff in Hb. destruct Hb as (b0 & <- & Hb0).
        apply (in_map baddr _ b0 Hb0).
      + exfalso. destruct Hlone as (i & E). simpl in E.
        apply (f_equal (@length Inst)) in E. rewrite length_app in E. simpl in E. lia.
      + apply in_or_app. right. apply in_map_iff in Hb. destruct Hb as (b0 & <- & Hb0).
        apply (in_map baddr _ b0 Hb0).
    - right. split; [reflexivity|apply fresh_spec]. }
  assert (EB4 : block_addrs X4 = block_addrs (plug G1 M [] G2)).
  { unfold X4. rewrite !block_addrs_plug. unfold G1', G2'. rewrite !rw_block_addrs.
    reflexivity. }
  assert (NB5 : NoDup (block_addrs (X4 ++ tail))).
  { destruct HtailB as [(-> & _)|(-> & Hd)].
    - rewrite app_nil_r, EB4. exact NB.
    - rewrite block_addrs_app. simpl.
      apply (Permutation_NoDup (l := dflt :: block_addrs X4)).
      + apply Permutation_cons_append.
      + constructor; [exact Hd|]. rewrite EB4. exact NB. }
  assert (NI5 : NoDup (inst_addrs (X4 ++ tail))).
  { destruct HtailB as [(-> & _)|(-> & Hd)].
    - rewrite app_nil_r. exact NI4.
    - rewrite inst_addrs_app. unfold inst_addrs at 2. simpl.
      apply (Permutation_NoDup (l := fresh (inst_addrs X4) :: inst_addrs X4)).
      + apply Permutation_cons_append.
      + constructor; [apply fresh_spec|exact NI4]. }
  unfold X4 in Hdflt, NB5, NI5. rewrite plug_app_tail in Hdflt, NB5, NI5.
  (* the switch *)
  set (l5 := phis' ++ mkInst w (PHI (IntegerTy 32) []) :: [uc]) in *.
  set (s := fresh (inst_addrs (plug G1' M l5 (G2' ++ tail)))).
  assert (Hs : ~ In s (inst_addrs (plug G1' M l5 (G2' ++ tail)))) by apply fresh_spec.
  assert (NI6 : NoDup (inst_addrs
                         (plug G1' M (l5 ++ [mkInst s (Switch (VInst w) dflt [])])
                               (G2' ++ tail))))
    by (apply NoDup_plug_snoc; assumption).
  assert (E6 : l5 ++ [mkInst s (Switch (VInst w) dflt [])]
               = phis' ++ [mkInst w (PHI (IntegerTy 32) []); uc;
                           mkInst s (Switch (VInst w) dflt [])]).
  { unfold l5. rewrite <- app_assoc. reflexivity. }
  rewrite E6 in NI6.
  assert (Hsw := build_switch_spec G1' M phis' w (IntegerTy 32) uc s (VInst w) dflt
                   (G2' ++ tail) ret 0%Z [] [] NI6).
  simpl app in Hsw.
  exists phis, u, w, s, dflt, tail.
  split; [|split; [exact Hk|split; [|split; [|split; [|split]]]]].
  - unfold emit_call_block.
    rewrite (bind_eq _ _ _ _ _ Hphis).
    unfold CallInst_Create.
    rewrite (bind_eq _ _ _ _ _ (create_at_end_plug fresh _ G1 M phis G2 NB1)).
    fold u. fold uc.
    rewrite (bind_eq _ _ _ _ _ (second_loop_spec u cs _)). rewrite E3.
    rewrite (bind_eq _ _ _ w (plug G1' M l5 G2')).
    2:{ unfold PHINode_Create_before, create_before. fold w. f_equal. f_equal.
        apply (insert_before_plug u _ G1' M phis' uc [] G2' NI3 eq_refl). }
    rewrite (bind_eq _ _ _ _ _ Hdflt).
    unfold SwitchInst_Create.
    rewrite (bind_eq _ _ _ _ _ (create_at_end_plug fresh _ G1' M l5 (G2' ++ tail) NB5)).
    fold s. rewrite E6.
    rewrite (bind_eq _ _ _ _ _ Hsw). reflexivity.
  - rewrite block_addrs_plug in *. exact NB5.
  - revert NI6. apply NoDup_plug_ids. rewrite !map_app. reflexivity.
  - intros Hi. apply Hu. rewrite inst_addrs_plug in *. simpl in Hi.
    rewrite !in_app_iff in *. tauto.
  - intros p Hp Hi. rewrite inst_addrs_plug in Hi. simpl in Hi.
    apply (NoDup_plug_disjoint G1 M phis G2 (iaddr p) NI1).
    + rewrite inst_addrs_app. exact Hi.
    + apply in_map, Hp.
  - destruct HtailB as [H|(-> & Hd)]; [left; exact H|].
    right. eexists. split; [reflexivity|]. rewrite <- EB4. exact Hd.
Qed.
End EmitCallBlock.

(** ** Facts about the address-ordered map *)

Module AddrMapFacts.
Import AddrMap.

Lemma get_set_same {V} k (v : V) m : get k (set k v m) = Some v.
Proof.
  induction m as [|[k' v'] m IH]; simpl.
  - rewrite Nat.eqb_refl. reflexivity.
  - destruct (Nat.ltb_spec k k') as [L|L]; simpl.
    + rewrite Nat.eqb_refl. reflexivity.
    + destruct (Nat.eqb_spec k k') as [E|E]; simpl.
      * rewrite Nat.eqb_refl. reflexivity.
      * destruct (Nat.eqb_spec k k'); [contradiction|]. exact IH.
Qed.

Lemma get_set_other {V} k k0 (v : V) m : k0 <> k -> get k0 (set k v m) = get k0 m.
Proof.
  intros N. induction m as [|[k' v'] m IH]; simpl.
  - destruct (Nat.eqb_spec k0 k); [contradiction|reflexivity].
  - destruct (Nat.ltb_spec k k') as [L|L]; simpl.
    + destruct (Nat.eqb_spec k0 k); [contradiction|reflexivity].
    + destruct (Nat.eqb_spec k k') as [E|E]; simpl.
      * subst k'. destruct (Nat.eqb_spec k0 k); [contradiction|reflexivity].
      * destruct (Nat.eqb_spec k0 k'); [reflexivity|exact IH].
Qed.

Lemma set_sorted {V} k (v : V) m :
  StronglySorted lt (map fst m) -> StronglySorted lt (map fst (set k v m)).
Proof.
  induction m as [|[k' v'] m IH]; simpl; intros S.
  - repeat constructor.
  - apply StronglySorted_inv in S. destruct S as [S HF].
    destruct (Nat.ltb_spec k k') as [L|L]; simpl.
    + constructor; [constructor; assumption|].
      constructor; [exact L|]. eapply Forall_impl; [|exact HF]. simpl. intros; lia.
    + destruct (Nat.eqb_spec k k') as [E|E]; simpl.
      * subst k'. constructor; assumption.
      * constructor; [apply IH, S|].
        assert (Hin : forall x, In x (map fst (set k v m)) -> x = k \/ In x (map fst m)).
        { clear. induction m as [|[k1 v1] m IHm]; simpl.
          - intuition.
          - destruct (k <? k1); simpl; [intuition|].
            destruct (k =? k1); simpl; [intuition|].
            intros x [Hx|Hx]; auto. destruct (IHm _ Hx); auto. }
        apply Forall_forall. intros x Hx. destruct (Hin x Hx) as [->|Hx'].
        -- lia.
        -- rewrite Forall_forall in HF. apply HF, Hx'.
Qed.

Lemma set_perm_fresh {V} k (v : V) m :
  ~ In k (map fst m) -> Permutation (set k v m) ((k, v) :: m).
Proof.
  induction m as [|[k' v'] m IH]; simpl; intros N.
  - reflexivity.
  - destruct (Nat.ltb_spec k k') as [L|L]; [reflexivity|].
    destruct (Nat.eqb_spec k k') as [E|E]; [exfalso; apply N; left; congruence|].
    etransitivity; [apply perm_skip, IH; tauto|]. apply perm_swap.
Qed.
End AddrMapFacts.

Lemma orig_map_get lg : forall m c,
  In c (map fst lg) \/ AddrMap.get c m <> None ->
  AddrMap.get c (orig_map lg m) <> None.
Proof.
  unfold orig_map. induction lg as [|e lg IH]; intros m c H; simpl.
  - destruct H as [[]|H]. exact H.
  - apply IH. destruct H as [[E|H]|H]; auto.
    + right. rewrite E, AddrMapFacts.get_set_same. discriminate.
    + right. destruct (Nat.eq_dec c (fst e)) as [->|N].
      * rewrite AddrMapFacts.get_set_same. discriminate.
      * rewrite AddrMapFacts.get_set_other by exact N. exact H.
Qed.

Lemma filter_isCall_strip l : filter isCall (map strip l) = filter isCall l.
Proof.
  induction l as [|x l IH]; simpl; [reflexivity|].
  assert (E : isCall (strip x) = isCall x) by (destruct x as [a []]; reflexivity).
  rewrite E. destruct (isCall x) eqn:Ec; rewrite IH; [|reflexivity].
  rewrite (strip_nonphi x (isCall_nonphi x Ec)). reflexivity.
Qed.

Lemma inst_eq_of_addr F x y :
  NoDup (inst_addrs F) -> In x (all_insts F) -> In y (all_insts F) ->
  iaddr x = iaddr y -> x = y.
Proof.
  unfold inst_addrs. induction (all_insts F) as [|z l IH]; simpl; intros ND Hx Hy E.
  - contradiction.
  - apply NoDup_cons_iff in ND. destruct ND as [Hz ND].
    destruct Hx as [->|Hx], Hy as [->|Hy]; auto.
    + exfalso. apply Hz. rewrite E. apply in_map, Hy.
    + exfalso. apply Hz. rewrite <- E. apply in_map, Hx.
Qed.

Lemma find_inst_unique F x :
  NoDup (inst_addrs F) -> In x (all_insts F) -> find_inst (iaddr x) F = Some x.
Proof.
  intros ND Hx. unfold find_inst.
  destruct (find (fun y => iaddr y =? iaddr x) (all_insts F)) as [y|] eqn:E.
  - apply find_some in E. destruct E as [Hy E]. apply Nat.eqb_eq in E.
    f_equal. apply (inst_eq_of_addr F); auto.
  - exfalso. apply (find_none _ _ E) in Hx. rewrite Nat.eqb_refl in Hx. discriminate.
Qed.

Lemma is_call_site_kind T x :
  is_call_site T x = true <-> exists args, ikind x = Call (VFunction T) args.
Proof.
  unfold is_call_site. destruct x as [a k]. simpl. split.
  - destruct k as [[]| | | | | |]; simpl; try discriminate.
    destruct (Nat.eqb_spec f T) as [->|]; [eauto|discriminate].
  - intros (args & ->). simpl. apply Nat.eqb_refl.
Qed.

Lemma calls_fn_is_call_site T x : calls_fn T x = is_call_site T x.
Proof.
  unfold calls_fn, is_call_site. destruct x as [a [[]| | | | | |]]; reflexivity.
Qed.

Lemma sF_in_empty M F : In (mkBlock M []) (sF F) -> In (mkBlock M []) F.
Proof.
  intros H. apply in_map_iff in H. destruct H as ([a l] & E & Hb).
  unfold sB, on_insts in E. simpl in E. inv E.
  destruct l; [exact Hb|discriminate].
Qed.

(** Facts about the function the first loop leaves, from its invariant. *)
Lemma after_loop_calls T M closed F lg G1 G2 :
  loop_inv T M closed (filter isCall (all_insts F)) lg [] (sF (plug G1 M [] G2)) ->
  filter isCall (all_insts (G1 ++ G2)) = filter isCall (all_insts F).
Proof.
  intros Inv. rewrite <- (li_calls _ _ _ _ _ _ _ Inv).
  rewrite sF_all_insts, filter_isCall_strip, all_insts_plug, all_insts_app. reflexivity.
Qed.

Lemma after_loop_sites T M closed F lg G1 G2 c :
  loop_inv T M closed (filter isCall (all_insts F)) lg [] (sF (plug G1 M [] G2)) ->
  In c (map fst lg) ->
  exists ci args, In ci (all_insts (G1 ++ G2)) /\ In ci (all_insts F)
                  /\ iaddr ci = c /\ ikind ci = Call (VFunction T) args.
Proof.
  intros Inv Hc.
  assert (Hs := li_sites _ _ _ _ _ _ _ Inv). rewrite app_nil_r in Hs.
  rewrite <- Hs in Hc. apply in_map_iff in Hc. destruct Hc as (ci & Ec & Hci).
  apply filter_In in Hci. destruct Hci as [Hci Hsite].
  apply is_call_site_kind in Hsite. destruct Hsite as (args & Ek).
  exists ci, args. repeat split; auto.
  - rewrite <- (after_loop_calls _ _ _ _ _ _ _ Inv) in Hci.
    apply filter_In in Hci. tauto.
  - apply filter_In in Hci. tauto.
Qed.

(** ** The merge as a whole *)

Section Merge.
Variable fresh : list addr -> addr.
Hypothesis fresh_spec : forall l, ~ In (fresh l) l.
Variable fn_args : addr -> list typ.

Lemma initial_inv T F :
  wf fn_args F ->
  loop_inv T (fresh (block_addrs F)) (targets_closed F) (filter isCall (all_insts F))
           [] (collectCallSites T F)
           (sF (F ++ [mkBlock (fresh (block_addrs F)) []])).
Proof.
  intros [NB NI HT HA]. set (M := fresh (block_addrs F)).
  assert (HM : ~ In M (block_addrs F)) by apply fresh_spec.
  constructor.
  - rewrite sF_block_addrs, block_addrs_app. simpl.
    apply (Permutation_NoDup (l := M :: block_addrs F)).
    + apply Permutation_cons_append.
    + constructor; assumption.
  - rewrite sF_inst_addrs, inst_addrs_app. unfold inst_addrs at 2. simpl.
    rewrite app_nil_r. exact NI.
  - rewrite sF_app. apply in_or_app. right. left. reflexivity.
  - intros b Hb Hne. rewrite sF_app in Hb. apply in_app_iff in Hb.
    destruct Hb as [Hb|[<-|[]]].
    + apply in_map_iff in Hb. destruct Hb as (b0 & <- & Hb0).
      apply has_terminator_sB. rewrite Forall_forall in HT. apply HT, Hb0.
    + simpl in Hne. congruence.
  - rewrite sF_all_insts, all_insts_app. unfold all_insts at 2. simpl.
    rewrite app_nil_r. apply filter_isCall_strip.
  - simpl. rewrite filter_filter_sub by apply is_call_site_isCall.
    symmetry. apply collectCallSites_filter.
  - intros e [].
  - constructor.
  - intros Hcl b x Hb Hx Hs. exfalso. apply HM.
    rewrite sF_app in Hb. apply in_app_iff in Hb.
    destruct Hb as [Hb|[<-|[]]]; [|destruct Hx].
    apply in_map_iff in Hb. destruct Hb as (b0 & <- & Hb0).
    simpl in Hx. apply in_map_iff in Hx. destruct Hx as (x0 & <- & Hx0).
    rewrite strip_successors in Hs.
    apply (Hcl x0 M); [|exact Hs]. unfold all_insts. apply in_flat_map. eauto.
  - intros e [].
Qed.

Theorem mergeCallSites_merges T F :
  wf fn_args F -> 2 <= length (collectCallSites T F) ->
  exists u F', mergeCallSites fresh fn_args T F = Some (Some u, F')
               /\ merge_result fresh fn_args T F u F'.
Proof.
  intros WF Hlen.
  set (M := fresh (block_addrs F)). set (cs := collectCallSites T F) in *.
  destruct (split_pairs_total fresh fresh_spec T M (targets_closed F)
              (filter isCall (all_insts F)) cs [] (F ++ [mkBlock M []])
              (initial_inv T F WF))
    as (lg & F1 & Hpairs & Hfst & Inv).
  simpl app in Inv.
  assert (HM := sF_in_empty _ _ (li_M _ _ _ _ _ _ _ Inv)).
  apply in_split in HM. destruct HM as (G1 & G2 & EF1). fold (plug G1 M [] G2) in EF1.
  subst F1.
  assert (NB : NoDup (block_addrs (plug G1 M [] G2)))
    by (rewrite <- sF_block_addrs; apply (li_blocks _ _ _ _ _ _ _ Inv)).
  assert (NI : NoDup (inst_addrs (plug G1 M [] G2)))
    by (rewrite <- sF_inst_addrs; apply (li_insts _ _ _ _ _ _ _ Inv)).
  assert (Eall : all_insts (plug G1 M [] G2) = all_insts (G1 ++ G2))
    by (rewrite all_insts_plug, all_insts_app; reflexivity).
  destruct (emit_call_block_spec fresh fresh_spec fn_args T M cs
              (ret_map lg []) (orig_map lg []) G1 G2 NB NI)
    as (phis & u & w & s & dflt & tail & Hrun & Hk & NB' & NI' & Hu & Hp & Htail).
  - intros c Hc. rewrite <- Hfst in Hc.
    destruct (after_loop_sites _ _ _ _ _ _ _ c Inv Hc) as (ci & args & H1 & H2 & Ec & Ek).
    repeat split.
    + unfold inst_addrs. rewrite <- Ec. apply in_map, H1.
    + unfold args_of. rewrite <- Ec, find_inst_unique by (rewrite ?Eall; assumption).
      destruct ci as [a k]. simpl in Ek. subst k.
      destruct WF as [_ _ _ HA]. rewrite Forall_forall in HA.
      apply (HA _ H2 T args eq_refl).
    + apply orig_map_get. left. exact Hc.
  - intros b Hb. apply has_terminator_sB.
    assert (Hin : In b (plug G1 M [] G2)).
    { unfold plug. apply in_app_iff in Hb. apply in_app_iff. simpl. tauto. }
    apply (li_term _ _ _ _ _ _ _ Inv); [apply in_map, Hin|].
    simpl. intros EM. rewrite block_addrs_plug in NB. apply NoDup_mid in NB.
    apply in_app_iff in Hb. destruct Hb as [Hb|Hb];
      [apply (proj1 NB)|apply (proj2 NB)]; rewrite <- EM; apply in_map, Hb.
  - intros x Hx Hc. rewrite <- Hfst in Hc.
    destruct (after_loop_sites _ _ _ _ _ _ _ _ Inv Hc) as (ci & args & H1 & H2 & Ec & Ek).
    assert (E : x = ci).
    { apply (inst_eq_of_addr (plug G1 M [] G2)); rewrite ?Eall; auto. }
    subst x. rewrite Ek. reflexivity.
  - exists u. eexists. split.
    + unfold mergeCallSites, gets. unfold bind at 1. fold cs.
      destruct cs as [|c1 [|c2 cs']] eqn:Ecs; [simpl in Hlen; lia | simpl in Hlen; lia|].
      rewrite <- Ecs in *.
      rewrite (bind_eq _ _ F M (F ++ [mkBlock M []])) by reflexivity.
      rewrite (bind_eq _ _ _ (ret_map lg [], orig_map lg []) (plug G1 M [] G2)).
      2:{ rewrite split_call_sites_pairs, Hpairs. reflexivity. }
      simpl fst. simpl snd.
      rewrite (bind_eq _ _ _ _ _ Hrun). reflexivity.
    + eapply merge_result_intro; eauto.
Qed.
End Merge.

(** ** Consequences of the shape of the merged function *)

Lemma filter_nil {A} (f : A -> bool) l : (forall x, In x l -> f x = false) -> filter f l = [].
Proof.
induction l as [|x l IH]; simpl; intros H; [reflexivity|].
rewrite (H x) by (left; reflexivity). apply IH. intros y Hy. apply H. right. exact Hy.
Qed.

Lemma in_all_insts_rw cs u x G :
  In x (all_insts (map (on_insts (rw cs u)) G))
  <-> exists y, In y (all_insts G) /\ ~ In (iaddr y) cs /\ x = rename_inst cs u y.
Proof.
unfold all_insts. rewrite in_flat_map. split.
- intros (b' & Hb' & Hx). apply in_map_iff in Hb'. destruct Hb' as (b & <- & Hb).
  simpl in Hx. apply in_rw in Hx. destruct Hx as (y & Hy & Hn & E).
  exists y. repeat split; auto. apply in_flat_map. eauto.
- intros (y & Hy & Hn & E). apply in_flat_map in Hy. destruct Hy as (b & Hb & Hy).
  exists (on_insts (rw cs u) b). split; [apply in_map, Hb|].
  simpl. apply in_rw. eauto.
Qed.

Lemma arg_phi_kinds_length F1 orig cs params : forall argCtr,
  length (arg_phi_kinds F1 orig cs params argCtr) = length params.
Proof. induction params as [|ty ps IH]; intros argCtr; simpl; auto. Qed.

Lemma arg_phi_kinds_PHI F1 orig cs params : forall argCtr k,
  In k (arg_phi_kinds F1 orig cs params argCtr) -> isa_PHI k = true.
Proof.
induction params as [|ty ps IH]; intros argCtr k; simpl; [intros []|].
intros [<-|H]; [reflexivity|]. apply (IH _ _ H).
Qed.

Lemma calls_fn_PHI T x : isa_PHI (ikind x) = true -> calls_fn T x = false.
Proof. destruct x as [a []]; simpl; try discriminate. reflexivity. Qed.

Section MergeFacts.
Variable fresh : list addr -> addr.
Hypothesis fresh_spec : forall l, ~ In (fresh l) l.
Variable fn_args : addr -> list typ.

(** After the first loop every call site of [T] is one of the collected ones. *)
Lemma after_loop_only_sites T M closed F lg G1 G2 x :
  loop_inv T M closed (filter isCall (all_insts F)) lg [] (sF (plug G1 M [] G2)) ->
  In x (all_insts (G1 ++ G2)) -> is_call_site T x = true -> In (iaddr x) (map fst lg).
Proof.
intros Inv Hx Hs.
assert (E := li_sites _ _ _ _ _ _ _ Inv). rewrite app_nil_r in E. rewrite <- E.
apply in_map. apply filter_In. split; [|exact Hs].
rewrite <- (after_loop_calls _ _ _ _ _ _ _ Inv). apply filter_In. split; [exact Hx|].
apply (is_call_site_isCall T), Hs.
Qed.

Lemma phis_are_PHI F1 orig cs params phis p :
  map ikind phis = arg_phi_kinds F1 orig cs params 0 -> In p phis ->
  isa_PHI (ikind p) = true.
Proof.
intros Hk Hp. apply (arg_phi_kinds_PHI F1 orig cs params 0).
rewrite <- Hk. apply in_map, Hp.
Qed.

(** The merged function holds exactly one call to [T]: the unified call. *)
Lemma merge_result_calls_to T F u F' :
  merge_result fresh fn_args T F u F' ->
  exists args, calls_to T F' = [mkInst u (Call (VFunction T) args)].
Proof.
intros [M lg G1 G2 phis w s dflt tail EM Hpairs Hfst Inv EF' Hk NB NI Hu Hp Htail].
exists (map (fun p => VInst (iaddr p)) phis).
set (cs := collectCallSites T F) in *.
assert (HG : forall G, incl (all_insts G) (all_insts (G1 ++ G2)) ->
             filter (calls_fn T) (all_insts (map (on_insts (rw cs u)) G)) = []).
{ intros G Hsub. apply filter_nil. intros x Hx.
  apply in_all_insts_rw in Hx. destruct Hx as (y & Hy & Hn & ->).
  unfold calls_fn. rewrite rename_getCalledFunction. fold (calls_fn T y).
  destruct (calls_fn T y) eqn:E; [|reflexivity].
  exfalso. apply Hn. rewrite calls_fn_is_call_site in E. rewrite <- Hfst.
  apply (after_loop_only_sites _ _ _ _ _ _ _ _ Inv (Hsub _ Hy) E). }
unfold calls_to. rewrite EF', all_insts_plug, all_insts_app, !filter_app.
rewrite (HG G1), (HG G2).
2:{ intros x Hx. rewrite all_insts_app. apply in_or_app. right. exact Hx. }
2:{ intros x Hx. rewrite all_insts_app. apply in_or_app. left. exact Hx. }
assert (Ephis : filter (calls_fn T) (map (rename_inst cs u) phis) = []).
{ apply filter_nil. intros x Hx. apply in_map_iff in Hx. destruct Hx as (p & <- & Hpin).
  apply calls_fn_PHI. rewrite rename_isa_PHI. apply (phis_are_PHI _ _ _ _ _ _ Hk Hpin). }
rewrite Ephis.
assert (Etail : filter (calls_fn T) (all_insts tail) = []).
{ destruct Htail as [(-> & _)|(i & -> & _)]; reflexivity. }
rewrite Etail. simpl. unfold calls_fn at 1. simpl. rewrite Nat.eqb_refl. reflexivity.
Qed.

(** C1: when [F] holds two or more call sites of [T], [mergeCallSites]
    returns a call instruction and the function it leaves holds exactly one
    instruction whose called function is [T], the returned one. *)
Theorem mergeCallSites_single_call T F :
  wf fn_args F -> 2 <= length (collectCallSites T F) ->
  exists u F' args,
    mergeCallSites fresh fn_args T F = Some (Some u, F')
    /\ calls_to T F' = [mkInst u (Call (VFunction T) args)].
Proof.
intros WF Hlen.
destruct (mergeCallSites_merges fresh fresh_spec fn_args T F WF Hlen) as (u & F' & Hrun & Hres).
destruct (merge_result_calls_to T F u F' Hres) as (args & Hcalls).
exists u, F', args. auto.
Qed.
End MergeFacts.

(** ** The merge preserves well-formedness *)

Lemma rename_args_match fn_args cs u y :
  args_match fn_args y -> args_match fn_args (rename_inst cs u y).
Proof.
unfold args_match. intros H f args' E. destruct y as [a k]. simpl in *.
destruct k as [callee args| | | | | |]; simpl in E; try discriminate.
inv E. rewrite length_map. apply H.
destruct callee as [i| | | | |]; simpl in H1; try (inv H1; reflexivity).
destruct (existsb (Nat.eqb i) cs); discriminate.
Qed.

Lemma after_loop_term T M closed calls0 lg G1 G2 b :
  loop_inv T M closed calls0 lg [] (sF (plug G1 M [] G2)) ->
  In b (G1 ++ G2) -> has_terminator b.
Proof.
intros Inv Hb. apply has_terminator_sB.
assert (NB := li_blocks _ _ _ _ _ _ _ Inv). rewrite sF_block_addrs in NB.
assert (Hin : In b (plug G1 M [] G2)).
{ unfold plug. apply in_app_iff in Hb. apply in_app_iff. simpl. tauto. }
apply (li_term _ _ _ _ _ _ _ Inv); [apply in_map, Hin|].
simpl. intros EM. rewrite block_addrs_plug in NB. apply NoDup_mid in NB.
apply in_app_iff in Hb. destruct Hb as [Hb|Hb];
  [apply (proj1 NB)|apply (proj2 NB)]; rewrite <- EM; apply in_map, Hb.
Qed.

Section MergeWf.
Variable fresh : list addr -> addr.
Hypothesis fresh_spec : forall l, ~ In (fresh l) l.
Variable fn_args : addr -> list typ.

Lemma after_loop_site_nonterm T M closed F lg G1 G2 x :
  loop_inv T M closed (filter isCall (all_insts F)) lg [] (sF (plug G1 M [] G2)) ->
  In x (all_insts (G1 ++ G2)) -> In (iaddr x) (map fst lg) ->
  isTerminator (ikind x) = false.
Proof.
intros Inv Hx Hc.
assert (NI := li_insts _ _ _ _ _ _ _ Inv). rewrite sF_inst_addrs in NI.
assert (Eall : all_insts (plug G1 M [] G2) = all_insts (G1 ++ G2))
  by (rewrite all_insts_plug, all_insts_app; reflexivity).
destruct (after_loop_sites T M closed F lg G1 G2 _ Inv Hc)
  as (ci & args & H1 & H2 & Ec & Ek).
assert (E : x = ci).
{ apply (inst_eq_of_addr (plug G1 M [] G2)); rewrite ?Eall; auto. }
subst x. rewrite Ek. reflexivity.
Qed.

Lemma merge_result_wf T F u F' :
  wf fn_args F -> merge_result fresh fn_args T F u F' -> wf fn_args F'.
Proof.
intros WF [M lg G1 G2 phis w s dflt tail EM Hpairs Hfst Inv EF' Hk NB NI Hu Hp Htail].
set (cs := collectCallSites T F) in *.
assert (HtG : forall G, incl G (G1 ++ G2) ->
                        Forall has_terminator (map (on_insts (rw cs u)) G)).
{ intros G Hsub. apply Forall_forall. intros b' Hb'.
  apply in_map_iff in Hb'. destruct Hb' as (b & <- & Hb).
  apply rw_has_terminator.
  - apply (after_loop_term _ _ _ _ _ _ _ _ Inv (Hsub _ Hb)).
  - intros x Hx Hc. rewrite <- Hfst in Hc.
    apply (after_loop_site_nonterm _ _ _ _ _ _ _ _ Inv); [|exact Hc].
    unfold all_insts. apply in_flat_map. exists b. split; [apply Hsub, Hb|exact Hx]. }
assert (HaG : forall G, incl (all_insts G) (all_insts (G1 ++ G2)) ->
                        Forall (args_match fn_args)
                               (all_insts (map (on_insts (rw cs u)) G))).
{ intros G Hsub. apply Forall_forall. intros x Hx.
  apply in_all_insts_rw in Hx. destruct Hx as (y & Hy & Hn & ->).
  apply rename_args_match. intros f args Ek.
  assert (Hin : In y (filter isCall (all_insts (G1 ++ G2)))).
  { apply filter_In. split; [apply Hsub, Hy|]. unfold isCall. rewrite Ek. reflexivity. }
  rewrite (after_loop_calls _ _ _ _ _ _ _ Inv) in Hin. apply filter_In in Hin.
  destruct WF as [_ _ _ HA]. rewrite Forall_forall in HA.
  apply (HA y (proj1 Hin) f args Ek). }
constructor; [exact NB | exact NI | |].
- rewrite EF'. unfold plug. apply Forall_app. split; [|constructor; [|apply Forall_app; split]].
  + apply HtG. intros b Hb. apply in_or_app. left. exact Hb.
  + unfold has_terminator. simpl.
    replace (map (rename_inst cs u) phis
               ++ [mkInst w (PHI (IntegerTy 32) (discr_incoming 0 (ret_map lg [])));
                   mkInst u (Call (VFunction T) (map (fun p => VInst (iaddr p)) phis));
                   mkInst s (Switch (VInst w) dflt (switch_cases 0 (ret_map lg [])))])
      with ((map (rename_inst cs u) phis
               ++ [mkInst w (PHI (IntegerTy 32) (discr_incoming 0 (ret_map lg [])));
                   mkInst u (Call (VFunction T) (map (fun p => VInst (iaddr p)) phis))])
              ++ [mkInst s (Switch (VInst w) dflt (switch_cases 0 (ret_map lg [])))])
      by (rewrite <- app_assoc; reflexivity).
    rewrite getTerminator_app. simpl. discriminate.
  + apply HtG. intros b Hb. apply in_or_app. right. exact Hb.
  + destruct Htail as [(-> & _)|(i & -> & _)]; [constructor|].
    constructor; [|constructor]. unfold has_terminator. simpl. discriminate.
- rewrite EF', all_insts_plug, all_insts_app. repeat (apply Forall_app; split).
  + apply HaG. intros x Hx. rewrite all_insts_app. apply in_or_app. left. exact Hx.
  + apply Forall_forall. intros x Hx. apply in_map_iff in Hx. destruct Hx as (p & <- & Hpin).
    intros f args Ek.
    assert (HPHI := phis_are_PHI _ _ _ _ _ _ Hk Hpin).
    rewrite <- (rename_isa_PHI cs u p), Ek in HPHI. discriminate.
  + repeat constructor; intros f args Ek; simpl in Ek; try discriminate.
    inv Ek. rewrite length_map, <- (length_map ikind), Hk, arg_phi_kinds_length. lia.
  + apply HaG. intros x Hx. rewrite all_insts_app. apply in_or_app. right. exact Hx.
  + destruct Htail as [(-> & _)|(i & -> & _)]; [constructor|].
    repeat constructor. intros f args Ek. discriminate.
Qed.

(** On a well-formed function [mergeCallSites] always returns, and the
    function it leaves is well-formed again. *)
Lemma mergeCallSites_total T F :
  wf fn_args F ->
  exists r F', mergeCallSites fresh fn_args T F = Some (r, F') /\ wf fn_args F'.
Proof.
intros WF. destruct (le_lt_dec 2 (length (collectCallSites T F))) as [L|L].
- destruct (mergeCallSites_merges fresh fresh_spec fn_args T F WF L) as (u & F' & Hrun & Hres).
  exists (Some u), F'. split; [exact Hrun|]. apply (merge_result_wf T F u F' WF Hres).
- destruct (mergeCallSites_few fresh fn_args F T L) as (r & Hrun).
  exists r, F. auto.
Qed.
End MergeWf.

(** ** [runOnFunction]: when it reports a change *)

Section RunOnFunction.
Variable fresh : list addr -> addr.
Hypothesis fresh_spec : forall l, ~ In (fresh l) l.
Variable fn_args : addr -> list typ.
Variable fn_isIntrinsic : addr -> bool.
Variable reg2mem : Func -> Func.

Lemma merge_groups_total groups : forall Modified F,
  wf fn_args F ->
  exists Modified' F',
    merge_groups fresh fn_args groups Modified F = Some (Modified', F')
    /\ wf fn_args F'
    /\ (Modified' = true <->
        Modified = true \/ exists KV, In KV groups /\ 2 <= length (snd KV))
    /\ (Modified' = false -> F' = F).
Proof.
induction groups as [|KV groups IH]; intros Modified F WF; simpl.
- exists Modified, F. split; [reflexivity|]. split; [exact WF|]. split; [|auto].
  split; [auto|]. intros [H|(KV & [] & _)]; exact H.
- destruct (Nat.ltb_spec 1 (length (snd KV))) as [L|L].
  + destruct (mergeCallSites_total fresh fresh_spec fn_args (fst KV) F WF)
      as (r & F1 & Hrun & WF1).
    destruct (IH true F1 WF1) as (b & F' & Hrest & WF' & Hb & Hsame).
    exists b, F'. rewrite (bind_eq _ _ _ _ _ Hrun).
    split; [exact Hrest|]. split; [exact WF'|]. split; [split|].
    * intros _. right. exists KV. split; [left; reflexivity|lia].
    * intros _. apply Hb. left. reflexivity.
    * intros E. exfalso. subst b.
      assert (false = true) by (apply Hb; left; reflexivity). discriminate.
  + destruct (IH Modified F WF) as (b & F' & Hrest & WF' & Hb & Hsame).
    exists b, F'.
    split; [exact Hrest|]. split; [exact WF'|]. split; [split|exact Hsame].
    * intros E. apply Hb in E. destruct E as [E|(KV' & Hin & Hlen)]; auto.
      right. exists KV'. split; [right; exact Hin|exact Hlen].
    * intros [E|(KV' & [<-|Hin] & Hlen)].
      -- apply Hb. left. exact E.
      -- lia.
      -- apply Hb. right. exists KV'. auto.
Qed.

End RunOnFunction.

(** ** The discriminator and the switch *)

Lemma number_from_fst {A} (l : list A) : forall n,
  map fst (number_from n l) = Zseq n (length l).
Proof. induction l as [|x l IH]; intros n; simpl; [reflexivity|]. rewrite IH. reflexivity. Qed.

Lemma number_from_snd {A} (l : list A) : forall n, map snd (number_from n l) = l.
Proof. induction l as [|x l IH]; intros n; simpl; [reflexivity|]. rewrite IH. reflexivity. Qed.

Lemma Zseq_ge n : forall start k, In k (Zseq start n) -> (start <= k)%Z.
Proof.
induction n as [|n IH]; intros start k; simpl; [intros []|].
intros [<-|H]; [lia|]. apply IH in H. lia.
Qed.

Lemma Zseq_NoDup n : forall start, NoDup (Zseq start n).
Proof.
induction n as [|n IH]; intros start; simpl; constructor; [|apply IH].
intros H. apply Zseq_ge in H. lia.
Qed.

Lemma discr_incoming_blocks ctr kvs : map snd (discr_incoming ctr kvs) = map fst kvs.
Proof.
unfold discr_incoming. rewrite map_map. simpl.
rewrite <- (number_from_snd kvs ctr) at 2. rewrite map_map. reflexivity.
Qed.

Lemma discr_incoming_consts ctr kvs :
  map fst (discr_incoming ctr kvs)
  = map (fun k => VConstant (APInt 32 k)) (Zseq ctr (length kvs)).
Proof.
unfold discr_incoming. rewrite map_map. simpl.
rewrite <- number_from_fst, map_map. reflexivity.
Qed.

Lemma switch_cases_consts ctr kvs :
  map fst (switch_cases ctr kvs) = map (APInt 32) (Zseq ctr (length kvs)).
Proof.
unfold switch_cases. rewrite map_map. simpl.
rewrite <- number_from_fst, map_map. reflexivity.
Qed.

Lemma switch_cases_targets ctr kvs : map snd (switch_cases ctr kvs) = map snd kvs.
Proof.
unfold switch_cases. rewrite map_map. simpl.
rewrite <- (number_from_snd kvs ctr) at 2. rewrite map_map. reflexivity.
Qed.

Lemma NoDup_map_inj {A B} (f : A -> B) l :
  (forall x y, f x = f y -> x = y) -> NoDup l -> NoDup (map f l).
Proof.
intros Hinj. induction 1 as [|x l Hx _ IH]; simpl; constructor; auto.
intros Hi. apply in_map_iff in Hi. destruct Hi as (y & E & Hy).
apply Hinj in E. subst y. contradiction.
Qed.

(** Control arriving from the origin block of an entry of [CallSiteToRet]
    is sent to the resume block of that entry, by a case of the switch. *)
Lemma redispatch_entry dflt kvs : forall ctr P R,
  NoDup (map fst kvs) -> In (P, R) kvs ->
  exists k, (ctr <= k)%Z
            /\ getIncomingValueForBlock (discr_incoming ctr kvs) P
               = Some (VConstant (APInt 32 k))
            /\ findCaseDest (switch_cases ctr kvs) dflt (APInt 32 k) = CaseEdge R.
Proof.
induction kvs as [|[P0 R0] kvs IH]; intros ctr P R ND Hin; [destruct Hin|].
simpl in ND. apply NoDup_cons_iff in ND. destruct ND as [HP0 ND].
unfold discr_incoming, switch_cases. simpl.
destruct (Nat.eqb_spec P0 P) as [E|E].
- subst P0. exists ctr. split; [lia|]. split; [reflexivity|].
  unfold ConstantInt_eqb. simpl. rewrite Z.eqb_refl. simpl.
  destruct Hin as [Hin|Hin]; [inv Hin; reflexivity|].
  exfalso. apply HP0. apply (in_map fst) in Hin. exact Hin.
- destruct Hin as [Hin|Hin]; [inv Hin; congruence|].
  destruct (IH (ctr + 1)%Z P R ND Hin) as (k & Hk & H1 & H2).
  exists k. split; [lia|]. split; [exact H1|].
  unfold ConstantInt_eqb. simpl.
  destruct (Z.eqb_spec ctr k) as [Ek|Ek]; [lia|]. exact H2.
Qed.

Lemma ret_map_sorted lg : forall m,
  StronglySorted lt (map fst m) ->
  StronglySorted lt (map fst (ret_map lg m)).
Proof.
unfold ret_map. induction lg as [|e lg IH]; intros m S; simpl; [exact S|].
apply IH. apply AddrMapFacts.set_sorted, S.
Qed.

Lemma ret_map_perm lg : forall m,
  NoDup (map origin_of lg ++ map fst m) ->
  Permutation (ret_map lg m) (map snd lg ++ m).
Proof.
unfold ret_map. induction lg as [|[c [P R]] lg IH]; intros m ND; simpl; [reflexivity|].
simpl in ND. apply NoDup_cons_iff in ND. destruct ND as [HP ND].
rewrite in_app_iff in HP.
assert (Hset : Permutation (AddrMap.set P R m) ((P, R) :: m))
  by (apply AddrMapFacts.set_perm_fresh; tauto).
unfold origin_of, resume_of. simpl.
etransitivity; [apply IH|].
- apply (Permutation_NoDup (l := P :: map origin_of lg ++ map fst m)).
  + etransitivity; [apply Permutation_middle|]. apply Permutation_app_head.
    symmetry.
    apply (Permutation_map fst) in Hset. exact Hset.
  + constructor; [rewrite in_app_iff; tauto|exact ND].
- etransitivity; [apply Permutation_app_head, Hset|].
  symmetry. apply Permutation_middle.
Qed.

Lemma StronglySorted_lt_NoDup l : StronglySorted lt l -> NoDup l.
Proof.
induction 1 as [|x l _ IH HF]; constructor; [|exact IH].
intros Hi. rewrite Forall_forall in HF. apply HF in Hi. lia.
Qed.

Lemma ret_map_facts lg :
  NoDup (map origin_of lg) ->
  StronglySorted lt (map fst (ret_map lg []))
  /\ Permutation (ret_map lg []) (map snd lg)
  /\ Permutation (map fst (ret_map lg [])) (map origin_of lg).
Proof.
intros ND.
assert (P : Permutation (ret_map lg []) (map snd lg)).
{ rewrite <- (app_nil_r (map snd lg)). apply ret_map_perm. simpl. rewrite app_nil_r. exact ND. }
split; [|split; [exact P|]].
- apply (ret_map_sorted lg []). constructor.
- apply (Permutation_map fst) in P. rewrite map_map in P. exact P.
Qed.

Section Redispatch.
Variable fresh : list addr -> addr.
Hypothesis fresh_spec : forall l, ~ In (fresh l) l.
Variable fn_args : addr -> list typ.

Lemma merge_result_redispatch T F u F' :
  merge_result fresh fn_args T F u F' ->
  exists lg F1 dflt,
    split_pairs fresh (fresh (block_addrs F)) (collectCallSites T F)
                (F ++ [mkBlock (fresh (block_addrs F)) []]) = Some (lg, F1)
    /\ map fst lg = collectCallSites T F
    /\ NoDup (map origin_of lg)
    /\ redispatch (fresh (block_addrs F)) F'
       = Some (discr_incoming 0 (ret_map lg []), dflt, switch_cases 0 (ret_map lg []))
    /\ (targets_closed F ->
        forall b x, In b F' -> In x (insts b) ->
                    In (fresh (block_addrs F)) (successors (ikind x)) ->
                    In (baddr b) (map origin_of lg)).
Proof.
intros [M lg G1 G2 phis w s dflt tail EM Hpairs Hfst Inv EF' Hk NB NI Hu Hp Htail].
subst M. set (M := fresh (block_addrs F)) in *.
set (cs := collectCallSites T F) in *.
set (wfn := mkInst w (PHI (IntegerTy 32) (discr_incoming 0 (ret_map lg [])))) in *.
set (uc := mkInst u (Call (VFunction T) (map (fun p => VInst (iaddr p)) phis))) in *.
set (sw := mkInst s (Switch (VInst w) dflt (switch_cases 0 (ret_map lg [])))) in *.
exists lg, (plug G1 M [] G2), dflt.
assert (ND := li_nodup _ _ _ _ _ _ _ Inv).
split; [exact Hpairs|]. split; [exact Hfst|]. split; [exact ND|]. split.
- unfold redispatch.
  assert (HfM : find_block M F'
                = Some (mkBlock M (map (rename_inst cs u) phis ++ [wfn; uc; sw]))).
  { rewrite EF'. unfold plug. apply find_block_here; [|reflexivity].
    rewrite EF', block_addrs_plug in NB. apply NoDup_mid in NB. tauto. }
  rewrite HfM. simpl insts.
  replace (map (rename_inst cs u) phis ++ [wfn; uc; sw])
    with ((map (rename_inst cs u) phis ++ [wfn; uc]) ++ [sw])
    by (rewrite <- app_assoc; reflexivity).
  rewrite getTerminator_app. simpl.
  assert (Hw : find_inst w F' = Some wfn).
  { apply (find_inst_unique F' wfn NI). rewrite EF', all_insts_plug.
    apply in_or_app. right. apply in_or_app. left. apply in_or_app. right.
    left. reflexivity. }
  rewrite Hw. reflexivity.
- intros Hcl b x Hb Hx Hs.
  assert (NB1 : NoDup (block_addrs (plug G1 M [] G2)))
    by (rewrite <- sF_block_addrs; apply (li_blocks _ _ _ _ _ _ _ Inv)).
  assert (HMG : ~ In M (block_addrs (G1 ++ G2))).
  { rewrite block_addrs_plug in NB1. apply NoDup_mid in NB1.
    rewrite block_addrs_app, in_app_iff. tauto. }
  assert (HG : forall b0, In b0 (G1 ++ G2) -> In x (insts (on_insts (rw cs u) b0)) ->
                          In (baddr b0) (map origin_of lg)).
  { intros b0 Hb0 Hx0. simpl in Hx0. apply in_rw in Hx0.
    destruct Hx0 as (y & Hy & _ & ->). rewrite rename_successors in Hs.
    apply (li_preds _ _ _ _ _ _ _ Inv Hcl (sB b0) (strip y)).
    - apply in_map. unfold plug. apply in_app_iff in Hb0. apply in_app_iff. simpl. tauto.
    - simpl. apply in_map, Hy.
    - rewrite strip_successors. exact Hs. }
  rewrite EF' in Hb. unfold plug in Hb. apply in_app_iff in Hb.
  destruct Hb as [Hb|[<-|Hb]].
  + apply in_map_iff in Hb. destruct Hb as (b0 & <- & Hb0).
    apply (HG b0); [apply in_or_app; auto|exact Hx].
  + exfalso. simpl in Hx. apply in_app_iff in Hx. destruct Hx as [Hx|[<-|[<-|[<-|[]]]]].
    * apply in_map_iff in Hx. destruct Hx as (p & <- & Hpin).
      assert (HPHI := phis_are_PHI _ _ _ _ _ _ Hk Hpin).
      rewrite <- (rename_isa_PHI cs u p) in HPHI.
      destruct (ikind (rename_inst cs u p)); simpl in *; try discriminate. exact Hs.
    * destruct Hs.
    * destruct Hs.
    * simpl in Hs. destruct Hs as [E|Hs].
      -- destruct Htail as [(_ & Hd)|(i & _ & Hd)].
         ++ apply HMG. rewrite <- E. exact Hd.
         ++ apply Hd. rewrite E, block_addrs_plug. apply in_or_app. right. left. reflexivity.
      -- rewrite switch_cases_targets in Hs. apply in_map_iff in Hs.
         destruct Hs as ([P R] & E & Hin). simpl in E. subst R.
         destruct (ret_map_facts lg ND) as (_ & Hperm & _).
         apply (Permutation_in _ Hperm) in Hin. apply in_map_iff in Hin.
         destruct Hin as (e & Ee & He).
         apply (li_resume _ _ _ _ _ _ _ Inv e He). unfold resume_of. rewrite Ee. reflexivity.
  + apply in_app_iff in Hb. destruct Hb as [Hb|Hb].
    * apply in_map_iff in Hb. destruct Hb as (b0 & <- & Hb0).
      apply (HG b0); [apply in_or_app; auto|exact Hx].
    * exfalso. destruct Htail as [(-> & _)|(i & -> & _)]; [destruct Hb|].
      destruct Hb as [<-|[]]. simpl in Hx. destruct Hx as [<-|[]]. destruct Hs.
Qed.

(** C8 (as amended): the constants 0, 1, ..., K-1 go to the K origin
    blocks in ascending order of block address, the iteration order of
    [CallSiteToRet], whatever the collection order was. *)
Theorem discriminator_in_address_order T F :
  wf fn_args F -> 2 <= length (collectCallSites T F) ->
  exists u F' lg F1 inc dflt cases,
    mergeCallSites fresh fn_args T F = Some (Some u, F')
    /\ split_pairs fresh (fresh (block_addrs F)) (collectCallSites T F)
                   (F ++ [mkBlock (fresh (block_addrs F)) []]) = Some (lg, F1)
    /\ map fst lg = collectCallSites T F
    /\ redispatch (fresh (block_addrs F)) F' = Some (inc, dflt, cases)
    /\ map fst inc = map (fun k => VConstant (APInt 32 k)) (Zseq 0 (length lg))
    /\ StronglySorted lt (map snd inc)
    /\ Permutation (map snd inc) (map origin_of lg).
Proof.
intros WF Hlen.
destruct (mergeCallSites_merges fresh fresh_spec fn_args T F WF Hlen) as (u & F' & Hrun & Hres).
destruct (merge_result_redispatch T F u F' Hres)
  as (lg & F1 & dflt & Hpairs & Hfst & ND & Hred & _).
destruct (ret_map_facts lg ND) as (Hsorted & Hperm & Hkeys).
exists u, F', lg, F1, (discr_incoming 0 (ret_map lg [])), dflt,
       (switch_cases 0 (ret_map lg [])).
split; [exact Hrun|]. split; [exact Hpairs|]. split; [exact Hfst|].
split; [exact Hred|].
split.
{ rewrite discr_incoming_consts. f_equal. f_equal.
  rewrite (Permutation_length Hperm), length_map. reflexivity. }
split; [rewrite discr_incoming_blocks; exact Hsorted|].
rewrite discr_incoming_blocks. exact Hkeys.
Qed.

(** C9: every block that branches to the shared call block is an origin
    block, and control arriving from it leaves the call block through a
    case of the switch, never through the default edge. *)
Theorem default_edge_never_taken T F :
  wf fn_args F -> targets_closed F -> 2 <= length (collectCallSites T F) ->
  exists u F' lg F1 inc dflt cases,
    mergeCallSites fresh fn_args T F = Some (Some u, F')
    /\ split_pairs fresh (fresh (block_addrs F)) (collectCallSites T F)
                   (F ++ [mkBlock (fresh (block_addrs F)) []]) = Some (lg, F1)
    /\ redispatch (fresh (block_addrs F)) F' = Some (inc, dflt, cases)
    /\ (forall c P R, In (c, (P, R)) lg ->
          exists k, getIncomingValueForBlock inc P = Some (VConstant k)
                    /\ findCaseDest cases dflt k = CaseEdge R)
    /\ (forall b x, In b F' -> In x (insts b) ->
                    In (fresh (block_addrs F)) (successors (ikind x)) ->
                    exists c R k,
                      In (c, (baddr b, R)) lg
                      /\ getIncomingValueForBlock inc (baddr b) = Some (VConstant k)
                      /\ findCaseDest cases dflt k = CaseEdge R).
Proof.
intros WF Hcl Hlen.
destruct (mergeCallSites_merges fresh fresh_spec fn_args T F WF Hlen) as (u & F' & Hrun & Hres).
destruct (merge_result_redispatch T F u F' Hres)
  as (lg & F1 & dflt & Hpairs & Hfst & ND & Hred & Hpreds).
destruct (ret_map_facts lg ND) as (Hsorted & Hperm & Hkeys).
exists u, F', lg, F1, (discr_incoming 0 (ret_map lg [])), dflt,
       (switch_cases 0 (ret_map lg [])).
split; [exact Hrun|]. split; [exact Hpairs|]. split; [exact Hred|].
assert (Hcase : forall c P R, In (c, (P, R)) lg ->
          exists k, getIncomingValueForBlock (discr_incoming 0 (ret_map lg [])) P
                    = Some (VConstant k)
                    /\ findCaseDest (switch_cases 0 (ret_map lg [])) dflt k = CaseEdge R).
{ intros c P R Hin.
  destruct (redispatch_entry dflt (ret_map lg []) 0%Z P R) as (k & _ & H1 & H2).
  - apply StronglySorted_lt_NoDup, Hsorted.
  - apply (Permutation_in _ (Permutation_sym Hperm)).
    apply in_map_iff. exists (c, (P, R)). auto.
  - exists (APInt 32 k). auto. }
split; [exact Hcase|].
intros b x Hb Hx Hs.
assert (Ho := Hpreds Hcl b x Hb Hx Hs).
apply in_map_iff in Ho. destruct Ho as ([c [P R]] & EP & He).
unfold origin_of in EP. simpl in EP. subst P.
destruct (redispatch_entry dflt (ret_map lg []) 0%Z (baddr b) R) as (k & _ & H1 & H2).
- apply StronglySorted_lt_NoDup, Hsorted.
- apply (Permutation_in _ (Permutation_sym Hperm)).
  apply in_map_iff. exists (c, (baddr b, R)). auto.
- exists c, R, (APInt 32 k). auto.
Qed.
End Redispatch.

(** ** The argument PHI nodes *)

Lemma orig_map_get_notin lg : forall m c,
  ~ In c (map fst lg) -> AddrMap.get c (orig_map lg m) = AddrMap.get c m.
Proof.
unfold orig_map. induction lg as [|e lg IH]; intros m c H; simpl; [reflexivity|].
simpl in H. rewrite IH by tauto. apply AddrMapFacts.get_set_other. intuition congruence.
Qed.

Lemma orig_map_get_exact lg : forall m e,
  NoDup (map fst lg) -> In e lg ->
  AddrMap.get (fst e) (orig_map lg m) = Some (origin_of e).
Proof.
induction lg as [|e0 lg IH]; intros m e ND Hin; [destruct Hin|].
simpl in ND. apply NoDup_cons_iff in ND. destruct ND as [H0 ND].
destruct Hin as [<-|Hin].
- unfold orig_map. simpl. fold (orig_map lg (AddrMap.set (fst e0) (origin_of e0) m)).
  rewrite orig_map_get_notin by exact H0. apply AddrMapFacts.get_set_same.
- unfold orig_map. simpl. fold (orig_map lg (AddrMap.set (fst e0) (origin_of e0) m)).
  apply IH; assumption.
Qed.

Lemma lookup_by_origin (g : addr * (addr * addr) -> value) lg e :
  NoDup (map origin_of lg) -> In e lg ->
  getIncomingValueForBlock (map (fun e' => (g e', origin_of e')) lg) (origin_of e)
  = Some (g e).
Proof.
induction lg as [|e0 lg IH]; intros ND Hin; [destruct Hin|].
simpl in ND. apply NoDup_cons_iff in ND. destruct ND as [H0 ND]. simpl.
destruct Hin as [<-|Hin].
- rewrite Nat.eqb_refl. reflexivity.
- destruct (Nat.eqb_spec (origin_of e0) (origin_of e)) as [E|E].
  + exfalso. apply H0. rewrite E. apply in_map, Hin.
  + apply IH; assumption.
Qed.

Lemma collectCallSites_NoDup T F : NoDup (inst_addrs F) -> NoDup (collectCallSites T F).
Proof. intros ND. rewrite collectCallSites_filter. apply NoDup_map_filter, ND. Qed.

(** ** The grouping of [runOnFunction] *)

Lemma in_set {V} k (v : V) k0 v0 m :
  In (k, v) (AddrMap.set k0 v0 m) -> (k = k0 /\ v = v0) \/ In (k, v) m.
Proof.
induction m as [|[k' v'] m IH]; simpl.
- intros [E|[]]. inv E. auto.
- destruct (k0 <? k'); simpl.
  + intros [E|H]; [inv E; auto|auto].
  + destruct (k0 =? k'); simpl.
    * intros [E|H]; [inv E; auto|auto].
    * intros [E|H]; [auto|]. destruct (IH H); auto.
Qed.

Lemma get_Some_In {V} k (v : V) m : AddrMap.get k m = Some v -> In (k, v) m.
Proof.
induction m as [|[k' v'] m IH]; simpl; [discriminate|].
destruct (Nat.eqb_spec k k') as [->|N].
- intros E. inv E. left. reflexivity.
- intros H. right. apply IH, H.
Qed.

Lemma groupCallSites_fold isI F :
  groupCallSites isI F = fold_left (group_step isI) (all_insts F) [].
Proof.
unfold groupCallSites. generalize (@nil (addr * list addr)).
induction F as [|b F IH]; intros m; simpl; [reflexivity|].
unfold all_insts in *. simpl. rewrite fold_left_app. apply IH.
Qed.

Lemma group_step_eligible isI m x :
  group_step isI m x
  = if eligible isI x
    then match getCalledFunction (ikind x) with
         | Some f => AddrMap.push f (iaddr x) m
         | None => m
         end
    else m.
Proof.
unfold group_step, eligible. destruct x as [a k]. simpl.
destruct k as [callee args| | | | | |]; simpl; try reflexivity.
destruct callee; simpl; try reflexivity.
destruct (isI f); reflexivity.
Qed.

(** Every member of every callee group is an eligible call to the group's
    callee, and no group is keyed by an intrinsic. *)
Lemma groupCallSites_eligible isI F f l :
  In (f, l) (groupCallSites isI F) ->
  isI f = false
  /\ forall c, In c l ->
               exists x, In x (all_insts F) /\ iaddr x = c /\ eligible isI x = true
                         /\ getCalledFunction (ikind x) = Some f.
Proof.
rewrite groupCallSites_fold.
assert (H : forall seen todo m,
          (forall f l, In (f, l) m ->
             isI f = false
             /\ forall c, In c l ->
                  exists x, In x seen /\ iaddr x = c /\ eligible isI x = true
                            /\ getCalledFunction (ikind x) = Some f) ->
          forall f l, In (f, l) (fold_left (group_step isI) todo m) ->
             isI f = false
             /\ forall c, In c l ->
                  exists x, In x (seen ++ todo) /\ iaddr x = c /\ eligible isI x = true
                            /\ getCalledFunction (ikind x) = Some f).
{ intros seen todo. revert seen. induction todo as [|x todo IH]; intros seen m Hm f0 l0 Hin.
  - simpl in Hin. rewrite app_nil_r. apply Hm, Hin.
  - simpl in Hin.
    replace (seen ++ x :: todo) with ((seen ++ [x]) ++ todo)
      by (rewrite <- app_assoc; reflexivity).
    apply (IH (seen ++ [x]) (group_step isI m x)); [|exact Hin].
    clear f0 l0 Hin. intros f0 l0 Hin.
    assert (Hold : forall l1, In (f0, l1) m ->
              isI f0 = false
              /\ forall c, In c l1 ->
                   exists y, In y (seen ++ [x]) /\ iaddr y = c /\ eligible isI y = true
                             /\ getCalledFunction (ikind y) = Some f0).
    { intros l1 H1. destruct (Hm f0 l1 H1) as [Hi Hc]. split; [exact Hi|].
      intros c Hcin. destruct (Hc c Hcin) as (y & Hy & R).
      exists y. split; [apply in_or_app; left; exact Hy|exact R]. }
    rewrite group_step_eligible in Hin.
    destruct (eligible isI x) eqn:Eel; [|apply Hold, Hin].
    destruct (getCalledFunction (ikind x)) as [g|] eqn:Eg; [|apply Hold, Hin].
    unfold AddrMap.push in Hin. apply in_set in Hin.
    destruct Hin as [[-> ->]|Hin]; [|apply Hold, Hin].
    assert (Hig : isI g = false).
    { unfold eligible in Eel. rewrite Eg in Eel. apply andb_true_iff in Eel.
      destruct Eel as [_ Eel]. apply negb_true_iff in Eel. exact Eel. }
    split; [exact Hig|].
    assert (Hx : exists y, In y (seen ++ [x]) /\ iaddr y = iaddr x /\ eligible isI y = true
                           /\ getCalledFunction (ikind y) = Some g).
    { exists x. split; [apply in_or_app; right; left; reflexivity|auto]. }
    destruct (AddrMap.get g m) as [old|] eqn:Eget.
    + intros c Hc. apply in_app_iff in Hc. destruct Hc as [Hc|[<-|[]]]; [|exact Hx].
      apply get_Some_In in Eget. apply (proj2 (Hold old Eget) c Hc).
    + intros c [<-|[]]. exact Hx. }
intros Hin. apply (H [] (all_insts F) [] (fun f l (Hf : In (f, l) []) => match Hf with end) f l Hin).
Qed.

Lemma collectCallSites_spec T F c :
  In c (collectCallSites T F)
  <-> exists x args, In x (all_insts F) /\ iaddr x = c /\ ikind x = Call (VFunction T) args.
Proof.
rewrite collectCallSites_filter, in_map_iff. split.
- intros (x & E & Hx). apply filter_In in Hx. destruct Hx as [Hx Hs].
  apply is_call_site_kind in Hs. destruct Hs as (args & Ek). exists x, args. auto.
- intros (x & args & Hx & E & Ek). exists x. split; [exact E|].
  apply filter_In. split; [exact Hx|]. apply is_call_site_kind. eauto.
Qed.

(** ** What a merge does to the other call instructions *)

Section OtherCalls.
Variable fresh : list addr -> addr.
Hypothesis fresh_spec : forall l, ~ In (fresh l) l.
Variable fn_args : addr -> list typ.

Lemma merge_result_new_call T F u F' :
  merge_result fresh fn_args T F u F' -> ~ In u (collectCallSites T F).
Proof.
intros [M lg G1 G2 phis w s dflt tail EM Hpairs Hfst Inv EF' Hk NB NI Hu Hp Htail] Hin.
rewrite <- Hfst in Hin.
destruct (after_loop_sites T M _ F lg G1 G2 u Inv Hin) as (ci & args & H1 & _ & Ec & _).
apply Hu. rewrite inst_addrs_plug. simpl. rewrite <- inst_addrs_app.
unfold inst_addrs. rewrite <- Ec. apply in_map, H1.
Qed.

(** A call of [F] that is not a call site of [T] is still there after the
    merge, with the uses of merged calls among its operands renamed. *)
Lemma merge_result_keeps_call T F u F' y :
  merge_result fresh fn_args T F u F' ->
  In y (all_insts F) -> isCall y = true -> is_call_site T y = false ->
  In (rename_inst (collectCallSites T F) u y) (all_insts F').
Proof.
intros [M lg G1 G2 phis w s dflt tail EM Hpairs Hfst Inv EF' Hk NB NI Hu Hp Htail] Hy Hc Hs.
assert (Hin : In y (all_insts (G1 ++ G2))).
{ assert (H : In y (filter isCall (all_insts F))) by (apply filter_In; auto).
  rewrite <- (after_loop_calls _ _ _ _ _ _ _ Inv) in H. apply filter_In in H. tauto. }
assert (Hn : ~ In (iaddr y) (collectCallSites T F)).
{ intros Hi. rewrite <- Hfst in Hi.
  destruct (after_loop_sites T M _ F lg G1 G2 _ Inv Hi) as (ci & args & H1 & H2 & Ec & Ek).
  assert (NI1 : NoDup (inst_addrs (plug G1 M [] G2)))
    by (rewrite <- sF_inst_addrs; apply (li_insts _ _ _ _ _ _ _ Inv)).
  assert (E : y = ci).
  { apply (inst_eq_of_addr (plug G1 M [] G2)); auto;
      rewrite all_insts_plug; simpl; rewrite <- all_insts_app; assumption. }
  subst y. assert (Hs' : is_call_site T ci = true) by (apply is_call_site_kind; eauto).
  congruence. }
rewrite EF', all_insts_plug. rewrite all_insts_app in Hin. apply in_app_iff in Hin.
destruct Hin as [Hin|Hin].
- apply in_or_app. left. apply in_all_insts_rw. eauto.
- apply in_or_app. right. apply in_or_app. right. rewrite all_insts_app.
  apply in_or_app. left. apply in_all_insts_rw. eauto.
Qed.

(** Conversely, a call of the merged function is the unified call or a
    renamed call of [F]. *)
Lemma merge_result_call_origin T F u F' x :
  merge_result fresh fn_args T F u F' ->
  In x (all_insts F') -> isCall x = true ->
  (iaddr x = u /\ getCalledFunction (ikind x) = Some T)
  \/ exists y, In y (all_insts F) /\ isCall y = true
               /\ x = rename_inst (collectCallSites T F) u y.
Proof.
intros [M lg G1 G2 phis w s dflt tail EM Hpairs Hfst Inv EF' Hk NB NI Hu Hp Htail] Hx Hc.
assert (HG : forall y, In y (all_insts (G1 ++ G2)) ->
                       isCall (rename_inst (collectCallSites T F) u y) = true ->
                       In y (all_insts F) /\ isCall y = true).
{ intros y Hy Hcy.
  assert (Hcy' : isCall y = true)
    by (unfold isCall in *; destruct y as [a []]; simpl in *; congruence).
  split; [|exact Hcy'].
  assert (H : In y (filter isCall (all_insts (G1 ++ G2)))) by (apply filter_In; auto).
  rewrite (after_loop_calls _ _ _ _ _ _ _ Inv) in H. apply filter_In in H. tauto. }
rewrite EF', all_insts_plug in Hx. apply in_app_iff in Hx. destruct Hx as [Hx|Hx].
- apply in_all_insts_rw in Hx. destruct Hx as (y & Hy & _ & ->). right.
  exists y. destruct (HG y) as [H1 H2]; auto.
  rewrite all_insts_app. apply in_or_app. left. exact Hy.
- apply in_app_iff in Hx. destruct Hx as [Hx|Hx].
  + apply in_app_iff in Hx. destruct Hx as [Hx|[<-|[<-|[<-|[]]]]].
    * exfalso. apply in_map_iff in Hx. destruct Hx as (p & <- & Hpin).
      assert (HPHI := phis_are_PHI _ _ _ _ _ _ Hk Hpin).
      rewrite <- (rename_isa_PHI (collectCallSites T F) u p) in HPHI.
      apply isCall_nonphi in Hc. congruence.
    * discriminate.
    * left. auto.
    * discriminate.
  + rewrite all_insts_app in Hx. apply in_app_iff in Hx. destruct Hx as [Hx|Hx].
    * apply in_all_insts_rw in Hx. destruct Hx as (y & Hy & _ & ->). right.
      exists y. destruct (HG y) as [H1 H2]; auto.
      rewrite all_insts_app. apply in_or_app. right. exact Hy.
    * exfalso. destruct Htail as [(-> & _)|(i & -> & _)]; [destruct Hx|].
      destruct Hx as [<-|[]]. discriminate.
Qed.

Variable fn_isIntrinsic : addr -> bool.

End OtherCalls.

(** ** Ineligible calls through the merges of [runOnFunction] *)

Lemma rename_is_call_site cs u T y : is_call_site T (rename_inst cs u y) = is_call_site T y.
Proof.
rewrite <- !calls_fn_is_call_site. unfold calls_fn.
rewrite rename_getCalledFunction. reflexivity.
Qed.

Lemma ineligible_not_call_site isI T x :
  isI T = false -> eligible isI x = false -> is_call_site T x = false.
Proof.
intros HT He. destruct (is_call_site T x) eqn:Es; [|reflexivity].
apply is_call_site_kind in Es. destruct Es as (args & Ek).
unfold eligible in He. rewrite Ek in He. simpl in He. rewrite HT in He. discriminate.
Qed.

Lemma push_sorted k c m :
  StronglySorted lt (map fst m) -> StronglySorted lt (map fst (AddrMap.push k c m)).
Proof. intros H. unfold AddrMap.push. apply AddrMapFacts.set_sorted, H. Qed.

Lemma groupCallSites_sorted isI F : StronglySorted lt (map fst (groupCallSites isI F)).
Proof.
rewrite groupCallSites_fold.
assert (H : forall l m, StronglySorted lt (map fst m) ->
                        StronglySorted lt (map fst (fold_left (group_step isI) l m))).
{ induction l as [|x l IH]; intros m Hm; simpl; [exact Hm|].
  apply IH. rewrite group_step_eligible.
  destruct (eligible isI x); [|exact Hm].
  destruct (getCalledFunction (ikind x)); [|exact Hm].
  apply push_sorted, Hm. }
apply H. constructor.
Qed.

(** ** Checking well-formedness of a concrete function *)

Lemma nodupb_sound l : nodupb l = true -> NoDup l.
Proof.
induction l as [|x l IH]; simpl; intros H; constructor.
- apply andb_true_iff in H. destruct H as [H _]. apply negb_true_iff in H.
  intros Hi. apply existsb_eqb_In in Hi. congruence.
- apply IH. apply andb_true_iff in H. tauto.
Qed.

Lemma wfb_sound fn_args F : wfb fn_args F = true -> wf fn_args F.
Proof.
unfold wfb. intros H. repeat (apply andb_true_iff in H; destruct H as [H ?]).
constructor.
- apply nodupb_sound. assumption.
- apply nodupb_sound. assumption.
- apply Forall_forall. intros b Hb. unfold has_terminator.
  match goal with Hf : forallb _ F = true |- _ =>
    rewrite forallb_forall in Hf; specialize (Hf b Hb) end.
  destruct (getTerminator (insts b)); [discriminate|discriminate].
- apply Forall_forall. intros x Hx f args Ek.
  match goal with Hf : forallb _ (all_insts F) = true |- _ =>
    rewrite forallb_forall in Hf; specialize (Hf x Hx); rewrite Ek in Hf end.
  apply Nat.leb_le. assumption.
Qed.

Lemma targets_closedb_sound F : targets_closedb F = true -> targets_closed F.
Proof.
unfold targets_closedb, targets_closed. intros H x a Hx Ha.
rewrite forallb_forall in H. specialize (H x Hx).
rewrite forallb_forall in H. specialize (H a Ha).
apply existsb_eqb_In. exact H.
Qed.

Lemma wf_no_lone_phi fn_args F : wf fn_args F -> forall b, In b F -> ~ lone_phi b.
Proof.
intros [_ _ HT _] b Hb. apply lone_phi_no_terminator.
rewrite Forall_forall in HT. apply HT, Hb.
Qed.

(** ** Concrete functions *)

Lemma bump_fresh : forall l, ~ In (bump l) l.
Proof.
intros l Hi. unfold bump in Hi.
assert (H : Forall (fun k => k <= list_max l) l) by (apply list_max_le; lia).
rewrite Forall_forall in H. apply H in Hi. lia.
Qed.

Lemma three_blocks_wf : wf ex_params three_blocks.
Proof. apply wfb_sound. reflexivity. Qed.

Lemma three_blocks_sites : 2 <= length (collectCallSites ex_T three_blocks).
Proof. vm_compute. lia. Qed.

Example three_blocks_merged :
  exists F', mergeCallSites bump ex_params ex_T three_blocks = Some (Some 16, F')
             /\ find_block 31 F'
                = Some (mkBlock 31
                     [ mkInst 15 (PHI (IntegerTy 32)
                                      [(VArgument 0, 30); (VArgument 1, 20); (VArgument 2, 10)]);
                       mkInst 17 (PHI (IntegerTy 32)
                                      [(VConstant (APInt 32 0), 10);
                                       (VConstant (APInt 32 1), 20);
                                       (VConstant (APInt 32 2), 30)]);
                       mkInst 16 (Call (VFunction ex_T) [VInst 15]);
                       mkInst 19 (Switch (VInst 17) 35
                                         [(APInt 32 0, 34); (APInt 32 1, 33); (APInt 32 2, 32)]) ]).
Proof. eexists. split; vm_compute; reflexivity. Qed.

(** ** The claims the code does not meet as stated *)

(** With exactly one call site the result is that call, not null. *)
Lemma one_call_not_null : ~ few_sites_returns_null bump ex_params ex_T one_call.
Proof.
unfold few_sites_returns_null. intros H.
assert (L : length (collectCallSites ex_T one_call) < 2) by (vm_compute; lia).
specialize (H L). vm_compute in H. discriminate.
Qed.

Lemma three_blocks_run :
  mergeCallSites bump ex_params ex_T three_blocks = Some (Some 16, three_blocks_merged_fn).
Proof. vm_compute. reflexivity. Qed.

Lemma three_blocks_pairs :
  split_pairs bump (bump (block_addrs three_blocks)) (collectCallSites ex_T three_blocks)
              (three_blocks ++ [mkBlock (bump (block_addrs three_blocks)) []])
  = Some ([(1, (30, 32)); (4, (20, 33)); (7, (10, 34))], three_blocks_split).
Proof. vm_compute. reflexivity. Qed.

Lemma three_blocks_redispatch :
  redispatch (bump (block_addrs three_blocks)) three_blocks_merged_fn
  = Some ([(VConstant (APInt 32 0), 10); (VConstant (APInt 32 1), 20);
           (VConstant (APInt 32 2), 30)], 35,
          [(APInt 32 0, 34); (APInt 32 1, 33); (APInt 32 2, 32)]).
Proof. vm_compute. reflexivity. Qed.

(** The first collected call site lies in block 30, the block with the
    highest address; its origin block gets constant 2, not 0. *)
Lemma three_blocks_not_collection_order :
  ~ discriminator_in_collection_order bump ex_params ex_T three_blocks.
Proof.
unfold discriminator_in_collection_order. intros H.
pose proof (H _ _ _ _ _ _ _ three_blocks_run three_blocks_pairs three_blocks_redispatch)
  as H1.
vm_compute in H1. discriminate.
Qed.

(** ** The theorems at concrete functions *)

Lemma three_blocks_closed : targets_closed three_blocks.
Proof. apply targets_closedb_sound. reflexivity. Qed.

Lemma one_call_few : length (collectCallSites ex_T one_call) < 2.
Proof. vm_compute. lia. Qed.


Lemma intrinsic_calls_sites : 2 <= length (collectCallSites ex_I intrinsic_calls).
Proof. vm_compute. lia. Qed.

Lemma mergeCallSites_single_call_witness :
  wf ex_params three_blocks /\ 2 <= length (collectCallSites ex_T three_blocks)
  /\ exists u F' args,
       mergeCallSites bump ex_params ex_T three_blocks = Some (Some u, F')
       /\ calls_to ex_T F' = [mkInst u (Call (VFunction ex_T) args)].
Proof.
split; [exact three_blocks_wf|]. split; [exact three_blocks_sites|].
exact (mergeCallSites_single_call bump bump_fresh ex_params ex_T three_blocks
         three_blocks_wf three_blocks_sites).
Defined.

Lemma mergeCallSites_few_call_sites_witness :
  length (collectCallSites ex_T one_call) < 2
  /\ exists r, mergeCallSites bump ex_params ex_T one_call = Some (r, one_call)
               /\ (collectCallSites ex_T one_call = [] -> r = None)
               /\ (forall C, collectCallSites ex_T one_call = [C] -> r = Some C).
Proof.
split; [exact one_call_few|].
exact (mergeCallSites_few_call_sites bump ex_params one_call ex_T one_call_few).
Defined.

Lemma getUnreachableBlock_spec_witness :
  (forall b, In b three_blocks -> ~ lone_phi b)
  /\ (forall bs1 b bs2,
         three_blocks = bs1 ++ b :: bs2 -> lone_unreachable b ->
         (forall b', In b' bs1 -> ~ lone_unreachable b') ->
         getUnreachableBlock bump three_blocks = Some (baddr b, three_blocks))
  /\ ((forall b, In b three_blocks -> ~ lone_unreachable b) ->
      exists a i,
        ~ In a (block_addrs three_blocks) /\ ~ In i (inst_addrs three_blocks)
        /\ getUnreachableBlock bump three_blocks
           = Some (a, three_blocks ++ [mkBlock a [mkInst i Unreachable]])).
Proof.
split; [exact (wf_no_lone_phi ex_params three_blocks three_blocks_wf)|].
exact (getUnreachableBlock_spec bump bump_fresh three_blocks
         (wf_no_lone_phi ex_params three_blocks three_blocks_wf)).
Defined.

Lemma discriminator_in_address_order_witness :
  wf ex_params three_blocks /\ 2 <= length (collectCallSites ex_T three_blocks)
  /\ exists u F' lg F1 inc dflt cases,
       mergeCallSites bump ex_params ex_T three_blocks = Some (Some u, F')
       /\ split_pairs bump (bump (block_addrs three_blocks))
                      (collectCallSites ex_T three_blocks)
                      (three_blocks ++ [mkBlock (bump (block_addrs three_blocks)) []])
          = Some (lg, F1)
       /\ map fst lg = collectCallSites ex_T three_blocks
       /\ redispatch (bump (block_addrs three_blocks)) F' = Some (inc, dflt, cases)
       /\ map fst inc = map (fun k => VConstant (APInt 32 k)) (Zseq 0 (length lg))
       /\ StronglySorted lt (map snd inc)
       /\ Permutation (map snd inc) (map origin_of lg).
Proof.
split; [exact three_blocks_wf|]. split; [exact three_blocks_sites|].
exact (discriminator_in_address_order bump bump_fresh ex_params ex_T three_blocks
         three_blocks_wf three_blocks_sites).
Defined.

Lemma default_edge_never_taken_witness :
  wf ex_params three_blocks /\ targets_closed three_blocks
  /\ 2 <= length (collectCallSites ex_T three_blocks)
  /\ exists u F' lg F1 inc dflt cases,
       mergeCallSites bump ex_params ex_T three_blocks = Some (Some u, F')
       /\ split_pairs bump (bump (block_addrs three_blocks))
                      (collectCallSites ex_T three_blocks)
                      (three_blocks ++ [mkBlock (bump (block_addrs three_blocks)) []])
          = Some (lg, F1)
       /\ redispatch (bump (block_addrs three_blocks)) F' = Some (inc, dflt, cases)
       /\ (forall c P R, In (c, (P, R)) lg ->
             exists k, getIncomingValueForBlock inc P = Some (VConstant k)
                       /\ findCaseDest cases dflt k = CaseEdge R)
       /\ (forall b x, In b F' -> In x (insts b) ->
                       In (bump (block_addrs three_blocks)) (successors (ikind x)) ->
                       exists c R k,
                         In (c, (baddr b, R)) lg
                         /\ getIncomingValueForBlock inc (baddr b) = Some (VConstant k)
                         /\ findCaseDest cases dflt k = CaseEdge R).
Proof.
split; [exact three_blocks_wf|]. split; [exact three_blocks_closed|].
split; [exact three_blocks_sites|].
exact (default_edge_never_taken bump bump_fresh ex_params ex_T three_blocks
         three_blocks_wf three_blocks_closed three_blocks_sites).
Defined.

(** ** What the first loop keeps of the function *)

Lemma existsb_eqb_notin a l : ~ In a l -> existsb (Nat.eqb a) l = false.
Proof.
intros H. destruct (existsb (Nat.eqb a) l) eqn:E; [|reflexivity].
exfalso. apply H, existsb_eqb_In, E.
Qed.

Lemma filter_mem_incl (l0 l : list addr) :
  incl l l0 -> filter (fun a => existsb (Nat.eqb a) l0) l = l.
Proof.
induction l as [|a l IH]; simpl; intros H; [reflexivity|].
assert (E : existsb (Nat.eqb a) l0 = true)
  by (apply existsb_eqb_In, H; left; reflexivity).
rewrite E, IH; [reflexivity|]. intros x Hx. apply H. right. exact Hx.
Qed.

Lemma loop_keeps_init M F :
  ~ In M (block_addrs F) -> loop_keeps M (sF F) [] (sF (F ++ [mkBlock M []])).
Proof.
intros HM. constructor.
- intros a. rewrite !sF_block_addrs, block_addrs_app.
  destruct F; simpl; [discriminate|auto].
- unfold sF. rewrite !length_map, length_app. simpl. lia.
- rewrite !sF_block_addrs, block_addrs_app. intros a Ha. apply in_or_app. auto.
- rewrite !sF_block_addrs, block_addrs_app, filter_app.
  rewrite filter_mem_incl by apply incl_refl.
  simpl. rewrite (existsb_eqb_notin _ _ HM). apply app_nil_r.
- intros e [].
- intros x. rewrite !sF_all_insts, all_insts_app. unfold all_insts at 3. simpl.
  rewrite app_nil_r. auto.
- intros x. rewrite !sF_all_insts, all_insts_app. unfold all_insts at 2. simpl.
  rewrite app_nil_r. auto.
Qed.

Lemma all_insts_cons b F : all_insts (b :: F) = insts b ++ all_insts F.
Proof. reflexivity. Qed.

Lemma loop_keeps_step M F0 lg c ci G PR G' :
  loop_keeps M F0 lg G -> split_rel M ci G PR G' ->
  loop_keeps M F0 (lg ++ [(c, PR)]) G'.
Proof.
intros K Hrel. revert K.
destruct Hrel as [A P p q1 q2 B R b Hq HR Hb Ht]. intros [Khd Klen Kbl Kord Kres Kold Knew].
assert (HR0 : ~ In R (block_addrs F0)) by (intros Hi; apply HR, Kbl, Hi).
assert (Esub : forall x, In x (all_insts (A ++ mkBlock P (p ++ ci :: q1 ++ q2) :: B)) ->
                         In x (all_insts (A ++ mkBlock P (p ++ [mkInst b (Br M)])
                                            :: mkBlock R (q1 ++ ci :: q2) :: B))).
{ intros x. rewrite !all_insts_app, !all_insts_cons. simpl insts.
  rewrite !in_app_iff. simpl. rewrite !in_app_iff. simpl. tauto. }
assert (Esup : forall x, In x (all_insts (A ++ mkBlock P (p ++ [mkInst b (Br M)])
                                            :: mkBlock R (q1 ++ ci :: q2) :: B)) ->
                         In x (all_insts (A ++ mkBlock P (p ++ ci :: q1 ++ q2) :: B))
                         \/ x = mkInst b (Br M)).
{ intros x. rewrite !all_insts_app, !all_insts_cons. simpl insts.
  rewrite !in_app_iff. simpl. rewrite !in_app_iff. simpl.
  intros H. repeat match goal with H : _ \/ _ |- _ => destruct H end; auto 10.
  contradiction. }
constructor.
- intros a Ha. specialize (Khd a Ha). rewrite block_addrs_app in *.
  destruct A; simpl in *; exact Khd.
- rewrite !length_app in Klen. rewrite !length_app. simpl in *. lia.
- intros a Ha. specialize (Kbl a Ha). rewrite block_addrs_app in *.
  apply in_app_iff in Kbl. apply in_app_iff. simpl in *. tauto.
- rewrite block_addrs_app, filter_app in *. simpl in *.
  rewrite (existsb_eqb_notin _ _ HR0). exact Kord.
- intros e He. apply in_app_iff in He. destruct He as [He|[<-|[]]].
  + destruct (Kres e He) as [H1 H2]. split; [|exact H2].
    rewrite block_addrs_app in *. apply in_app_iff in H1. apply in_app_iff.
    simpl in *. tauto.
  + split; [|exact HR0]. unfold resume_of. simpl.
    rewrite block_addrs_app. apply in_app_iff. simpl. tauto.
- intros x Hx. apply Esub, Kold, Hx.
- intros x Hx. destruct (Esup x Hx) as [H| ->].
  + apply Knew, H.
  + right. split; [reflexivity|]. simpl. intros Hi. apply Hb.
    unfold inst_addrs in *. apply in_map_iff in Hi. destruct Hi as (y & Ey & Hy).
    rewrite <- Ey. apply in_map, Kold, Hy.
Qed.

Section FirstLoopKeeps.
Variable fresh : list addr -> addr.
Hypothesis fresh_spec : forall l, ~ In (fresh l) l.
Variable fn_args : addr -> list typ.

Lemma split_pairs_keeps T M closed calls0 F0 todo : forall lg F lg' F',
  loop_inv T M closed calls0 lg todo (sF F) ->
  loop_keeps M F0 lg (sF F) ->
  split_pairs fresh M todo F = Some (lg', F') ->
  loop_keeps M F0 (lg ++ lg') (sF F').
Proof.
induction todo as [|c todo IH]; intros lg F lg' F' Inv K Hrun.
- simpl in Hrun. inv Hrun. rewrite app_nil_r. exact K.
- assert (Hc : In c (map iaddr (filter (is_call_site T) calls0))).
  { rewrite (li_sites _ _ _ _ _ _ _ Inv). apply in_or_app. right. left. reflexivity. }
  apply in_map_iff in Hc. destruct Hc as (ci & Ec & Hci).
  apply filter_In in Hci. destruct Hci as [Hci Hsite].
  rewrite <- (li_calls _ _ _ _ _ _ _ Inv) in Hci.
  apply filter_In in Hci. destruct Hci as [Hci HciC].
  apply in_all_insts_sF in Hci; [|apply isCall_nonphi, HciC].
  destruct (split_call_site_sim fresh fresh_spec M F ci) as (PR & F1 & Hrun1 & Hrel).
  + rewrite <- sF_block_addrs. apply (li_blocks _ _ _ _ _ _ _ Inv).
  + rewrite <- sF_inst_addrs. apply (li_insts _ _ _ _ _ _ _ Inv).
  + exact Hci.
  + apply isCall_nonphi, HciC.
  + apply isCall_nonterm, HciC.
  + intros b Hb Hin. apply has_terminator_sB.
    apply (li_term _ _ _ _ _ _ _ Inv); [apply in_map, Hb|].
    intros EM.
    assert (E : sB b = mkBlock M []).
    { apply (block_eq_of_addr (sF F)); auto.
      - apply (li_blocks _ _ _ _ _ _ _ Inv).
      - apply in_map, Hb.
      - apply (li_M _ _ _ _ _ _ _ Inv). }
    apply (f_equal insts) in E. simpl in E.
    destruct (insts b); [destruct Hin | discriminate].
  + assert (Inv1 := loop_inv_step _ _ _ _ _ _ _ _ _ _ _ Inv Ec Hsite Hrel).
    assert (K1 := loop_keeps_step M F0 lg c ci _ _ _ K Hrel).
    simpl in Hrun. rewrite Ec in Hrun1. rewrite (bind_eq _ _ _ _ _ Hrun1) in Hrun.
    apply bind_Some in Hrun. destruct Hrun as (lg1 & F2 & Hrun2 & Hret).
    unfold ret in Hret. inv Hret.
    specialize (IH _ _ _ _ Inv1 K1 Hrun2).
    rewrite <- app_assoc in IH. exact IH.
Qed.

(** The first loop of a merge, run on a well-formed function. *)
Lemma first_loop_keeps T F lg F1 :
  wf fn_args F ->
  split_pairs fresh (fresh (block_addrs F)) (collectCallSites T F)
              (F ++ [mkBlock (fresh (block_addrs F)) []]) = Some (lg, F1) ->
  loop_keeps (fresh (block_addrs F)) (sF F) lg (sF F1).
Proof.
intros WF Hrun.
apply (split_pairs_keeps T (fresh (block_addrs F)) (targets_closed F)
         (filter isCall (all_insts F)) (sF F) (collectCallSites T F) []
         (F ++ [mkBlock (fresh (block_addrs F)) []]) lg F1).
- apply (initial_inv fresh fresh_spec fn_args T F WF).
- apply loop_keeps_init, fresh_spec.
- exact Hrun.
Qed.
End FirstLoopKeeps.

(** ** The contract of [mergeCallSites] *)

Lemma calls_to_collect T F : collectCallSites T F = map iaddr (calls_to T F).
Proof.
rewrite collectCallSites_filter. unfold calls_to. f_equal.
apply filter_ext. intros x. symmetry. apply calls_fn_is_call_site.
Qed.

Lemma calls_to_kind T F x :
  In x (calls_to T F) -> exists args, ikind x = Call (VFunction T) args.
Proof.
unfold calls_to. intros H. apply filter_In in H. destruct H as [_ H].
rewrite calls_fn_is_call_site in H. apply is_call_site_kind, H.
Qed.

Section Contract.
Variable fresh : list addr -> addr.
Hypothesis fresh_spec : forall l, ~ In (fresh l) l.
Variable fn_args : addr -> list typ.

Lemma mergeCallSites_contract T F :
  wf fn_args F ->
  exists r F',
    mergeCallSites fresh fn_args T F = Some (r, F')
    /\ wf fn_args F'
    /\ match r with
       | None => collectCallSites T F = [] /\ F' = F /\ calls_to T F' = []
       | Some u => collectCallSites T F <> []
                   /\ exists args, calls_to T F' = [mkInst u (Call (VFunction T) args)]
       end.
Proof.
intros WF. destruct (collectCallSites T F) as [|c [|c' cs]] eqn:E.
- exists None, F. split; [apply mergeCallSites_none, E|]. split; [exact WF|].
  repeat split. rewrite calls_to_collect in E.
  destruct (calls_to T F); [reflexivity|discriminate].
- exists (Some c), F. split; [apply mergeCallSites_single, E|]. split; [exact WF|].
  split; [discriminate|].
  rewrite calls_to_collect in E. destruct (calls_to T F) as [|x [|y l]] eqn:Ec; try discriminate.
  destruct (calls_to_kind T F x) as (args & Ek); [rewrite Ec; left; reflexivity|].
  exists args. destruct x as [a k]. simpl in *. inv E. reflexivity.
- destruct (mergeCallSites_merges fresh fresh_spec fn_args T F WF) as (u & F' & Hrun & Hres).
  { rewrite E. simpl. lia. }
  exists (Some u), F'. split; [exact Hrun|].
  split; [apply (merge_result_wf fresh fn_args T F u F' WF Hres)|].
  split; [rewrite <- E; rewrite E; discriminate|].
  apply (merge_result_calls_to fresh fn_args T F u F' Hres).
Qed.

(** X1: on a well-formed function [mergeCallSites] always returns, and
    the function it leaves is well-formed again: block and instruction
    addresses are still unique, every block (the new call block, the origin
    blocks and the resume blocks included) ends in a terminator, and every
    direct call passes at least as many arguments as its callee has
    parameters. *)
Theorem mergeCallSites_preserves_wf T F :
  wf fn_args F ->
  exists r F', mergeCallSites fresh fn_args T F = Some (r, F') /\ wf fn_args F'.
Proof.
intros WF. destruct (mergeCallSites_contract T F WF) as (r & F' & Hrun & WF' & _).
exists r, F'. auto.
Qed.

(** X2: the contract in the doc comment of [mergeCallSites], for every
    number of call sites: the result is null exactly when [T] is not called
    (and then the function is left as it is); otherwise the result is a call
    to [T] and it is the only instruction of the resulting function whose
    called function is [T]. *)
Theorem mergeCallSites_returns_only_call T F :
  wf fn_args F ->
  exists r F',
    mergeCallSites fresh fn_args T F = Some (r, F')
    /\ (r = None <-> collectCallSites T F = [])
    /\ (r = None -> F' = F /\ calls_to T F' = [])
    /\ (forall u, r = Some u ->
          exists args, calls_to T F' = [mkInst u (Call (VFunction T) args)]).
Proof.
intros WF. destruct (mergeCallSites_contract T F WF) as (r & F' & Hrun & _ & Hr).
exists r, F'. split; [exact Hrun|]. destruct r as [u|].
- destruct Hr as (Hne & args & Hc). split; [split; [discriminate|contradiction]|].
  split; [discriminate|]. intros u' E. inv E. exists args. exact Hc.
- destruct Hr as (He & -> & Hc). split; [tauto|]. split; [auto|]. discriminate.
Qed.

(** X3: [mergeCallSites] is idempotent: a second run for the same target
    on the function the first run leaves returns the same instruction (or
    null again) and changes nothing. *)
Theorem mergeCallSites_idempotent T F :
  wf fn_args F ->
  exists r F',
    mergeCallSites fresh fn_args T F = Some (r, F')
    /\ mergeCallSites fresh fn_args T F' = Some (r, F').
Proof.
intros WF. destruct (mergeCallSites_contract T F WF) as (r & F' & Hrun & _ & Hr).
exists r, F'. split; [exact Hrun|]. destruct r as [u|].
- destruct Hr as (_ & args & Hc). apply mergeCallSites_single.
  rewrite calls_to_collect, Hc. reflexivity.
- destruct Hr as (_ & _ & Hc). apply mergeCallSites_none.
  rewrite calls_to_collect, Hc. reflexivity.
Qed.
End Contract.

(** ** [getUnreachableBlock]: repeated calls and the assertion *)

Lemma find_unreachable_fails F :
  find_unreachable F = None
  <-> exists bs1 b bs2, F = bs1 ++ b :: bs2 /\ lone_phi b
                        /\ forall b', In b' bs1 -> ~ lone_unreachable b'.
Proof.
induction F as [|BB F IH]; simpl.
- split; [discriminate|]. intros (bs1 & b & bs2 & E & _). destruct bs1; discriminate.
- assert (Hrec : ~ lone_phi BB -> ~ lone_unreachable BB ->
                 (find_unreachable F = None
                  <-> exists bs1 b bs2, BB :: F = bs1 ++ b :: bs2 /\ lone_phi b
                                        /\ forall b', In b' bs1 -> ~ lone_unreachable b')).
  { intros Np Nu. rewrite IH. split.
    - intros (bs1 & b & bs2 & E & Hb & Hno). exists (BB :: bs1), b, bs2.
      split; [rewrite E; reflexivity|]. split; [exact Hb|].
      intros b' [<-|Hb']; auto.
    - intros (bs1 & b & bs2 & E & Hb & Hno). destruct bs1 as [|b0 bs1]; simpl in E; inv E.
      + contradiction.
      + exists bs1, b, bs2. split; [reflexivity|]. split; [exact Hb|].
        intros b' Hb'. apply Hno. right. exact Hb'. }
  destruct (insts BB) as [|x [|y l]] eqn:E; simpl.
  + apply Hrec; intros (i & H); try destruct H as (ty & inc & H); congruence.
  + destruct x as [a k]. unfold first_non_phi. simpl.
    destruct k; simpl;
      try (apply Hrec; intros (i & H); try destruct H as (ty' & inc' & H); congruence).
    * split; [intros _|reflexivity]. exists [], BB, F. split; [reflexivity|].
      split; [exists a, ty, incoming; exact E|]. intros b' [].
    * split; [discriminate|]. intros (bs1 & b & bs2 & E' & Hb & Hno).
      exfalso. destruct bs1 as [|b0 bs1]; simpl in E'; inv E'.
      -- destruct Hb as (i & ty & inc & H). congruence.
      -- apply (Hno b0); [left; reflexivity|]. exists a. exact E.
  + apply Hrec; intros (i & H); try destruct H as (ty & inc & H); congruence.
Qed.

(** X4: the assertion of [getUnreachableBlock] ([getFirstNonPHI] is
    null) fires exactly when scanning the blocks in function order meets a
    block made of a lone PHI node before any block made of a lone
    [unreachable]; in every other case the function returns a block. *)
Theorem getUnreachableBlock_assertion (fresh : list addr -> addr) F :
  getUnreachableBlock fresh F = None
  <-> exists bs1 b bs2, F = bs1 ++ b :: bs2 /\ lone_phi b
                        /\ forall b', In b' bs1 -> ~ lone_unreachable b'.
Proof.
rewrite <- find_unreachable_fails. unfold getUnreachableBlock, bind.
destruct (find_unreachable F) as [[a|]|]; split; try discriminate; auto.
Qed.

Section UnreachableAgain.
Variable fresh : list addr -> addr.
Hypothesis fresh_spec : forall l, ~ In (fresh l) l.

(** X5: a second call of [getUnreachableBlock] returns the block the
    first call returned and changes nothing; that block is a block of the
    function and consists of a single [unreachable]. *)
Theorem getUnreachableBlock_idempotent F :
  (forall b, In b F -> ~ lone_phi b) ->
  exists a F',
    getUnreachableBlock fresh F = Some (a, F')
    /\ getUnreachableBlock fresh F' = Some (a, F')
    /\ exists b, In b F' /\ baddr b = a /\ lone_unreachable b.
Proof.
intros Hphi. destruct (first_lone_unreachable F) as [(bs1 & b & bs2 & E & Hb & Hno)|Hno].
- subst F.
  assert (H : getUnreachableBlock fresh (bs1 ++ b :: bs2) = Some (baddr b, bs1 ++ b :: bs2)).
  { apply getUnreachableBlock_found; auto.
    intros b' Hb'. apply Hphi. apply in_or_app. left. exact Hb'. }
  exists (baddr b), (bs1 ++ b :: bs2). split; [exact H|]. split; [exact H|].
  exists b. split; [apply in_or_app; right; left; reflexivity|]. auto.
- set (nb := mkBlock (fresh (block_addrs F)) [mkInst (fresh (inst_addrs F)) Unreachable]).
  assert (Hnb : lone_unreachable nb) by (eexists; reflexivity).
  exists (fresh (block_addrs F)), (F ++ [nb]).
  split; [apply (getUnreachableBlock_created fresh fresh_spec F Hphi Hno)|].
  split; [apply (getUnreachableBlock_found fresh F nb [] Hphi Hno Hnb)|].
  exists nb. split; [apply in_or_app; right; left; reflexivity|]. auto.
Qed.
End UnreachableAgain.

(** ** Call sites of other callees *)

Lemma all_insts_rw cs u G : all_insts (map (on_insts (rw cs u)) G) = rw cs u (all_insts G).
Proof.
induction G as [|b G IH]; [reflexivity|].
simpl map. rewrite !all_insts_cons, rw_app, IH. reflexivity.
Qed.

Lemma sites_rw T' cs u l :
  (forall x, In x l -> In (iaddr x) cs -> is_call_site T' x = false) ->
  map iaddr (filter (is_call_site T') (rw cs u l))
  = map iaddr (filter (is_call_site T') l).
Proof.
unfold rw. induction l as [|x l IH]; intros H; [reflexivity|].
assert (IH' := IH (fun y Hy => H y (or_intror Hy))).
simpl. destruct (existsb (Nat.eqb (iaddr x)) cs) eqn:Ex; simpl.
- rewrite (H x (or_introl eq_refl)) by (apply existsb_eqb_In, Ex). exact IH'.
- rewrite rename_is_call_site. destruct (is_call_site T' x); simpl; [f_equal|]; exact IH'.
Qed.

Lemma after_loop_site_kind T M closed F lg G1 G2 x :
  loop_inv T M closed (filter isCall (all_insts F)) lg [] (sF (plug G1 M [] G2)) ->
  In x (all_insts (G1 ++ G2)) -> In (iaddr x) (map fst lg) ->
  exists args, ikind x = Call (VFunction T) args.
Proof.
intros Inv Hx Hc.
assert (NI := li_insts _ _ _ _ _ _ _ Inv). rewrite sF_inst_addrs in NI.
assert (Eall : all_insts (plug G1 M [] G2) = all_insts (G1 ++ G2))
  by (rewrite all_insts_plug, all_insts_app; reflexivity).
destruct (after_loop_sites T M closed F lg G1 G2 _ Inv Hc)
  as (ci & args & H1 & H2 & Ec & Ek).
assert (E : x = ci).
{ apply (inst_eq_of_addr (plug G1 M [] G2)); rewrite ?Eall; auto. }
subst x. exists args. exact Ek.
Qed.

Lemma is_call_site_other T T' x args :
  ikind x = Call (VFunction T) args -> T' <> T -> is_call_site T' x = false.
Proof.
intros Ek N. unfold is_call_site. rewrite Ek. simpl.
apply Nat.eqb_neq. congruence.
Qed.

Lemma is_call_site_PHI T x : isa_PHI (ikind x) = true -> is_call_site T x = false.
Proof. destruct x as [a []]; simpl; try discriminate. reflexivity. Qed.

Lemma merge_result_other_sites fresh fn_args T F u F' T' :
  merge_result fresh fn_args T F u F' -> T' <> T ->
  collectCallSites T' F' = collectCallSites T' F.
Proof.
intros [M lg G1 G2 phis w s dflt tail EM Hpairs Hfst Inv EF' Hk NB NI Hu Hp Htail] N.
set (cs := collectCallSites T F) in *.
rewrite !collectCallSites_filter.
rewrite EF', all_insts_plug, !all_insts_app, !all_insts_rw.
rewrite !filter_app, !map_app.
assert (HG : forall l, incl l (all_insts (G1 ++ G2)) ->
             map iaddr (filter (is_call_site T') (rw cs u l))
             = map iaddr (filter (is_call_site T') l)).
{ intros l Hsub. apply sites_rw. intros x Hx Hc. rewrite <- Hfst in Hc.
  destruct (after_loop_site_kind _ _ _ _ _ _ _ _ Inv (Hsub _ Hx) Hc) as (args & Ek).
  apply (is_call_site_other T T' x args Ek N). }
rewrite (HG (all_insts G1)), (HG (all_insts G2)).
2:{ intros x Hx. rewrite all_insts_app. apply in_or_app. right. exact Hx. }
2:{ intros x Hx. rewrite all_insts_app. apply in_or_app. left. exact Hx. }
assert (Ephis : filter (is_call_site T') (map (rename_inst cs u) phis) = []).
{ apply filter_nil. intros x Hx. apply in_map_iff in Hx. destruct Hx as (p & <- & Hpin).
  apply is_call_site_PHI. rewrite rename_isa_PHI. apply (phis_are_PHI _ _ _ _ _ _ Hk Hpin). }
rewrite Ephis.
assert (Etail : filter (is_call_site T') (all_insts tail) = []).
{ destruct Htail as [(-> & _)|(i & -> & _)]; reflexivity. }
rewrite Etail.
assert (Eu : is_call_site T' (mkInst u (Call (VFunction T) (map (fun p => VInst (iaddr p)) phis)))
             = false).
{ eapply is_call_site_other; [reflexivity|exact N]. }
simpl. rewrite Eu. simpl. rewrite app_nil_r, <- map_app, <- filter_app, <- all_insts_app.
rewrite <- (filter_filter_sub (is_call_site T') isCall (all_insts (G1 ++ G2)))
  by apply is_call_site_isCall.
rewrite (after_loop_calls _ _ _ _ _ _ _ Inv).
rewrite filter_filter_sub by apply is_call_site_isCall. reflexivity.
Qed.

Section OtherCallees.
Variable fresh : list addr -> addr.
Hypothesis fresh_spec : forall l, ~ In (fresh l) l.
Variable fn_args : addr -> list typ.

Lemma mergeCallSites_other_sites T F T' r F' :
  wf fn_args F -> T' <> T ->
  mergeCallSites fresh fn_args T F = Some (r, F') ->
  collectCallSites T' F' = collectCallSites T' F.
Proof.
intros WF N Hrun. destruct (le_lt_dec 2 (length (collectCallSites T F))) as [L|L].
- destruct (mergeCallSites_merges fresh fresh_spec fn_args T F WF L) as (u & F1 & Hrun1 & Hres).
  rewrite Hrun1 in Hrun. inv Hrun.
  apply (merge_result_other_sites fresh fn_args T F u F' T' Hres N).
- destruct (mergeCallSites_few fresh fn_args F T L) as (r1 & Hrun1).
  rewrite Hrun1 in Hrun. inv Hrun. reflexivity.
Qed.

(** X6: merging the call sites of [T] leaves the call sites of every
    other callee as they were: for each function [T'] other than [T], the
    calls to [T'] of the resulting function are the calls to [T'] of the
    original function, at the same addresses and in the same order. *)
Theorem mergeCallSites_keeps_other_callees T F T' :
  wf fn_args F -> T' <> T ->
  exists r F', mergeCallSites fresh fn_args T F = Some (r, F')
               /\ collectCallSites T' F' = collectCallSites T' F.
Proof.
intros WF N. destruct (mergeCallSites_total fresh fresh_spec fn_args T F WF)
  as (r & F' & Hrun & _).
exists r, F'. split; [exact Hrun|].
apply (mergeCallSites_other_sites T F T' r F' WF N Hrun).
Qed.
End OtherCallees.

(** ** The callee groups of [runOnFunction] *)

Lemma get_push f g c m :
  AddrMap.get f (AddrMap.push g c m)
  = if f =? g
    then Some (match AddrMap.get g m with Some l => l ++ [c] | None => [] ++ [c] end)
    else AddrMap.get f m.
Proof.
unfold AddrMap.push. destruct (Nat.eqb_spec f g) as [->|N].
- rewrite AddrMapFacts.get_set_same. reflexivity.
- apply AddrMapFacts.get_set_other, N.
Qed.

Lemma group_step_get isI f m x :
  AddrMap.get f (group_step isI m x)
  = if negb (isI f) && is_call_site f x
    then Some (match AddrMap.get f m with Some l => l | None => [] end ++ [iaddr x])
    else AddrMap.get f m.
Proof.
destruct x as [a k]. unfold group_step, is_call_site. simpl.
destruct k as [[i|n|c|g|n|n] args| | | | | |]; simpl;
  rewrite ?andb_false_r; try reflexivity.
destruct (Nat.eqb_spec g f) as [->|N].
- destruct (isI f); simpl; [reflexivity|].
  rewrite get_push, Nat.eqb_refl. destruct (AddrMap.get f m); reflexivity.
- rewrite andb_false_r. destruct (isI g); [reflexivity|].
  rewrite get_push. destruct (Nat.eqb_spec f g); [congruence|reflexivity].
Qed.

Lemma fold_group_step_get isI f l : forall m,
  AddrMap.get f (fold_left (group_step isI) l m)
  = match (if isI f then [] else map iaddr (filter (is_call_site f) l)) with
    | [] => AddrMap.get f m
    | new => Some (match AddrMap.get f m with Some old => old | None => [] end ++ new)
    end.
Proof.
induction l as [|x l IH]; intros m; simpl.
- destruct (isI f); reflexivity.
- rewrite IH, group_step_get. destruct (isI f); simpl; [reflexivity|].
  destruct (is_call_site f x); simpl; [|reflexivity].
  destruct (map iaddr (filter (is_call_site f) l)) as [|c cs].
  + reflexivity.
  + rewrite <- app_assoc. reflexivity.
Qed.

Lemma groupCallSites_get isI F f :
  AddrMap.get f (groupCallSites isI F)
  = if isI f then None
    else match collectCallSites f F with
         | [] => None
         | l => Some l
         end.
Proof.
rewrite groupCallSites_fold, fold_group_step_get, collectCallSites_filter. simpl.
destruct (isI f); [reflexivity|].
destruct (map iaddr (filter (is_call_site f) (all_insts F))); reflexivity.
Qed.

Lemma In_get_NoDup {V} k (v : V) m :
  NoDup (map fst m) -> In (k, v) m -> AddrMap.get k m = Some v.
Proof.
induction m as [|[k' v'] m IH]; simpl; intros ND H; [contradiction|].
apply NoDup_cons_iff in ND. destruct ND as [Hk ND].
destruct H as [E|H].
- inv E. rewrite Nat.eqb_refl. reflexivity.
- destruct (Nat.eqb_spec k k') as [->|N]; [|apply IH; assumption].
  exfalso. apply Hk. apply (in_map fst _ _ H).
Qed.

Lemma groupCallSites_in isI F f l :
  In (f, l) (groupCallSites isI F)
  <-> isI f = false /\ l = collectCallSites f F /\ l <> [].
Proof.
split.
- intros H. apply In_get_NoDup in H.
  2:{ apply StronglySorted_lt_NoDup, groupCallSites_sorted. }
  rewrite groupCallSites_get in H. destruct (isI f); [discriminate|].
  destruct (collectCallSites f F) eqn:E; inv H.
  repeat split. discriminate.
- intros (HI & -> & Hne). apply get_Some_In. rewrite groupCallSites_get, HI.
  destruct (collectCallSites f F); [contradiction|reflexivity].
Qed.

(** X7: the callee groups built by the first loop of [runOnFunction]:
    there is a group for [f] exactly when [f] is not an intrinsic and is
    called directly somewhere in the function; the group then lists all the
    direct calls to [f], in function order, that is, the very call sites
    [mergeCallSites] collects for [f]; and the groups are held in ascending
    order of callee address, one per callee. *)
Theorem groupCallSites_spec (isI : addr -> bool) F :
  (forall f l, In (f, l) (groupCallSites isI F)
               <-> isI f = false /\ l = collectCallSites f F /\ l <> [])
  /\ StronglySorted lt (map fst (groupCallSites isI F)).
Proof.
split; [|apply groupCallSites_sorted].
intros f l. apply groupCallSites_in.
Qed.

(** ** The shape of the call block *)

Lemma arg_phi_kinds_shape F1 orig cs params : forall argCtr,
  Forall2 (fun k ty => exists inc, k = PHI ty inc /\ length inc = length cs)
          (arg_phi_kinds F1 orig cs params argCtr) params.
Proof.
induction params as [|ty ps IH]; intros argCtr; simpl; constructor; [|apply IH].
eexists. split; [reflexivity|]. unfold phi_incoming. apply length_map.
Qed.

Lemma renamed_phis_shape cs u n phis kinds (params : list typ) :
  map ikind phis = kinds ->
  Forall2 (fun k ty => exists inc, k = PHI ty inc /\ length inc = n) kinds params ->
  Forall2 (fun p ty => exists inc, ikind p = PHI ty inc /\ length inc = n)
          (map (rename_inst cs u) phis) params.
Proof.
intros <- H. revert params H. induction phis as [|p phis IH]; intros params H; inv H; simpl.
- constructor.
- constructor; [|apply IH; assumption].
  destruct H2 as (inc & Ek & Hlen). simpl. rewrite Ek. simpl.
  eexists. split; [reflexivity|]. rewrite length_map. exact Hlen.
Qed.

Lemma loop_keeps_inst_addrs M F lg G :
  loop_keeps M (sF F) lg (sF G) -> incl (inst_addrs F) (inst_addrs G).
Proof.
intros K i Hi. rewrite <- sF_inst_addrs in *. unfold inst_addrs in *.
apply in_map_iff in Hi. destruct Hi as (x & <- & Hx).
apply in_map. apply (lk_old _ _ _ _ K), Hx.
Qed.

Lemma loop_keeps_block_addrs M F lg G :
  loop_keeps M (sF F) lg (sF G) -> incl (block_addrs F) (block_addrs G).
Proof.
intros K. rewrite <- (sF_block_addrs F), <- (sF_block_addrs G).
apply (lk_blocks _ _ _ _ K).
Qed.

Lemma ret_map_length lg : NoDup (map origin_of lg) -> length (ret_map lg []) = length lg.
Proof.
intros ND. destruct (ret_map_facts lg ND) as (_ & Hperm & _).
rewrite (Permutation_length Hperm). apply length_map.
Qed.

Lemma discr_incoming_length ctr kvs : length (discr_incoming ctr kvs) = length kvs.
Proof.
rewrite <- (length_map snd), discr_incoming_blocks. apply length_map.
Qed.

Lemma switch_cases_length ctr kvs : length (switch_cases ctr kvs) = length kvs.
Proof.
rewrite <- (length_map snd), switch_cases_targets. apply length_map.
Qed.

Section CallBlock.
Variable fresh : list addr -> addr.
Hypothesis fresh_spec : forall l, ~ In (fresh l) l.
Variable fn_args : addr -> list typ.

(** X8: the call block built by a merge of [K >= 2] call sites is a new
    block whose content is, in this order: one PHI node per parameter of
    [T], of the parameter's type and with [K] incoming entries; the
    discriminator PHI node, of type [i32], with [K] incoming entries; the
    unified call, a new instruction whose arguments are the parameter PHI
    nodes in order; and a switch on the discriminator with [K] cases.  So
    all PHI nodes lead the block and the switch terminates it. *)
Theorem mergeCallSites_call_block T F :
  wf fn_args F -> 2 <= length (collectCallSites T F) ->
  exists u F' phis w inc s dflt cases,
    mergeCallSites fresh fn_args T F = Some (Some u, F')
    /\ ~ In (fresh (block_addrs F)) (block_addrs F)
    /\ find_block (fresh (block_addrs F)) F'
       = Some (mkBlock (fresh (block_addrs F))
                 (phis ++ [mkInst w (PHI (IntegerTy 32) inc);
                           mkInst u (Call (VFunction T) (map (fun p => VInst (iaddr p)) phis));
                           mkInst s (Switch (VInst w) dflt cases)]))
    /\ Forall2 (fun p ty => exists inc', ikind p = PHI ty inc'
                                         /\ length inc' = length (collectCallSites T F))
               phis (fn_args T)
    /\ length inc = length (collectCallSites T F)
    /\ length cases = length (collectCallSites T F)
    /\ ~ In u (inst_addrs F).
Proof.
intros WF Hlen.
destruct (mergeCallSites_merges fresh fresh_spec fn_args T F WF Hlen) as (u & F' & Hrun & Hres).
destruct Hres as [M lg G1 G2 phis w s dflt tail EM Hpairs Hfst Inv EF' Hk NB NI Hu Hp Htail].
subst M.
assert (K := first_loop_keeps fresh fresh_spec fn_args T F lg _ WF Hpairs).
set (cs := collectCallSites T F) in *. set (M := fresh (block_addrs F)) in *.
assert (Elg : length (ret_map lg []) = length cs).
{ rewrite ret_map_length by apply (li_nodup _ _ _ _ _ _ _ Inv).
  rewrite <- Hfst. symmetry. apply length_map. }
exists u, F', (map (rename_inst cs u) phis), w, (discr_incoming 0 (ret_map lg [])),
  s, dflt, (switch_cases 0 (ret_map lg [])).
split; [exact Hrun|]. split; [apply fresh_spec|]. split; [|split; [|split; [|split]]].
- rewrite EF'. unfold plug. rewrite map_map. simpl.
  apply find_block_here; [|reflexivity].
  rewrite EF', block_addrs_plug in NB. apply NoDup_mid in NB. apply NB.
- apply (renamed_phis_shape cs u (length cs) phis _ (fn_args T) Hk).
  apply arg_phi_kinds_shape.
- rewrite discr_incoming_length. exact Elg.
- rewrite switch_cases_length. exact Elg.
- intros Hi. apply Hu. apply (loop_keeps_inst_addrs _ _ _ _ K), Hi.
Qed.
End CallBlock.

(** ** Origin blocks, resume blocks and the order of the blocks *)

Lemma map_strip_snoc l0 l y :
  map strip l0 = l ++ [y] ->
  exists l0' x, l0 = l0' ++ [x] /\ map strip l0' = l /\ strip x = y.
Proof.
intros H. apply map_eq_app in H. destruct H as (l1 & l2 & -> & H1 & H2).
destruct l2 as [|x [|x' l2]]; simpl in H2; try discriminate.
inv H2. exists l1, x. auto.
Qed.

Lemma strip_Br x b M : strip x = mkInst b (Br M) -> x = mkInst b (Br M).
Proof.
destruct x as [a k]. unfold strip. simpl. intros E. inv E.
destruct k; simpl in *; try discriminate; congruence.
Qed.

Lemma merge_result_block_addrs fresh fn_args T F u F' :
  merge_result fresh fn_args T F u F' ->
  exists lg G1 G2 tail,
    split_pairs fresh (fresh (block_addrs F)) (collectCallSites T F)
                (F ++ [mkBlock (fresh (block_addrs F)) []])
    = Some (lg, plug G1 (fresh (block_addrs F)) [] G2)
    /\ map fst lg = collectCallSites T F
    /\ block_addrs F' = block_addrs (plug G1 (fresh (block_addrs F)) [] G2)
                          ++ block_addrs tail
    /\ length F' = length (plug G1 (fresh (block_addrs F)) [] G2) + length tail
    /\ (tail = [] \/ exists dflt, block_addrs tail = [dflt]
                                  /\ ~ In dflt (block_addrs
                                                  (plug G1 (fresh (block_addrs F)) [] G2))).
Proof.
intros [M lg G1 G2 phis w s dflt tail EM Hpairs Hfst Inv EF' Hk NB NI Hu Hp Htail].
subst M. exists lg, G1, G2, tail. split; [exact Hpairs|]. split; [exact Hfst|].
split; [|split].
- rewrite EF', !block_addrs_plug, block_addrs_app, rw_block_addrs, rw_block_addrs.
  rewrite <- app_assoc. reflexivity.
- rewrite EF'. unfold plug. rewrite !length_app. simpl.
  rewrite !length_app, !length_map. lia.
- destruct Htail as [(-> & _)|(i & -> & Hn)]; [left; reflexivity|].
  right. exists dflt. auto.
Qed.

Section Blocks.
Variable fresh : list addr -> addr.
Hypothesis fresh_spec : forall l, ~ In (fresh l) l.
Variable fn_args : addr -> list typ.

(** X9: for every call site [c] that the first loop split out of its
    block, with origin block [P] and resume block [R]: in the merged
    function [P] ends in an unconditional branch to the call block, and [R]
    is a block of the merged function that is new (it is neither a block of
    the original function nor the call block). *)
Theorem mergeCallSites_origin_blocks T F :
  wf fn_args F -> 2 <= length (collectCallSites T F) ->
  exists u F' lg F1,
    mergeCallSites fresh fn_args T F = Some (Some u, F')
    /\ split_pairs fresh (fresh (block_addrs F)) (collectCallSites T F)
                   (F ++ [mkBlock (fresh (block_addrs F)) []]) = Some (lg, F1)
    /\ map fst lg = collectCallSites T F
    /\ forall c P R, In (c, (P, R)) lg ->
         (exists blk b, In blk F' /\ baddr blk = P
                        /\ getTerminator (insts blk)
                           = Some (mkInst b (Br (fresh (block_addrs F)))))
         /\ In R (block_addrs F')
         /\ ~ In R (block_addrs F)
         /\ R <> fresh (block_addrs F).
Proof.
intros WF Hlen.
destruct (mergeCallSites_merges fresh fresh_spec fn_args T F WF Hlen) as (u & F' & Hrun & Hres).
destruct Hres as [M lg G1 G2 phis w s dflt tail EM Hpairs Hfst Inv EF' Hk NB NI Hu Hp Htail].
subst M.
assert (K := first_loop_keeps fresh fresh_spec fn_args T F lg _ WF Hpairs).
set (cs := collectCallSites T F) in *. set (M := fresh (block_addrs F)) in *.
exists u, F', lg, (plug G1 M [] G2).
split; [exact Hrun|]. split; [exact Hpairs|]. split; [exact Hfst|].
intros c P R He.
assert (EB : block_addrs F' = block_addrs (plug G1 M [] G2) ++ block_addrs tail).
{ rewrite EF', !block_addrs_plug, block_addrs_app, rw_block_addrs, rw_block_addrs.
  rewrite <- app_assoc. reflexivity. }
split; [|split; [|split]].
- destruct (li_origin _ _ _ _ _ _ _ Inv _ He) as (l & b & Hin & _).
  unfold origin_of in Hin. simpl in Hin.
  apply in_map_iff in Hin. destruct Hin as (blk0 & Es & Hblk0).
  destruct blk0 as [a l0]. rewrite sB_mk in Es. injection Es as Ea El. subst a.
  apply map_strip_snoc in El. destruct El as (l0' & x & -> & _ & Ex).
  apply strip_Br in Ex. subst x.
  assert (HinG : In (mkBlock P (l0' ++ [mkInst b (Br M)])) (G1 ++ G2)).
  { unfold plug in Hblk0. apply in_app_iff in Hblk0. apply in_app_iff.
    destruct Hblk0 as [H|[H|H]]; auto.
    injection H as _ H. destruct l0'; discriminate. }
  assert (Hb : ~ In b cs).
  { intros Hc. rewrite <- Hfst in Hc.
    destruct (after_loop_site_kind T M _ F lg G1 G2 (mkInst b (Br M)) Inv) as (args & Ek).
    - unfold all_insts. apply in_flat_map. eexists. split; [exact HinG|].
      simpl. apply in_or_app. right. left. reflexivity.
    - exact Hc.
    - discriminate. }
  exists (on_insts (rw cs u) (mkBlock P (l0' ++ [mkInst b (Br M)]))), b.
  split; [|split; [reflexivity|]].
  + rewrite EF'. unfold plug. apply in_app_iff in HinG.
    apply in_app_iff.
    destruct HinG as [H|H]; [left|right; right; apply in_or_app; left];
      apply (in_map (on_insts (rw cs u)) _ _ H).
  + simpl. rewrite rw_app.
    assert (E1 : rw cs u [mkInst b (Br M)] = [mkInst b (Br M)]).
    { rewrite rw_keep; [reflexivity|]. intros x [<-|[]]. exact Hb. }
    rewrite E1, getTerminator_app. reflexivity.
- rewrite EB. apply in_or_app. left.
  rewrite <- sF_block_addrs. apply (lk_resume _ _ _ _ K _ He).
- rewrite <- sF_block_addrs. apply (lk_resume _ _ _ _ K _ He).
- apply (li_resume _ _ _ _ _ _ _ Inv _ He).
Qed.

(** X10: a merge keeps the blocks of the function in place: the first
    (entry) block of the merged function is the first block of the
    original, the original blocks appear in the merged function in their
    original order, and the merged function has, besides them, one resume
    block per call site, the call block, and at most one new block for the
    default edge of the switch. *)
Theorem mergeCallSites_block_order T F :
  wf fn_args F -> 2 <= length (collectCallSites T F) ->
  exists u F',
    mergeCallSites fresh fn_args T F = Some (Some u, F')
    /\ hd_error (block_addrs F') = hd_error (block_addrs F)
    /\ filter (fun a => existsb (Nat.eqb a) (block_addrs F)) (block_addrs F')
       = block_addrs F
    /\ length F + length (collectCallSites T F) + 1 <= length F'
    /\ length F' <= length F + length (collectCallSites T F) + 2.
Proof.
intros WF Hlen.
destruct (mergeCallSites_merges fresh fresh_spec fn_args T F WF Hlen) as (u & F' & Hrun & Hres).
exists u, F'. split; [exact Hrun|].
destruct (merge_result_block_addrs fresh fn_args T F u F' Hres)
  as (lg & G1 & G2 & tail & Hpairs & Hfst & EB & EL & Htail).
assert (K := first_loop_keeps fresh fresh_spec fn_args T F lg _ WF Hpairs).
set (M := fresh (block_addrs F)) in *.
assert (Hhd := lk_hd _ _ _ _ K). assert (Hl := lk_len _ _ _ _ K).
assert (Hord := lk_order _ _ _ _ K). assert (Hbl := lk_blocks _ _ _ _ K).
rewrite !sF_block_addrs in *. unfold sF in Hl. rewrite !length_map in Hl.
assert (Elg : length lg = length (collectCallSites T F))
  by (rewrite <- Hfst; symmetry; apply length_map).
split; [|split; [|split]].
- destruct F as [|b0 F0]; [simpl in Hlen; lia|].
  specialize (Hhd (baddr b0) eq_refl). rewrite EB.
  destruct (block_addrs (plug G1 M [] G2)); [discriminate|exact Hhd].
- rewrite EB, filter_app.
  destruct Htail as [->|(dflt & -> & Hn)]; simpl; [rewrite app_nil_r; exact Hord|].
  rewrite existsb_eqb_notin; [rewrite app_nil_r; exact Hord|].
  intros Hi. apply Hn, Hbl, Hi.
- rewrite EL, Hl. lia.
- rewrite EL, Hl.
  assert (length tail <= 1).
  { destruct Htail as [->|(dflt & E & _)]; [simpl; lia|].
    rewrite <- (length_map baddr). unfold block_addrs in E. rewrite E. simpl. lia. }
  lia.
Qed.
End Blocks.

(** ** What a merge keeps of the instructions and of the branch targets *)

Lemma strip_rename cs u x : strip (rename_inst cs u x) = rename_inst cs u (strip x).
Proof.
destruct x as [a k]. unfold strip, rename_inst. simpl. f_equal.
destruct k; simpl; try reflexivity.
rewrite !map_map. reflexivity.
Qed.

Lemma in_collectCallSites T F x :
  NoDup (inst_addrs F) -> In x (all_insts F) -> In (iaddr x) (collectCallSites T F) ->
  is_call_site T x = true.
Proof.
intros ND Hx Hc. rewrite collectCallSites_filter in Hc.
apply in_map_iff in Hc. destruct Hc as (y & Ey & Hy).
apply filter_In in Hy. destruct Hy as [Hy Hs].
assert (E : y = x) by (apply (inst_eq_of_addr F); auto).
subst y. exact Hs.
Qed.

Lemma merge_result_all_insts fresh fn_args T F u F' :
  merge_result fresh fn_args T F u F' ->
  exists lg G1 G2 mid tail dflt,
    split_pairs fresh (fresh (block_addrs F)) (collectCallSites T F)
                (F ++ [mkBlock (fresh (block_addrs F)) []])
    = Some (lg, plug G1 (fresh (block_addrs F)) [] G2)
    /\ loop_inv T (fresh (block_addrs F)) (targets_closed F)
                (filter isCall (all_insts F)) lg []
                (sF (plug G1 (fresh (block_addrs F)) [] G2))
    /\ (forall x, In x (all_insts F') <->
                  In x (rw (collectCallSites T F) u (all_insts (G1 ++ G2)))
                  \/ In x mid \/ In x (all_insts tail))
    /\ block_addrs F' = block_addrs (plug G1 (fresh (block_addrs F)) [] G2)
                          ++ block_addrs tail
    /\ (forall x a, In x mid -> In a (successors (ikind x)) ->
                    a = dflt \/ In a (map resume_of lg))
    /\ In dflt (block_addrs F')
    /\ (forall x, In x (all_insts tail) -> ikind x = Unreachable).
Proof.
intros [M lg G1 G2 phis w s dflt tail EM Hpairs Hfst Inv EF' Hk NB NI Hu Hp Htail].
subst M. set (cs := collectCallSites T F) in *. set (M := fresh (block_addrs F)) in *.
exists lg, G1, G2,
  (map (rename_inst cs u) phis
     ++ [mkInst w (PHI (IntegerTy 32) (discr_incoming 0 (ret_map lg [])));
         mkInst u (Call (VFunction T) (map (fun p => VInst (iaddr p)) phis));
         mkInst s (Switch (VInst w) dflt (switch_cases 0 (ret_map lg [])))]),
  tail, dflt.
assert (EB : block_addrs F' = block_addrs (plug G1 M [] G2) ++ block_addrs tail).
{ rewrite EF', !block_addrs_plug, block_addrs_app, rw_block_addrs, rw_block_addrs.
  rewrite <- app_assoc. reflexivity. }
split; [exact Hpairs|]. split; [exact Inv|]. split; [|split; [exact EB|split; [|split]]].
- intros x. rewrite EF', all_insts_plug, !all_insts_app, !all_insts_rw, rw_app.
  rewrite !in_app_iff. tauto.
- intros x a Hx Ha. apply in_app_iff in Hx. destruct Hx as [Hx|[<-|[<-|[<-|[]]]]].
  + apply in_map_iff in Hx. destruct Hx as (p & <- & Hpin).
    rewrite rename_successors in Ha.
    assert (HPHI := phis_are_PHI _ _ _ _ _ _ Hk Hpin).
    destruct (ikind p); simpl in *; try discriminate. contradiction.
  + destruct Ha.
  + destruct Ha.
  + simpl in Ha. destruct Ha as [<-|Ha]; [left; reflexivity|right].
    rewrite switch_cases_targets in Ha.
    destruct (ret_map_facts lg (li_nodup _ _ _ _ _ _ _ Inv)) as (_ & Hperm & _).
    apply in_map_iff in Ha. destruct Ha as (kv & <- & Hkv).
    apply (Permutation_in _ Hperm) in Hkv.
    apply in_map_iff in Hkv. destruct Hkv as (e & <- & He).
    apply in_map_iff. exists e. auto.
- rewrite EB. apply in_or_app.
  destruct Htail as [(-> & Hin)|(i & -> & _)]; [left|right; left; reflexivity].
  rewrite block_addrs_plug. rewrite block_addrs_app in Hin.
  apply in_app_iff in Hin. apply in_app_iff. simpl. tauto.
- intros x Hx. destruct Htail as [(-> & _)|(i & -> & _)]; [destruct Hx|].
  destruct Hx as [<-|[]]. reflexivity.
Qed.

Section Keeps.
Variable fresh : list addr -> addr.
Hypothesis fresh_spec : forall l, ~ In (fresh l) l.
Variable fn_args : addr -> list typ.

(** X11: a merge erases nothing but the merged calls.  Every instruction
    of the original function that is not a call site of [T] is still in
    the merged function, at its address, with the operands that were
    results of merged calls now naming the unified call; for a PHI node
    this holds up to its incoming blocks, which the splitting of blocks
    retargets. *)
Theorem mergeCallSites_erases_only_call_sites T F :
  wf fn_args F -> 2 <= length (collectCallSites T F) ->
  exists u F',
    mergeCallSites fresh fn_args T F = Some (Some u, F')
    /\ (forall x, In x (all_insts F) -> is_call_site T x = false ->
                  exists x', In x' (all_insts F')
                             /\ strip x' = strip (rename_inst (collectCallSites T F) u x))
    /\ (forall x, In x (all_insts F) -> is_call_site T x = false ->
                  isa_PHI (ikind x) = false ->
                  In (rename_inst (collectCallSites T F) u x) (all_insts F')).
Proof.
intros WF Hlen.
destruct (mergeCallSites_merges fresh fresh_spec fn_args T F WF Hlen) as (u & F' & Hrun & Hres).
exists u, F'. split; [exact Hrun|].
destruct (merge_result_all_insts fresh fn_args T F u F' Hres)
  as (lg & G1 & G2 & mid & tail & dflt & Hpairs & Inv & Hall & _).
assert (K := first_loop_keeps fresh fresh_spec fn_args T F lg _ WF Hpairs).
set (cs := collectCallSites T F) in *. set (M := fresh (block_addrs F)) in *.
assert (Hkeep : forall x, In x (all_insts F) -> is_call_site T x = false ->
                exists y, In (rename_inst cs u y) (all_insts F') /\ strip y = strip x).
{ intros x Hx Hs.
  assert (Hsx : In (strip x) (all_insts (sF (plug G1 M [] G2)))).
  { apply (lk_old _ _ _ _ K). rewrite sF_all_insts. apply in_map, Hx. }
  rewrite sF_all_insts in Hsx. apply in_map_iff in Hsx. destruct Hsx as (y & Ey & Hy).
  exists y. split; [|exact Ey].
  apply Hall. left. apply in_rw. exists y. repeat split.
  - rewrite all_insts_plug in Hy. rewrite all_insts_app. exact Hy.
  - intros Hc. assert (Ea : iaddr y = iaddr x).
    { rewrite <- (strip_iaddr y), Ey. apply strip_iaddr. }
    rewrite Ea in Hc.
    rewrite (in_collectCallSites T F x (wf_insts _ _ WF) Hx Hc) in Hs. discriminate. }
split.
- intros x Hx Hs. destruct (Hkeep x Hx Hs) as (y & Hy & Ey).
  exists (rename_inst cs u y). split; [exact Hy|].
  rewrite !strip_rename, Ey. reflexivity.
- intros x Hx Hs HP. destruct (Hkeep x Hx Hs) as (y & Hy & Ey).
  symmetry in Ey. apply strip_eq_nonphi in Ey; [|exact HP]. subst y. exact Hy.
Qed.

Lemma merge_result_targets_closed T F u F' :
  wf fn_args F -> targets_closed F -> merge_result fresh fn_args T F u F' ->
  targets_closed F'.
Proof.
intros WF Hcl Hres.
destruct (merge_result_all_insts fresh fn_args T F u F' Hres)
  as (lg & G1 & G2 & mid & tail & dflt & Hpairs & Inv & Hall & EB & Hmid & Hdflt & Htail).
assert (K := first_loop_keeps fresh fresh_spec fn_args T F lg _ WF Hpairs).
set (cs := collectCallSites T F) in *. set (M := fresh (block_addrs F)) in *.
assert (Hplug : incl (block_addrs (plug G1 M [] G2)) (block_addrs F')).
{ intros a Ha. rewrite EB. apply in_or_app. left. exact Ha. }
intros x a Hx Ha. apply Hall in Hx. destruct Hx as [Hx|[Hx|Hx]].
- apply in_rw in Hx. destruct Hx as (y & Hy & _ & ->).
  rewrite rename_successors in Ha. apply Hplug.
  assert (Hsy : In (strip y) (all_insts (sF (plug G1 M [] G2)))).
  { rewrite sF_all_insts. apply in_map. rewrite all_insts_plug.
    rewrite all_insts_app in Hy. exact Hy. }
  rewrite <- strip_successors in Ha.
  destruct (lk_new _ _ _ _ K _ Hsy) as [H0|[Ek _]].
  + rewrite sF_all_insts in H0. apply in_map_iff in H0. destruct H0 as (x0 & E0 & Hx0).
    rewrite <- E0, strip_successors in Ha.
    apply (loop_keeps_block_addrs _ _ _ _ K). apply (Hcl x0 a Hx0 Ha).
  + rewrite Ek in Ha. destruct Ha as [<-|[]].
    rewrite block_addrs_plug. apply in_or_app. right. left. reflexivity.
- destruct (Hmid x a Hx Ha) as [->|Hr]; [exact Hdflt|].
  apply in_map_iff in Hr. destruct Hr as (e & <- & He).
  apply Hplug. rewrite <- sF_block_addrs. apply (lk_resume _ _ _ _ K _ He).
- rewrite (Htail x Hx) in Ha. destruct Ha.
Qed.

(** X12: a merge keeps the control-flow graph closed: when every branch
    target of the original function is one of its blocks, [mergeCallSites]
    returns and every branch target of the function it leaves (the targets
    of the new branches and of the switch, its default included) is a block
    of that function. *)
Theorem mergeCallSites_preserves_targets_closed T F :
  wf fn_args F -> targets_closed F ->
  exists r F', mergeCallSites fresh fn_args T F = Some (r, F') /\ targets_closed F'.
Proof.
intros WF Hcl. destruct (le_lt_dec 2 (length (collectCallSites T F))) as [L|L].
- destruct (mergeCallSites_merges fresh fresh_spec fn_args T F WF L) as (u & F' & Hrun & Hres).
  exists (Some u), F'. split; [exact Hrun|].
  apply (merge_result_targets_closed T F u F' WF Hcl Hres).
- destruct (mergeCallSites_few fresh fn_args F T L) as (r & Hrun).
  exists r, F. auto.
Qed.
End Keeps.

(** ** The default target of the switch *)

Section DefaultTarget.
Variable fresh : list addr -> addr.
Hypothesis fresh_spec : forall l, ~ In (fresh l) l.
Variable fn_args : addr -> list typ.

(** The run of everything after the first loop, with the block that the
    default edge of the switch names. *)
Lemma emit_call_block_default T M cs ret orig G1 G2 :
  NoDup (block_addrs (plug G1 M [] G2)) ->
  NoDup (inst_addrs (plug G1 M [] G2)) ->
  (forall c, In c cs ->
             In c (inst_addrs (G1 ++ G2))
             /\ length (fn_args T) <= length (args_of c (plug G1 M [] G2))
             /\ AddrMap.get c orig <> None) ->
  (forall b, In b (G1 ++ G2) -> has_terminator b) ->
  (forall x, In x (all_insts (G1 ++ G2)) -> In (iaddr x) cs ->
             isTerminator (ikind x) = false) ->
  exists phis u w s dflt tail,
    let F' := plug (map (on_insts (rw cs u)) G1) M
                (map (rename_inst cs u) phis
                   ++ [mkInst w (PHI (IntegerTy 32) (discr_incoming 0 ret));
                       mkInst u (Call (VFunction T) (map (fun p => VInst (iaddr p)) phis));
                       mkInst s (Switch (VInst w) dflt (switch_cases 0 ret))])
                (map (on_insts (rw cs u)) G2 ++ tail) in
    emit_call_block fresh fn_args T M cs ret orig (plug G1 M [] G2) = Some (u, F')
    /\ map ikind phis = arg_phi_kinds (plug G1 M [] G2) orig cs (fn_args T) 0
    /\ NoDup (block_addrs F') /\ NoDup (inst_addrs F')
    /\ ~ In u (inst_addrs (plug G1 M [] G2))
    /\ (forall p, In p phis -> ~ In (iaddr p) (inst_addrs (plug G1 M [] G2)))
    /\ exists b, In b F' /\ baddr b = dflt /\ lone_unreachable b.
Proof.
  intros NB NI Hcs Hterm Hnt.
  (* the argument PHI nodes *)
  destruct (build_arg_phis_spec fresh fresh_spec G1 M G2 orig cs (fn_args T) 0 [] NB NI)
    as (phis & Hphis & Hk & NI1).
  { intros c Hc. destruct (Hcs c Hc) as (A1 & A2 & A3). auto. }
  simpl app in Hphis, NI1.
  assert (NB1 : NoDup (block_addrs (plug G1 M phis G2)))
    by (rewrite block_addrs_plug in *; exact NB).
  (* the unified call *)
  set (u := fresh (inst_addrs (plug G1 M phis G2))).
  assert (Hu : ~ In u (inst_addrs (plug G1 M phis G2))) by apply fresh_spec.
  set (CallArgs := map (fun p => VInst (iaddr p)) phis) in *.
  set (uc := mkInst u (Call (VFunction T) CallArgs)).
  assert (NI2 : NoDup (inst_addrs (plug G1 M (phis ++ [uc]) G2)))
    by (apply NoDup_plug_snoc; assumption).
  assert (Hnew : forall x, In x (phis ++ [uc]) -> ~ In (iaddr x) cs).
  { intros x Hx Hi. destruct (Hcs _ Hi) as (A1 & _).
    apply (NoDup_plug_disjoint _ _ _ _ _ NI2 A1). apply in_map, Hx. }
  (* the second loop *)
  set (G1' := map (on_insts (rw cs u)) G1). set (G2' := map (on_insts (rw cs u)) G2).
  set (phis' := map (rename_inst cs u) phis).
  assert (E3 : map (on_insts (rw cs u)) (plug G1 M (phis ++ [uc]) G2)
               = plug G1' M (phis' ++ [uc]) G2').
  { rewrite rw_plug, (rw_keep cs u _ Hnew), map_app. simpl. f_equal. f_equal.
    unfold rename_inst, uc. simpl. unfold CallArgs. rewrite rename_args_keep; [reflexivity|].
    intros x Hx. apply Hnew. apply in_or_app. left. exact Hx. }
  assert (NI3 : NoDup (inst_addrs (plug G1' M (phis' ++ [uc]) G2'))).
  { rewrite <- E3, rw_inst_addrs. apply NoDup_filter. exact NI2. }
  assert (NB3 : NoDup (block_addrs (plug G1' M (phis' ++ [uc]) G2'))).
  { rewrite block_addrs_plug in *. unfold G1', G2'. rewrite !rw_block_addrs. exact NB. }
  (* the discriminator *)
  set (w := fresh (inst_addrs (plug G1' M (phis' ++ [uc]) G2'))).
  assert (Hw : ~ In w (inst_addrs (plug G1' M (phis' ++ [uc]) G2'))) by apply fresh_spec.
  assert (NI4 : NoDup (inst_addrs
                         (plug G1' M (phis' ++ mkInst w (PHI (IntegerTy 32) []) :: [uc]) G2')))
    by (apply NoDup_plug_insert; assumption).
  set (X4 := plug G1' M (phis' ++ mkInst w (PHI (IntegerTy 32) []) :: [uc]) G2') in *.
  (* the default target *)
  destruct (getUnreachableBlock_total fresh fresh_spec X4) as (dflt & tail & Hdflt & Htail).
  { intros b Hb. unfold X4, plug in Hb. apply in_app_iff in Hb.
    assert (HG : forall b0, In b0 (G1 ++ G2) -> ~ lone_phi (on_insts (rw cs u) b0)).
    { intros b0 Hb0. apply lone_phi_no_terminator, rw_has_terminator; auto.
      intros x Hx. apply Hnt. unfold all_insts. apply in_flat_map. eauto. }
    destruct Hb as [Hb|[<-|Hb]].
    - apply in_map_iff in Hb. destruct Hb as (b0 & <- & Hb0).
      apply HG. apply in_or_app. auto.
    - intros (i & ty & inc & E). simpl in E.
      apply (f_equal (@length Inst)) in E. rewrite length_app in E. simpl in E. lia.
    - apply in_map_iff in Hb. destruct Hb as (b0 & <- & Hb0).
      apply HG. apply in_or_app. auto. }
  assert (HtailB : (tail = [] /\ In dflt (block_addrs (G1 ++ G2)))
                   \/ (tail = [mkBlock dflt [mkInst (fresh (inst_addrs X4)) Unreachable]]
                       /\ ~ In dflt (block_addrs X4))).
  { destruct Htail as [(-> & b & Hb & <- & Hlone)|(-> & ->)].
    - left. split; [reflexivity|]. unfold X4, plug in Hb. apply in_app_iff in Hb.
      rewrite block_addrs_app.
      destruct Hb as [Hb|[<-|Hb]].
      + apply in_or_app. left. apply in_map_iff in Hb. destruct Hb as (b0 & <- & Hb0).
        apply (in_map baddr _ b0 Hb0).
      + exfalso. destruct Hlone as (i & E). simpl in E.
        apply (f_equal (@length Inst)) in E. rewrite length_app in E. simpl in E. lia.
      + apply in_or_app. right. apply in_map_iff in Hb. destruct Hb as (b0 & <- & Hb0).
        apply (in_map baddr _ b0 Hb0).
    - right. split; [reflexivity|apply fresh_spec]. }
  assert (EB4 : block_addrs X4 = block_addrs (plug G1 M [] G2)).
  { unfold X4. rewrite !block_addrs_plug. unfold G1', G2'. rewrite !rw_block_addrs.
    reflexivity. }
  assert (NB5 : NoDup (block_addrs (X4 ++ tail))).
  { destruct HtailB as [(-> & _)|(-> & Hd)].
    - rewrite app_nil_r, EB4. exact NB.
    - rewrite block_addrs_app. simpl.
      apply (Permutation_NoDup (l := dflt :: block_addrs X4)).
      + apply Permutation_cons_append.
      + constructor; [exact Hd|]. rewrite EB4. exact NB. }
  assert (NI5 : NoDup (inst_addrs (X4 ++ tail))).
  { destruct HtailB as [(-> & _)|(-> & Hd)].
    - rewrite app_nil_r. exact NI4.
    - rewrite inst_addrs_app. unfold inst_addrs at 2. simpl.
      apply (Permutation_NoDup (l := fresh (inst_addrs X4) :: inst_addrs X4)).
      + apply Permutation_cons_append.
      + constructor; [apply fresh_spec|exact NI4]. }
  unfold X4 in Hdflt, NB5, NI5. rewrite plug_app_tail in Hdflt, NB5, NI5.
  (* the switch *)
  set (l5 := phis' ++ mkInst w (PHI (IntegerTy 32) []) :: [uc]) in *.
  set (s := fresh (inst_addrs (plug G1' M l5 (G2' ++ tail)))).
  assert (Hs : ~ In s (inst_addrs (plug G1' M l5 (G2' ++ tail)))) by apply fresh_spec.
  assert (NI6 : NoDup (inst_addrs
                         (plug G1' M (l5 ++ [mkInst s (Switch (VInst w) dflt [])])
                               (G2' ++ tail))))
    by (apply NoDup_plug_snoc; assumption).
  assert (E6 : l5 ++ [mkInst s (Switch (VInst w) dflt [])]
               = phis' ++ [mkInst w (PHI (IntegerTy 32) []); uc;
                           mkInst s (Switch (VInst w) dflt [])]).
  { unfold l5. rewrite <- app_assoc. reflexivity. }
  rewrite E6 in NI6.
  assert (Hsw := build_switch_spec G1' M phis' w (IntegerTy 32) uc s (VInst w) dflt
                   (G2' ++ tail) ret 0%Z [] [] NI6).
  simpl app in Hsw.
  exists phis, u, w, s, dflt, tail.
  split; [|split; [exact Hk|split; [|split; [|split; [|split]]]]].
  - unfold emit_call_block.
    rewrite (bind_eq _ _ _ _ _ Hphis).
    unfold CallInst_Create.
    rewrite (bind_eq _ _ _ _ _ (create_at_end_plug fresh _ G1 M phis G2 NB1)).
    fold u. fold uc.
    rewrite (bind_eq _ _ _ _ _ (second_loop_spec u cs _)). rewrite E3.
    rewrite (bind_eq _ _ _ w (plug G1' M l5 G2')).
    2:{ unfold PHINode_Create_before, create_before. fold w. f_equal. f_equal.
        apply (insert_before_plug u _ G1' M phis' uc [] G2' NI3 eq_refl). }
    rewrite (bind_eq _ _ _ _ _ Hdflt).
    unfold SwitchInst_Create.
    rewrite (bind_eq _ _ _ _ _ (create_at_end_plug fresh _ G1' M l5 (G2' ++ tail) NB5)).
    fold s. rewrite E6.
    rewrite (bind_eq _ _ _ _ _ Hsw). reflexivity.
  - rewrite block_addrs_plug in *. exact NB5.
  - revert NI6. apply NoDup_plug_ids. rewrite !map_app. reflexivity.
  - intros Hi. apply Hu. rewrite inst_addrs_plug in *. simpl in Hi.
    rewrite !in_app_iff in *. tauto.
  - intros p Hp Hi. rewrite inst_addrs_plug in Hi. simpl in Hi.
    apply (NoDup_plug_disjoint G1 M phis G2 (iaddr p) NI1).
    + rewrite inst_addrs_app. exact Hi.
    + apply in_map, Hp.
  - destruct Htail as [(-> & b & Hb & Eb & Hlone)|(-> & Ed)].
    + exists b. split; [|split; [exact Eb|exact Hlone]].
      unfold X4, plug in Hb. unfold plug. rewrite app_nil_r.
      apply in_app_iff in Hb. apply in_app_iff.
      destruct Hb as [Hb|[<-|Hb]]; [left; exact Hb| |right; right; exact Hb].
      exfalso. destruct Hlone as (i & E). simpl in E.
      apply (f_equal (@length Inst)) in E. unfold l5 in E.
      rewrite length_app in E. simpl in E. lia.
    + exists (mkBlock dflt [mkInst (fresh (inst_addrs (plug G1' M l5 G2'))) Unreachable]).
      split; [|split; [reflexivity|eexists; reflexivity]].
      unfold plug. apply in_or_app. right. right. apply in_or_app. right.
      left. reflexivity.
Qed.

(** X13: the default target of the switch that ends the call block is a
    block of the merged function whose whole content is one
    [unreachable]. *)
Theorem mergeCallSites_default_block T F :
  wf fn_args F -> 2 <= length (collectCallSites T F) ->
  exists u F' blk s c dflt cases b,
    mergeCallSites fresh fn_args T F = Some (Some u, F')
    /\ find_block (fresh (block_addrs F)) F' = Some blk
    /\ getTerminator (insts blk) = Some (mkInst s (Switch c dflt cases))
    /\ In b F' /\ baddr b = dflt /\ lone_unreachable b.
Proof.
intros WF Hlen.
set (M := fresh (block_addrs F)). set (cs := collectCallSites T F) in *.
destruct (split_pairs_total fresh fresh_spec T M (targets_closed F)
            (filter isCall (all_insts F)) cs [] (F ++ [mkBlock M []])
            (initial_inv fresh fresh_spec fn_args T F WF))
  as (lg & F1 & Hpairs & Hfst & Inv).
simpl app in Inv.
assert (HM := sF_in_empty _ _ (li_M _ _ _ _ _ _ _ Inv)).
apply in_split in HM. destruct HM as (G1 & G2 & EF1). fold (plug G1 M [] G2) in EF1.
subst F1.
assert (NB : NoDup (block_addrs (plug G1 M [] G2)))
  by (rewrite <- sF_block_addrs; apply (li_blocks _ _ _ _ _ _ _ Inv)).
assert (NI : NoDup (inst_addrs (plug G1 M [] G2)))
  by (rewrite <- sF_inst_addrs; apply (li_insts _ _ _ _ _ _ _ Inv)).
assert (Eall : all_insts (plug G1 M [] G2) = all_insts (G1 ++ G2))
  by (rewrite all_insts_plug, all_insts_app; reflexivity).
destruct (emit_call_block_default T M cs (ret_map lg []) (orig_map lg []) G1 G2 NB NI)
  as (phis & u & w & s & dflt & tail & Hrun & _ & NB' & _ & _ & _ & b & Hb & Eb & Hlone).
- intros c Hc. rewrite <- Hfst in Hc.
  destruct (after_loop_sites _ _ _ _ _ _ _ c Inv Hc) as (ci & args & H1 & H2 & Ec & Ek).
  repeat split.
  + unfold inst_addrs. rewrite <- Ec. apply in_map, H1.
  + unfold args_of. rewrite <- Ec, find_inst_unique by (rewrite ?Eall; assumption).
    destruct ci as [a k]. simpl in Ek. subst k.
    destruct WF as [_ _ _ HA]. rewrite Forall_forall in HA.
    apply (HA _ H2 T args eq_refl).
  + apply orig_map_get. left. exact Hc.
- intros b Hb. apply (after_loop_term _ _ _ _ _ _ _ _ Inv Hb).
- intros x Hx Hc. rewrite <- Hfst in Hc.
  apply (after_loop_site_nonterm T M _ F lg G1 G2 x Inv Hx Hc).
- exists u. eexists. eexists. exists s, (VInst w), dflt, (switch_cases 0 (ret_map lg [])), b.
  split; [|split; [|split; [|split; [exact Hb|split; [exact Eb|exact Hlone]]]]].
  + unfold mergeCallSites, gets. unfold bind at 1. fold cs.
    destruct cs as [|c1 [|c2 cs']] eqn:Ecs; [simpl in Hlen; lia | simpl in Hlen; lia|].
    rewrite <- Ecs in *.
    rewrite (bind_eq _ _ F M (F ++ [mkBlock M []])) by reflexivity.
    rewrite (bind_eq _ _ _ (ret_map lg [], orig_map lg []) (plug G1 M [] G2)).
    2:{ rewrite split_call_sites_pairs, Hpairs. reflexivity. }
    simpl fst. simpl snd.
    rewrite (bind_eq _ _ _ _ _ Hrun). reflexivity.
  + apply find_block_here; [|reflexivity].
    rewrite block_addrs_plug in NB'. apply NoDup_mid in NB'. apply NB'.
  + simpl.
    replace (map (rename_inst cs u) phis
               ++ [mkInst w (PHI (IntegerTy 32) (discr_incoming 0 (ret_map lg [])));
                   mkInst u (Call (VFunction T) (map (fun p => VInst (iaddr p)) phis));
                   mkInst s (Switch (VInst w) dflt (switch_cases 0 (ret_map lg [])))])
      with ((map (rename_inst cs u) phis
               ++ [mkInst w (PHI (IntegerTy 32) (discr_incoming 0 (ret_map lg [])));
                   mkInst u (Call (VFunction T) (map (fun p => VInst (iaddr p)) phis))])
              ++ [mkInst s (Switch (VInst w) dflt (switch_cases 0 (ret_map lg [])))])
      by (rewrite <- app_assoc; reflexivity).
    rewrite getTerminator_app. reflexivity.
Qed.
End DefaultTarget.

(** ** What [runOnFunction] achieves *)

Section EveryCallee.
Variable fresh : list addr -> addr.
Hypothesis fresh_spec : forall l, ~ In (fresh l) l.
Variable fn_args : addr -> list typ.
Variable fn_isIntrinsic : addr -> bool.
Variable reg2mem : Func -> Func.

Lemma merge_result_length T F u F' :
  wf fn_args F -> merge_result fresh fn_args T F u F' ->
  length F + length (collectCallSites T F) + 1 <= length F'.
Proof.
intros WF Hres.
destruct (merge_result_block_addrs fresh fn_args T F u F' Hres)
  as (lg & G1 & G2 & tail & Hpairs & Hfst & _ & EL & _).
assert (K := first_loop_keeps fresh fresh_spec fn_args T F lg _ WF Hpairs).
assert (Hl := lk_len _ _ _ _ K). unfold sF in Hl. rewrite !length_map in Hl.
rewrite EL, Hl, <- Hfst, length_map. lia.
Qed.

Lemma merge_groups_sites groups : forall Modified F Modified' F',
  wf fn_args F -> NoDup (map fst groups) ->
  (forall KV, In KV groups -> snd KV = collectCallSites (fst KV) F) ->
  merge_groups fresh fn_args groups Modified F = Some (Modified', F') ->
  (forall f, ~ In f (map fst groups) -> collectCallSites f F' = collectCallSites f F)
  /\ (forall KV, In KV groups ->
        if 1 <? length (snd KV)
        then exists u, collectCallSites (fst KV) F' = [u]
        else collectCallSites (fst KV) F' = snd KV)
  /\ length F <= length F'
  /\ ((exists KV, In KV groups /\ 2 <= length (snd KV)) -> length F + 3 <= length F').
Proof.
induction groups as [|KV groups IH]; intros Modified F Modified' F' WF ND Hg Hrun;
  simpl in Hrun.
- unfold ret in Hrun. inv Hrun. split; [reflexivity|]. split; [intros KV []|].
  split; [lia|]. intros (KV & [] & _).
- simpl in ND. apply NoDup_cons_iff in ND. destruct ND as [Hk ND].
  assert (EKV := Hg KV (or_introl eq_refl)).
  destruct (Nat.ltb_spec 1 (length (snd KV))) as [L|L].
  + rewrite EKV in L.
    destruct (mergeCallSites_merges fresh fresh_spec fn_args (fst KV) F WF L)
      as (u & F1 & Hrun1 & Hres).
    rewrite (bind_eq _ _ _ _ _ Hrun1) in Hrun.
    assert (WF1 := merge_result_wf fresh fn_args (fst KV) F u F1 WF Hres).
    assert (Hother : forall f, f <> fst KV -> collectCallSites f F1 = collectCallSites f F).
    { intros f N. apply (merge_result_other_sites fresh fn_args (fst KV) F u F1 f Hres N). }
    assert (Hu : collectCallSites (fst KV) F1 = [u]).
    { destruct (merge_result_calls_to fresh fn_args (fst KV) F u F1 Hres) as (args & Hc).
      rewrite calls_to_collect, Hc. reflexivity. }
    assert (Hgrow := merge_result_length (fst KV) F u F1 WF Hres).
    destruct (IH true F1 Modified' F' WF1 ND) as (IH1 & IH2 & IH3 & _); [|exact Hrun|].
    { intros KV' Hin. rewrite (Hg KV' (or_intror Hin)). symmetry. apply Hother.
      intros E. apply Hk. rewrite <- E. apply in_map, Hin. }
    split; [|split; [|split; [lia|intros _; lia]]].
    * intros f Hf. simpl in Hf. rewrite IH1 by tauto. apply Hother. intros E. apply Hf. auto.
    * intros KV' [<-|Hin]; [|apply IH2, Hin].
      destruct (Nat.ltb_spec 1 (length (snd KV))) as [_|L']; [|rewrite EKV in L'; lia].
      exists u. rewrite IH1 by exact Hk. exact Hu.
  + destruct (IH Modified F Modified' F' WF ND) as (IH1 & IH2 & IH3 & IH4); [|exact Hrun|].
    { intros KV' Hin. apply Hg. right. exact Hin. }
    split; [|split; [|split; [exact IH3|]]].
    * intros f Hf. simpl in Hf. apply IH1. tauto.
    * intros KV' [<-|Hin]; [|apply IH2, Hin].
      destruct (Nat.ltb_spec 1 (length (snd KV))) as [L'|_]; [lia|].
      rewrite IH1 by exact Hk. symmetry. exact EKV.
    * intros (KV' & [<-|Hin] & Hlen); [lia|]. apply IH4. exists KV'. auto.
Qed.

(** X14: what [runOnFunction] achieves.  On a well-formed function it
    returns, and in the function [Fm] its merges leave (the function handed
    to the register-demotion pass when something changed): every
    non-intrinsic callee with two or more direct calls is called from
    exactly one instruction; a non-intrinsic callee with at most one direct
    call keeps it as it was; and the direct calls to an intrinsic are the
    ones of the original function, at the same addresses and in the same
    order.  [Fm] is well-formed. *)
Theorem runOnFunction_one_call_per_callee F :
  wf fn_args F ->
  exists Modified n F' Fm,
    runOnFunction fresh fn_args fn_isIntrinsic reg2mem F = Some ((Modified, n), F')
    /\ F' = (if Modified then reg2mem Fm else Fm)
    /\ wf fn_args Fm
    /\ forall f,
         (fn_isIntrinsic f = false -> 2 <= length (collectCallSites f F) ->
          exists u, collectCallSites f Fm = [u])
         /\ (fn_isIntrinsic f = false -> length (collectCallSites f F) <= 1 ->
             collectCallSites f Fm = collectCallSites f F)
         /\ (fn_isIntrinsic f = true -> collectCallSites f Fm = collectCallSites f F).
Proof.
intros WF.
destruct (merge_groups_total fresh fresh_spec fn_args (groupCallSites fn_isIntrinsic F)
            false F WF) as (b & Fm & Hrun & WFm & _ & _).
destruct (merge_groups_sites (groupCallSites fn_isIntrinsic F) false F b Fm WF)
  as (H1 & H2 & _ & _).
{ apply StronglySorted_lt_NoDup, groupCallSites_sorted. }
{ intros KV Hin. destruct KV as [f l]. apply groupCallSites_in in Hin. simpl. tauto. }
{ exact Hrun. }
exists b, (if b then 1 else 0), (if b then reg2mem Fm else Fm), Fm.
split.
{ unfold runOnFunction, gets. unfold bind at 1. rewrite (bind_eq _ _ _ _ _ Hrun).
  destruct b; reflexivity. }
split; [reflexivity|]. split; [exact WFm|].
assert (Hnone : forall f, (forall l, ~ In (f, l) (groupCallSites fn_isIntrinsic F)) ->
                          collectCallSites f Fm = collectCallSites f F).
{ intros f Hf. apply H1. intros Hi. apply in_map_iff in Hi.
  destruct Hi as ([f' l] & E & Hin). simpl in E. subst f'. apply (Hf l Hin). }
intros f. split; [|split].
- intros HI L.
  assert (Hin : In (f, collectCallSites f F) (groupCallSites fn_isIntrinsic F)).
  { apply groupCallSites_in. repeat split; [exact HI|].
    intros E. rewrite E in L. simpl in L. lia. }
  specialize (H2 _ Hin). simpl in H2.
  destruct (Nat.ltb_spec 1 (length (collectCallSites f F))); [exact H2|lia].
- intros HI L. destruct (collectCallSites f F) as [|c cs] eqn:E.
  + rewrite <- E. apply Hnone. intros l Hin. apply groupCallSites_in in Hin.
    destruct Hin as (_ & -> & Hne). apply Hne. exact E.
  + assert (Hin : In (f, collectCallSites f F) (groupCallSites fn_isIntrinsic F)).
    { apply groupCallSites_in. repeat split; [exact HI|]. rewrite E. discriminate. }
    specialize (H2 _ Hin). simpl in H2. rewrite <- E.
    destruct (Nat.ltb_spec 1 (length (collectCallSites f F))) as [L'|_]; [|exact H2].
    rewrite E in L'. simpl in *. lia.
- intros HI. apply Hnone. intros l Hin. apply groupCallSites_in in Hin.
  destruct Hin as (HI' & _). congruence.
Qed.
(** X15: the change flag of [runOnFunction] is honest: when it returns
    true the function its merges leave has at least three blocks more than
    the original (a call block and two resume blocks), so it did change;
    when it returns false the function is the original one. *)
Theorem runOnFunction_modified_changes F :
  wf fn_args F ->
  exists Modified n F' Fm,
    runOnFunction fresh fn_args fn_isIntrinsic reg2mem F = Some ((Modified, n), F')
    /\ F' = (if Modified then reg2mem Fm else Fm)
    /\ (Modified = true -> length F + 3 <= length Fm)
    /\ (Modified = false -> Fm = F).
Proof.
intros WF.
destruct (merge_groups_total fresh fresh_spec fn_args (groupCallSites fn_isIntrinsic F)
            false F WF) as (b & Fm & Hrun & WFm & Hb & Hsame).
destruct (merge_groups_sites (groupCallSites fn_isIntrinsic F) false F b Fm WF)
  as (_ & _ & _ & H4).
{ apply StronglySorted_lt_NoDup, groupCallSites_sorted. }
{ intros KV Hin. destruct KV as [f l]. apply groupCallSites_in in Hin. simpl. tauto. }
{ exact Hrun. }
exists b, (if b then 1 else 0), (if b then reg2mem Fm else Fm), Fm.
split.
{ unfold runOnFunction, gets. unfold bind at 1. rewrite (bind_eq _ _ _ _ _ Hrun).
  destruct b; reflexivity. }
split; [reflexivity|]. split; [|exact Hsame].
intros E. apply H4. apply Hb in E. destruct E as [E|E]; [discriminate|exact E].
Qed.

(** X16: the merges of [runOnFunction] reach a fixed point: run again on
    the function [Fm] they leave, [runOnFunction] finds no callee with two
    or more eligible call sites, returns false, does not run the demotion
    pass and leaves [Fm] as it is. *)
Theorem runOnFunction_fixed_point F :
  wf fn_args F ->
  exists Modified n F' Fm,
    runOnFunction fresh fn_args fn_isIntrinsic reg2mem F = Some ((Modified, n), F')
    /\ F' = (if Modified then reg2mem Fm else Fm)
    /\ runOnFunction fresh fn_args fn_isIntrinsic reg2mem Fm = Some ((false, 0), Fm).
Proof.
intros WF.
destruct (merge_groups_total fresh fresh_spec fn_args (groupCallSites fn_isIntrinsic F)
            false F WF) as (b & Fm & Hrun & WFm & _ & _).
destruct (merge_groups_sites (groupCallSites fn_isIntrinsic F) false F b Fm WF)
  as (H1 & H2 & _ & _).
{ apply StronglySorted_lt_NoDup, groupCallSites_sorted. }
{ intros KV Hin. destruct KV as [f l]. apply groupCallSites_in in Hin. simpl. tauto. }
{ exact Hrun. }
exists b, (if b then 1 else 0), (if b then reg2mem Fm else Fm), Fm.
split.
{ unfold runOnFunction, gets. unfold bind at 1. rewrite (bind_eq _ _ _ _ _ Hrun).
  destruct b; reflexivity. }
split; [reflexivity|].
assert (Hsmall : forall KV, In KV (groupCallSites fn_isIntrinsic Fm) -> length (snd KV) <= 1).
{ intros [f l] Hin. apply groupCallSites_in in Hin. destruct Hin as (HI & -> & _). simpl.
  destruct (le_lt_dec 2 (length (collectCallSites f F))) as [L|L].
  - assert (Hin : In (f, collectCallSites f F) (groupCallSites fn_isIntrinsic F)).
    { apply groupCallSites_in. repeat split; [exact HI|].
      intros E. rewrite E in L. simpl in L. lia. }
    specialize (H2 _ Hin). simpl in H2.
    destruct (Nat.ltb_spec 1 (length (collectCallSites f F))) as [_|L']; [|lia].
    destruct H2 as (u & ->). simpl. lia.
  - destruct (collectCallSites f F) as [|c cs] eqn:E.
    + rewrite H1; [rewrite E; simpl; lia|].
      intros Hi. apply in_map_iff in Hi. destruct Hi as ([f' l] & Ef & Hin).
      simpl in Ef. subst f'. apply groupCallSites_in in Hin.
      destruct Hin as (_ & -> & Hne). apply Hne. exact E.
    + assert (Hin : In (f, collectCallSites f F) (groupCallSites fn_isIntrinsic F)).
      { apply groupCallSites_in. repeat split; [exact HI|]. rewrite E. discriminate. }
      specialize (H2 _ Hin). simpl in H2.
      destruct (Nat.ltb_spec 1 (length (collectCallSites f F))) as [L'|_];
        [rewrite E in L'; simpl in *; lia|].
      rewrite H2, E. simpl in *. lia. }
destruct (merge_groups_total fresh fresh_spec fn_args (groupCallSites fn_isIntrinsic Fm)
            false Fm WFm) as (b2 & Fm2 & Hrun2 & _ & Hb2 & Hsame2).
assert (Eb2 : b2 = false).
{ destruct b2; [|reflexivity]. exfalso.
  destruct (proj1 Hb2 eq_refl) as [E|(KV & Hin & Hlen)]; [discriminate|].
  specialize (Hsmall KV Hin). lia. }
subst b2. rewrite (Hsame2 eq_refl) in Hrun2.
unfold runOnFunction, gets. unfold bind at 1. rewrite (bind_eq _ _ _ _ _ Hrun2).
reflexivity.
Qed.
End EveryCallee.

(** ** One iteration of the first loop *)

Section OneSplit.
Variable fresh : list addr -> addr.
Hypothesis fresh_spec : forall l, ~ In (fresh l) l.

(** X17: one iteration of the first loop of [mergeCallSites], for a call
    [ci] followed in its block [P] by an instruction [n] that is not a PHI
    node: [P] keeps the instructions before the call and ends in a new
    branch to the call block (the branch that [splitBasicBlock] made is
    erased); a new block [R], placed right after [P], holds the call and
    everything that followed it; every other block is as it was, up to the
    incoming blocks of PHI nodes, which [splitBasicBlock] retargets; and
    the pair recorded for the call site is [(P, R)]. *)
Theorem split_call_site_spec M F bs1 P pre ci n post bs2 t :
  F = bs1 ++ mkBlock P (pre ++ ci :: n :: post) :: bs2 ->
  NoDup (block_addrs F) -> NoDup (inst_addrs F) ->
  isa_PHI (ikind ci) = false -> isa_PHI (ikind n) = false ->
  getTerminator (n :: post) = Some t ->
  exists R b F',
    split_call_site fresh M (iaddr ci) F = Some ((P, R), F')
    /\ ~ In R (block_addrs F) /\ ~ In b (inst_addrs F)
    /\ sF F' = sF (bs1 ++ mkBlock P (pre ++ [mkInst b (Br M)])
                       :: mkBlock R (ci :: n :: post) :: bs2).
Proof.
intros EF NB NI Hci Hn Ht.
destruct (split_call_site_shape fresh fresh_spec M F bs1 P pre ci n post bs2 t
            EF NB NI Hci Ht)
  as (R & b & bs1' & pre' & phis & rest & bs2' & Hrun & HR & Hb & E1 & E2 & E3 & E4 & Hphis & _).
exists R, b. eexists. split; [exact Hrun|]. split; [exact HR|]. split; [exact Hb|].
assert (Ephis : phis = []).
{ destruct phis as [|p phis]; [reflexivity|]. exfalso.
  simpl in E3.
  assert (Ep : strip p = strip n)
    by (apply (f_equal (fun l => hd (strip p) l)) in E3; exact E3).
  apply Forall_inv in Hphis.
  assert (HPn : isa_PHI (ikind (strip p)) = isa_PHI (ikind (strip n)))
    by (rewrite Ep; reflexivity).
  rewrite !strip_isa_PHI in HPn. congruence. }
subst phis. simpl in E3.
rewrite !sF_app, !sF_cons, !sB_mk, E1, E4, !map_app, E2. simpl map.
rewrite (strip_nonphi ci Hci). simpl in E3. rewrite E3. reflexivity.
Qed.
End OneSplit.

(** ** The incoming blocks of the PHI nodes of the call block *)

Lemma arg_phi_kinds_blocks F1 lg params : forall argCtr k,
  NoDup (map fst lg) ->
  In k (arg_phi_kinds F1 (orig_map lg []) (map fst lg) params argCtr) ->
  exists ty inc, k = PHI ty inc /\ map snd inc = map origin_of lg.
Proof.
induction params as [|ty ps IH]; intros argCtr k ND; simpl; [intros []|].
intros [<-|H]; [|apply (IH _ _ ND H)].
eexists. eexists. split; [reflexivity|].
unfold phi_incoming. rewrite !map_map. apply map_ext_in.
intros e He. simpl. rewrite (orig_map_get_exact lg [] e ND He). reflexivity.
Qed.

(** ** The further theorems at concrete functions *)

Lemma two_callees_wf : wf ex_params two_callees.
Proof. apply wfb_sound. reflexivity. Qed.

Lemma mergeCallSites_preserves_wf_witness :
  wf ex_params three_blocks
  /\ (exists r F', mergeCallSites bump ex_params ex_T three_blocks = Some (r, F') /\ wf ex_params F').
Proof.
split; [exact three_blocks_wf|].
exact (mergeCallSites_preserves_wf bump bump_fresh ex_params ex_T three_blocks three_blocks_wf).
Defined.

Lemma mergeCallSites_returns_only_call_witness :
  wf ex_params three_blocks
  /\ (exists r F',
    mergeCallSites bump ex_params ex_T three_blocks = Some (r, F')
    /\ (r = None <-> collectCallSites ex_T three_blocks = [])
    /\ (r = None -> F' = three_blocks /\ calls_to ex_T F' = [])
    /\ (forall u, r = Some u ->
          exists args, calls_to ex_T F' = [mkInst u (Call (VFunction ex_T) args)])).
Proof.
split; [exact three_blocks_wf|].
exact (mergeCallSites_returns_only_call bump bump_fresh ex_params ex_T three_blocks
         three_blocks_wf).
Defined.

Lemma mergeCallSites_idempotent_witness :
  wf ex_params three_blocks
  /\ (exists r F',
    mergeCallSites bump ex_params ex_T three_blocks = Some (r, F')
    /\ mergeCallSites bump ex_params ex_T F' = Some (r, F')).
Proof.
split; [exact three_blocks_wf|].
exact (mergeCallSites_idempotent bump bump_fresh ex_params ex_T three_blocks three_blocks_wf).
Defined.

Lemma getUnreachableBlock_idempotent_witness :
  (forall b, In b three_blocks -> ~ lone_phi b)
  /\ (exists a F',
    getUnreachableBlock bump three_blocks = Some (a, F')
    /\ getUnreachableBlock bump F' = Some (a, F')
    /\ exists b, In b F' /\ baddr b = a /\ lone_unreachable b).
Proof.
split; [exact (wf_no_lone_phi ex_params three_blocks three_blocks_wf)|].
exact (getUnreachableBlock_idempotent bump bump_fresh three_blocks (wf_no_lone_phi ex_params
         three_blocks three_blocks_wf)).
Defined.

Lemma ex_U_not_ex_T : ex_U <> ex_T.
Proof. unfold ex_U, ex_T. lia. Qed.

Lemma mergeCallSites_keeps_other_callees_witness :
  wf ex_params two_callees
  /\ ex_U <> ex_T
  /\ (exists r F', mergeCallSites bump ex_params ex_T two_callees = Some (r, F')
                   /\ collectCallSites ex_U F' = collectCallSites ex_U two_callees).
Proof.
split; [exact two_callees_wf|].
split; [exact ex_U_not_ex_T|].
exact (mergeCallSites_keeps_other_callees bump bump_fresh ex_params ex_T two_callees ex_U
         two_callees_wf ex_U_not_ex_T).
Defined.

Lemma runOnFunction_one_call_per_callee_witness :
  wf ex_params two_callees
  /\ (exists Modified n F' Fm,
    runOnFunction bump ex_params ex_intrinsic (fun G : Func => G) two_callees = Some ((Modified, n), F')
    /\ F' = (if Modified then (fun G : Func => G) Fm else Fm)
    /\ wf ex_params Fm
    /\ forall f,
         (ex_intrinsic f = false -> 2 <= length (collectCallSites f two_callees) ->
          exists u, collectCallSites f Fm = [u])
         /\ (ex_intrinsic f = false -> length (collectCallSites f two_callees) <= 1 ->
             collectCallSites f Fm = collectCallSites f two_callees)
         /\ (ex_intrinsic f = true -> collectCallSites f Fm = collectCallSites f two_callees)).
Proof.
split; [exact two_callees_wf|].
exact (runOnFunction_one_call_per_callee bump bump_fresh ex_params ex_intrinsic (fun G :
         Func => G) two_callees two_callees_wf).
Defined.

Lemma runOnFunction_modified_changes_witness :
  wf ex_params two_callees
  /\ (exists Modified n F' Fm,
    runOnFunction bump ex_params ex_intrinsic (fun G : Func => G) two_callees = Some ((Modified, n), F')
    /\ F' = (if Modified then (fun G : Func => G) Fm else Fm)
    /\ (Modified = true -> length two_callees + 3 <= length Fm)
    /\ (Modified = false -> Fm = two_callees)).
Proof.
split; [exact two_callees_wf|].
exact (runOnFunction_modified_changes bump bump_fresh ex_params ex_intrinsic (fun G : Func
         => G) two_callees two_callees_wf).
Defined.

Lemma runOnFunction_fixed_point_witness :
  wf ex_params two_callees
  /\ (exists Modified n F' Fm,
    runOnFunction bump ex_params ex_intrinsic (fun G : Func => G) two_callees = Some ((Modified, n), F')
    /\ F' = (if Modified then (fun G : Func => G) Fm else Fm)
    /\ runOnFunction bump ex_params ex_intrinsic (fun G : Func => G) Fm = Some ((false, 0), Fm)).
Proof.
split; [exact two_callees_wf|].
exact (runOnFunction_fixed_point bump bump_fresh ex_params ex_intrinsic (fun G : Func => G)
         two_callees two_callees_wf).
Defined.

Lemma mergeCallSites_call_block_witness :
  wf ex_params three_blocks
  /\ 2 <= length (collectCallSites ex_T three_blocks)
  /\ (exists u F' phis w inc s dflt cases,
    mergeCallSites bump ex_params ex_T three_blocks = Some (Some u, F')
    /\ ~ In (bump (block_addrs three_blocks)) (block_addrs three_blocks)
    /\ find_block (bump (block_addrs three_blocks)) F'
       = Some (mkBlock (bump (block_addrs three_blocks))
                 (phis ++ [mkInst w (PHI (IntegerTy 32) inc);
                           mkInst u (Call (VFunction ex_T) (map (fun p => VInst (iaddr p)) phis));
                           mkInst s (Switch (VInst w) dflt cases)]))
    /\ Forall2 (fun p ty => exists inc', ikind p = PHI ty inc'
                                         /\ length inc' = length (collectCallSites ex_T three_blocks))
               phis (ex_params ex_T)
    /\ length inc = length (collectCallSites ex_T three_blocks)
    /\ length cases = length (collectCallSites ex_T three_blocks)
    /\ ~ In u (inst_addrs three_blocks)).
Proof.
split; [exact three_blocks_wf|].
split; [exact three_blocks_sites|].
exact (mergeCallSites_call_block bump bump_fresh ex_params ex_T three_blocks three_blocks_wf
         three_blocks_sites).
Defined.

Lemma mergeCallSites_origin_blocks_witness :
  wf ex_params three_blocks
  /\ 2 <= length (collectCallSites ex_T three_blocks)
  /\ (exists u F' lg F1,
    mergeCallSites bump ex_params ex_T three_blocks = Some (Some u, F')
    /\ split_pairs bump (bump (block_addrs three_blocks)) (collectCallSites ex_T three_blocks)
                   (three_blocks ++ [mkBlock (bump (block_addrs three_blocks)) []]) = Some (lg, F1)
    /\ map fst lg = collectCallSites ex_T three_blocks
    /\ forall c P R, In (c, (P, R)) lg ->
         (exists blk b, In blk F' /\ baddr blk = P
                        /\ getTerminator (insts blk)
                           = Some (mkInst b (Br (bump (block_addrs three_blocks)))))
         /\ In R (block_addrs F')
         /\ ~ In R (block_addrs three_blocks)
         /\ R <> bump (block_addrs three_blocks)).
Proof.
split; [exact three_blocks_wf|].
split; [exact three_blocks_sites|].
exact (mergeCallSites_origin_blocks bump bump_fresh ex_params ex_T three_blocks
         three_blocks_wf three_blocks_sites).
Defined.

Lemma mergeCallSites_block_order_witness :
  wf ex_params three_blocks
  /\ 2 <= length (collectCallSites ex_T three_blocks)
  /\ (exists u F',
    mergeCallSites bump ex_params ex_T three_blocks = Some (Some u, F')
    /\ hd_error (block_addrs F') = hd_error (block_addrs three_blocks)
    /\ filter (fun a => existsb (Nat.eqb a) (block_addrs three_blocks)) (block_addrs F')
       = block_addrs three_blocks
    /\ length three_blocks + length (collectCallSites ex_T three_blocks) + 1 <= length F'
    /\ length F' <= length three_blocks + length (collectCallSites ex_T three_blocks) + 2).
Proof.
split; [exact three_blocks_wf|].
split; [exact three_blocks_sites|].
exact (mergeCallSites_block_order bump bump_fresh ex_params ex_T three_blocks
         three_blocks_wf three_blocks_sites).
Defined.

Lemma mergeCallSites_erases_only_call_sites_witness :
  wf ex_params three_blocks
  /\ 2 <= length (collectCallSites ex_T three_blocks)
  /\ (exists u F',
    mergeCallSites bump ex_params ex_T three_blocks = Some (Some u, F')
    /\ (forall x, In x (all_insts three_blocks) -> is_call_site ex_T x = false ->
                  exists x', In x' (all_insts F')
                             /\ strip x' = strip (rename_inst (collectCallSites ex_T three_blocks) u x))
    /\ (forall x, In x (all_insts three_blocks) -> is_call_site ex_T x = false ->
                  isa_PHI (ikind x) = false ->
                  In (rename_inst (collectCallSites ex_T three_blocks) u x) (all_insts F'))).
Proof.
split; [exact three_blocks_wf|].
split; [exact three_blocks_sites|].
exact (mergeCallSites_erases_only_call_sites bump bump_fresh ex_params ex_T three_blocks
         three_blocks_wf three_blocks_sites).
Defined.

Lemma mergeCallSites_default_block_witness :
  wf ex_params three_blocks
  /\ 2 <= length (collectCallSites ex_T three_blocks)
  /\ (exists u F' blk s c dflt cases b,
    mergeCallSites bump ex_params ex_T three_blocks = Some (Some u, F')
    /\ find_block (bump (block_addrs three_blocks)) F' = Some blk
    /\ getTerminator (insts blk) = Some (mkInst s (Switch c dflt cases))
    /\ In b F' /\ baddr b = dflt /\ lone_unreachable b).
Proof.
split; [exact three_blocks_wf|].
split; [exact three_blocks_sites|].
exact (mergeCallSites_default_block bump bump_fresh ex_params ex_T three_blocks
         three_blocks_wf three_blocks_sites).
Defined.

Lemma mergeCallSites_preserves_targets_closed_witness :
  wf ex_params three_blocks
  /\ targets_closed three_blocks
  /\ (exists r F', mergeCallSites bump ex_params ex_T three_blocks = Some (r, F') /\ targets_closed F').
Proof.
split; [exact three_blocks_wf|].
split; [exact three_blocks_closed|].
exact (mergeCallSites_preserves_targets_closed bump bump_fresh ex_params ex_T three_blocks
         three_blocks_wf three_blocks_closed).
Defined.

Lemma split_call_site_spec_witness :
  three_blocks
  = [] ++ mkBlock 30 ([] ++ mkInst 1 (Call (VFunction ex_T) [VArgument 0])
                         :: mkInst 2 (Other [VInst 1]) :: [mkInst 3 (Br 20)])
       :: tl three_blocks
  /\ NoDup (block_addrs three_blocks)
  /\ NoDup (inst_addrs three_blocks)
  /\ isa_PHI (ikind (mkInst 1 (Call (VFunction ex_T) [VArgument 0]))) = false
  /\ isa_PHI (ikind (mkInst 2 (Other [VInst 1]))) = false
  /\ getTerminator [mkInst 2 (Other [VInst 1]); mkInst 3 (Br 20)] = Some (mkInst 3 (Br 20))
  /\ exists R b F',
       split_call_site bump 31 (iaddr (mkInst 1 (Call (VFunction ex_T) [VArgument 0])))
                       three_blocks = Some ((30, R), F')
       /\ ~ In R (block_addrs three_blocks) /\ ~ In b (inst_addrs three_blocks)
       /\ sF F' = sF ([] ++ mkBlock 30 ([] ++ [mkInst b (Br 31)])
                          :: mkBlock R (mkInst 1 (Call (VFunction ex_T) [VArgument 0])
                                          :: mkInst 2 (Other [VInst 1]) :: [mkInst 3 (Br 20)])
                          :: tl three_blocks).
Proof.
split; [reflexivity|].
split; [exact (wf_blocks _ _ three_blocks_wf)|].
split; [exact (wf_insts _ _ three_blocks_wf)|].
split; [reflexivity|]. split; [reflexivity|]. split; [reflexivity|].
exact (split_call_site_spec bump bump_fresh 31 three_blocks [] 30 []
         (mkInst 1 (Call (VFunction ex_T) [VArgument 0])) (mkInst 2 (Other [VInst 1]))
         [mkInst 3 (Br 20)] (tl three_blocks) (mkInst 3 (Br 20))
         eq_refl (wf_blocks _ _ three_blocks_wf) (wf_insts _ _ three_blocks_wf)
         eq_refl eq_refl eq_refl).
Defined.

(** ** The PHI nodes of the call block and their incoming blocks *)

Section PhiEntries.
Variable fresh : list addr -> addr.
Hypothesis fresh_spec : forall l, ~ In (fresh l) l.
Variable fn_args : addr -> list typ.

(** X18: every PHI node of the call block has exactly one incoming entry
    per origin block.  The call block consists of the PHI nodes of the
    parameters, the discriminator PHI node, the unified call and the
    switch, in this order; the PHI node of each parameter lists the origin
    blocks in the order the call sites were collected, the discriminator
    lists the same blocks (in the order of the map [CallSiteToRet]), and
    the origin blocks are pairwise distinct. *)
Theorem mergeCallSites_phi_entries T F :
  wf fn_args F -> 2 <= length (collectCallSites T F) ->
  exists u F' lg F1 phis w inc s dflt cases,
    mergeCallSites fresh fn_args T F = Some (Some u, F')
    /\ split_pairs fresh (fresh (block_addrs F)) (collectCallSites T F)
                   (F ++ [mkBlock (fresh (block_addrs F)) []]) = Some (lg, F1)
    /\ find_block (fresh (block_addrs F)) F'
       = Some (mkBlock (fresh (block_addrs F))
                 (phis ++ [mkInst w (PHI (IntegerTy 32) inc);
                           mkInst u (Call (VFunction T) (map (fun p => VInst (iaddr p)) phis));
                           mkInst s (Switch (VInst w) dflt cases)]))
    /\ length phis = length (fn_args T)
    /\ (forall p, In p phis ->
          exists ty inc', ikind p = PHI ty inc' /\ map snd inc' = map origin_of lg)
    /\ Permutation (map snd inc) (map origin_of lg)
    /\ NoDup (map origin_of lg).
Proof.
intros WF Hlen.
destruct (mergeCallSites_merges fresh fresh_spec fn_args T F WF Hlen) as (u & F' & Hrun & Hres).
destruct Hres as [M lg G1 G2 phis w s dflt tail EM Hpairs Hfst Inv EF' Hk NB NI Hu Hp Htail].
subst M. set (cs := collectCallSites T F) in *. set (M := fresh (block_addrs F)) in *.
assert (ND := li_nodup _ _ _ _ _ _ _ Inv).
exists u, F', lg, (plug G1 M [] G2), (map (rename_inst cs u) phis), w,
  (discr_incoming 0 (ret_map lg [])), s, dflt, (switch_cases 0 (ret_map lg [])).
split; [exact Hrun|]. split; [exact Hpairs|]. split; [|split; [|split; [|split]]].
- rewrite EF'. unfold plug. rewrite map_map. simpl.
  apply find_block_here; [|reflexivity].
  rewrite EF', block_addrs_plug in NB. apply NoDup_mid in NB. apply NB.
- rewrite length_map, <- (length_map ikind), Hk. apply arg_phi_kinds_length.
- intros p' Hp'. apply in_map_iff in Hp'. destruct Hp' as (p & <- & Hpin).
  assert (Hkp : In (ikind p) (arg_phi_kinds (plug G1 M [] G2) (orig_map lg [])
                                (map fst lg) (fn_args T) 0)).
  { rewrite Hfst, <- Hk. apply in_map, Hpin. }
  apply arg_phi_kinds_blocks in Hkp.
  2:{ rewrite Hfst. apply collectCallSites_NoDup, WF. }
  destruct Hkp as (ty & inc & Ek & Hb). simpl. rewrite Ek. simpl.
  eexists. eexists. split; [reflexivity|]. rewrite map_map. simpl.
  rewrite <- Hb. reflexivity.
- rewrite discr_incoming_blocks. apply (ret_map_facts lg ND).
- exact ND.
Qed.
End PhiEntries.

(** ** Origin blocks and resume blocks of a merge *)

Section Origins.
Variable fresh : list addr -> addr.
Hypothesis fresh_spec : forall l, ~ In (fresh l) l.
Variable fn_args : addr -> list typ.

Lemma merge_result_fresh_call T F u F' :
  wf fn_args F -> merge_result fresh fn_args T F u F' -> ~ In u (inst_addrs F).
Proof.
intros WF [M lg G1 G2 phis w s dflt tail EM Hpairs Hfst Inv EF' Hk NB NI Hu Hp Htail].
subst M.
assert (K := first_loop_keeps fresh fresh_spec fn_args T F lg _ WF Hpairs).
intros Hi. apply Hu. apply (loop_keeps_inst_addrs _ _ _ _ K), Hi.
Qed.

(** Where the recorded pairs of the first loop are in the merged function. *)
Lemma merge_result_origins T F u F' lg F1 :
  wf fn_args F -> merge_result fresh fn_args T F u F' ->
  split_pairs fresh (fresh (block_addrs F)) (collectCallSites T F)
              (F ++ [mkBlock (fresh (block_addrs F)) []]) = Some (lg, F1) ->
  forall c P R, In (c, (P, R)) lg ->
    (exists blk b, In blk F' /\ baddr blk = P
                   /\ getTerminator (insts blk)
                      = Some (mkInst b (Br (fresh (block_addrs F)))))
    /\ In R (block_addrs F')
    /\ ~ In R (block_addrs F)
    /\ R <> fresh (block_addrs F).
Proof.
intros WF Hres Hpairs0.
destruct Hres as [M lg0 G1 G2 phis w s dflt tail EM Hpairs Hfst Inv EF' Hk NB NI Hu Hp Htail].
subst M. rewrite Hpairs in Hpairs0. injection Hpairs0 as Elg EF1. subst lg0.
assert (K := first_loop_keeps fresh fresh_spec fn_args T F lg _ WF Hpairs).
set (cs := collectCallSites T F) in *. set (M := fresh (block_addrs F)) in *.
intros c P R He.
assert (EB : block_addrs F' = block_addrs (plug G1 M [] G2) ++ block_addrs tail).
{ rewrite EF', !block_addrs_plug, block_addrs_app, rw_block_addrs, rw_block_addrs.
  rewrite <- app_assoc. reflexivity. }
split; [|split; [|split]].
- destruct (li_origin _ _ _ _ _ _ _ Inv _ He) as (l & b & Hin & _).
  unfold origin_of in Hin. simpl in Hin.
  apply in_map_iff in Hin. destruct Hin as (blk0 & Es & Hblk0).
  destruct blk0 as [a l0]. rewrite sB_mk in Es. injection Es as Ea El. subst a.
  apply map_strip_snoc in El. destruct El as (l0' & x & -> & _ & Ex).
  apply strip_Br in Ex. subst x.
  assert (HinG : In (mkBlock P (l0' ++ [mkInst b (Br M)])) (G1 ++ G2)).
  { unfold plug in Hblk0. apply in_app_iff in Hblk0. apply in_app_iff.
    destruct Hblk0 as [H|[H|H]]; auto.
    injection H as _ H. destruct l0'; discriminate. }
  assert (Hb : ~ In b cs).
  { intros Hc. rewrite <- Hfst in Hc.
    destruct (after_loop_site_kind T M _ F lg G1 G2 (mkInst b (Br M)) Inv) as (args & Ek).
    - unfold all_insts. apply in_flat_map. eexists. split; [exact HinG|].
      simpl. apply in_or_app. right. left. reflexivity.
    - exact Hc.
    - discriminate. }
  exists (on_insts (rw cs u) (mkBlock P (l0' ++ [mkInst b (Br M)]))), b.
  split; [|split; [reflexivity|]].
  + rewrite EF'. unfold plug. apply in_app_iff in HinG.
    apply in_app_iff.
    destruct HinG as [H|H]; [left|right; right; apply in_or_app; left];
      apply (in_map (on_insts (rw cs u)) _ _ H).
  + simpl. rewrite rw_app.
    assert (E1 : rw cs u [mkInst b (Br M)] = [mkInst b (Br M)]).
    { rewrite rw_keep; [reflexivity|]. intros x [<-|[]]. exact Hb. }
    rewrite E1, getTerminator_app. reflexivity.
- rewrite EB. apply in_or_app. left.
  rewrite <- sF_block_addrs. apply (lk_resume _ _ _ _ K _ He).
- rewrite <- sF_block_addrs. apply (lk_resume _ _ _ _ K _ He).
- apply (li_resume _ _ _ _ _ _ _ Inv _ He).
Qed.
End Origins.

(** ** What the resume block of a call site holds *)

Lemma inst_block_unique G b1 b2 x :
  NoDup (inst_addrs G) -> In b1 G -> In b2 G ->
  In x (insts b1) -> In x (insts b2) -> b1 = b2.
Proof.
induction G as [|b G IH]; intros ND H1 H2 Hx1 Hx2; [destruct H1|].
rewrite inst_addrs_cons in ND. apply NoDup_app_inv in ND. destruct ND as (_ & ND & D).
assert (Hout : forall b', In b' G -> In x (insts b') -> In x (insts b) -> False).
{ intros b' Hb' Hx' Hx. apply (D (iaddr x)); [apply in_map, Hx|].
  apply in_inst_addrs. exists b'. split; [exact Hb'|apply in_map, Hx']. }
destruct H1 as [<-|H1], H2 as [<-|H2].
- reflexivity.
- exfalso. apply (Hout b2 H2 Hx2 Hx1).
- exfalso. apply (Hout b1 H1 Hx1 Hx2).
- apply IH; assumption.
Qed.

Lemma in_block_all_insts G b x : In b G -> In x (insts b) -> In x (all_insts G).
Proof. intros Hb Hx. unfold all_insts. apply in_flat_map. eauto. Qed.

Lemma block_insts_NoDup G b : NoDup (inst_addrs G) -> In b G -> NoDup (insts b).
Proof.
intros ND Hb. apply in_split in Hb. destruct Hb as (A & B & ->).
rewrite inst_addrs_app, inst_addrs_cons in ND.
apply NoDup_app_inv in ND. destruct ND as (_ & ND & _).
apply NoDup_app_inv in ND. destruct ND as (ND & _ & _).
apply (NoDup_map_inv iaddr), ND.
Qed.

Lemma resumes_inv_step T M lg G cj PR G' ci n :
  NoDup (inst_addrs G) ->
  split_rel M cj G PR G' ->
  is_call_site T cj = true -> ~ In (iaddr cj) (map fst lg) ->
  isa_PHI (ikind ci) = false ->
  isa_PHI (ikind n) = false -> is_call_site T n = false ->
  resumes_inv lg G ci n ->
  resumes_inv (lg ++ [(iaddr cj, PR)]) G' ci n.
Proof.
intros NI Hrel Hsj Hnew HPc HPn Hsn Hinv.
destruct Hrel as [A P p q1 q2 B R b Hq HR Hb Ht].
set (blkP := mkBlock P (p ++ cj :: q1 ++ q2)) in *.
assert (Hncj : n <> cj) by (intros E; rewrite E, Hsj in Hsn; discriminate).
assert (HinG : forall x, In x (A ++ blkP :: B) <-> In x A \/ x = blkP \/ In x B).
{ intros x. rewrite in_app_iff. simpl. intuition congruence. }
assert (HinG' : forall x,
           In x (A ++ mkBlock P (p ++ [mkInst b (Br M)]) :: mkBlock R (q1 ++ cj :: q2) :: B)
           <-> In x A \/ x = mkBlock P (p ++ [mkInst b (Br M)])
               \/ x = mkBlock R (q1 ++ cj :: q2) \/ In x B).
{ intros x. rewrite in_app_iff. simpl. intuition congruence. }
assert (HPin : In blkP (A ++ blkP :: B)) by (apply HinG; auto).
assert (Hcj : In cj (insts blkP)).
{ unfold blkP. simpl. apply in_or_app. right. left. reflexivity. }
destruct Hinv as [[Hpend (blk & Hblk & pre & post & Eblk)]|(P0 & R0 & post & Hlg & Hblk)].
- assert (Hci : In ci (insts blk)).
  { rewrite Eblk. apply in_or_app. right. left. reflexivity. }
  destruct (Nat.eq_dec (iaddr ci) (iaddr cj)) as [Ea|Na].
  + (* the call is split out now *)
    assert (E : ci = cj).
    { apply (inst_eq_of_addr (A ++ blkP :: B) ci cj NI); auto.
      - apply (in_block_all_insts _ blk); assumption.
      - apply (in_block_all_insts _ blkP); assumption. }
    subst cj.
    assert (Eb : blk = blkP) by (apply (inst_block_unique _ blk blkP ci NI); assumption).
    subst blk. unfold blkP in Eblk. simpl in Eblk.
    assert (NDl : NoDup (p ++ ci :: q1 ++ q2))
      by (apply (block_insts_NoDup _ blkP NI HPin)).
    destruct (NoDup_split_unique _ _ _ _ _ NDl Eblk) as [Ep Eq].
    destruct q1 as [|x q1].
    * simpl in Eq. subst q2. right. exists P, R, post. split.
      -- apply in_or_app. right. left. reflexivity.
      -- apply HinG'. right. right. left. reflexivity.
    * exfalso. simpl in Eq. injection Eq as Ex _. subst x.
      apply Forall_inv in Hq. congruence.
  + left. split.
    * rewrite map_app. intros Hi. apply in_app_iff in Hi.
      destruct Hi as [Hi|[Hi|[]]]; [exact (Hpend Hi)|]. simpl in Hi. congruence.
    * apply HinG in Hblk. destruct Hblk as [Hblk|[->|Hblk]].
      -- exists blk. split; [apply HinG'; auto|]. exists pre, post. exact Eblk.
      -- unfold blkP in Eblk. simpl in Eblk. apply app_eq_app in Eblk.
         destruct Eblk as (l & [[E1 E2]|[E1 E2]]).
         ++ (* the pair lies before the call *)
            destruct l as [|x l]; simpl in E2.
            { exfalso. injection E2 as E2 _. apply Na. rewrite E2. reflexivity. }
            injection E2 as Ex E2. subst x.
            destruct l as [|y l]; simpl in E2.
            { exfalso. injection E2 as E2 _. apply Hncj. exact E2. }
            injection E2 as Ey E2. subst y.
            exists (mkBlock P (p ++ [mkInst b (Br M)])).
            split; [apply HinG'; auto|].
            exists pre, (l ++ [mkInst b (Br M)]). simpl. rewrite E1.
            rewrite <- !app_assoc. reflexivity.
         ++ (* the pair lies after the call *)
            destruct l as [|x l]; simpl in E2.
            { exfalso. injection E2 as E2 _. apply Na. rewrite E2. reflexivity. }
            injection E2 as Ex E2. subst x.
            apply app_eq_app in E2. destruct E2 as (m & [[E3 E4]|[E3 E4]]).
            { destruct m as [|z m]; simpl in E4.
              - exists (mkBlock R (q1 ++ cj :: q2)).
                split; [apply HinG'; auto|].
                exists (q1 ++ [cj]), post. simpl. rewrite <- E4, <- app_assoc. reflexivity.
              - exfalso. injection E4 as Ez _. subst z.
                rewrite Forall_forall in Hq.
                assert (Hin1 : In ci q1)
                  by (rewrite E3; apply in_or_app; right; left; reflexivity).
                apply Hq in Hin1. congruence. }
            { exists (mkBlock R (q1 ++ cj :: q2)).
              split; [apply HinG'; auto|].
              exists (q1 ++ cj :: m), post. simpl. rewrite E4, <- app_assoc. reflexivity. }
      -- exists blk. split; [apply HinG'; auto|]. exists pre, post. exact Eblk.
- right. exists P0, R0.
  apply HinG in Hblk. destruct Hblk as [Hblk|[Hblk|Hblk]].
  + exists post. split; [apply in_or_app; left; exact Hlg|]. apply HinG'. auto.
  + unfold blkP in Hblk. injection Hblk as EP El. subst R0.
    destruct p as [|x p]; simpl in El.
    { exfalso. injection El as El _. apply Hnew. rewrite <- El.
      apply (in_map fst) in Hlg. exact Hlg. }
    injection El as Ex El. subst x.
    destruct p as [|y p]; simpl in El.
    { exfalso. injection El as El _. apply Hncj. exact El. }
    injection El as Ey El. subst y.
    exists (p ++ [mkInst b (Br M)]). split; [apply in_or_app; left; exact Hlg|].
    apply HinG'. right. left. reflexivity.
  + exists post. split; [apply in_or_app; left; exact Hlg|]. apply HinG'. auto.
Qed.

Lemma find_block_in F b : NoDup (block_addrs F) -> In b F -> find_block (baddr b) F = Some b.
Proof.
intros ND Hb. apply in_split in Hb. destruct Hb as (A & B & ->).
apply find_block_here; [|reflexivity].
rewrite block_addrs_app in ND. simpl in ND. apply NoDup_mid in ND. apply ND.
Qed.

Lemma NoDup_fst_unique {A B} (l : list (A * B)) k v v' :
  NoDup (map fst l) -> In (k, v) l -> In (k, v') l -> v = v'.
Proof.
induction l as [|[k0 v0] l IH]; simpl; intros ND H1 H2; [contradiction|].
apply NoDup_cons_iff in ND. destruct ND as [Hk ND].
destruct H1 as [E1|H1], H2 as [E2|H2].
- congruence.
- exfalso. apply Hk. inv E1. apply (in_map fst _ _ H2).
- exfalso. apply Hk. inv E2. apply (in_map fst _ _ H1).
- apply IH; assumption.
Qed.

Lemma strip_inv_nonphi x y : strip x = y -> isa_PHI (ikind y) = false -> x = y.
Proof.
intros E HP. rewrite <- E in HP. rewrite strip_isa_PHI in HP.
rewrite (strip_nonphi x HP) in E. exact E.
Qed.

Section Resumes.
Variable fresh : list addr -> addr.
Hypothesis fresh_spec : forall l, ~ In (fresh l) l.
Variable fn_args : addr -> list typ.

(** An invariant of the steps of the first loop holds when the loop ends. *)
Lemma split_pairs_invariant T M closed calls0
      (Q : list (addr * (addr * addr)) -> Func -> Prop) :
  (forall lg c todo ci G PR G',
      loop_inv T M closed calls0 lg (c :: todo) G ->
      iaddr ci = c -> is_call_site T ci = true ->
      split_rel M ci G PR G' -> Q lg G -> Q (lg ++ [(c, PR)]) G') ->
  forall todo lg F lg' F',
    loop_inv T M closed calls0 lg todo (sF F) -> Q lg (sF F) ->
    split_pairs fresh M todo F = Some (lg', F') ->
    Q (lg ++ lg') (sF F').
Proof.
intros Hstep. induction todo as [|c todo IH]; intros lg F lg' F' Inv HQ Hrun.
- simpl in Hrun. inv Hrun. rewrite app_nil_r. exact HQ.
- assert (Hc : In c (map iaddr (filter (is_call_site T) calls0))).
  { rewrite (li_sites _ _ _ _ _ _ _ Inv). apply in_or_app. right. left. reflexivity. }
  apply in_map_iff in Hc. destruct Hc as (ci & Ec & Hci).
  apply filter_In in Hci. destruct Hci as [Hci Hsite].
  rewrite <- (li_calls _ _ _ _ _ _ _ Inv) in Hci.
  apply filter_In in Hci. destruct Hci as [Hci HciC].
  apply in_all_insts_sF in Hci; [|apply isCall_nonphi, HciC].
  destruct (split_call_site_sim fresh fresh_spec M F ci) as (PR & F1 & Hrun1 & Hrel).
  + rewrite <- sF_block_addrs. apply (li_blocks _ _ _ _ _ _ _ Inv).
  + rewrite <- sF_inst_addrs. apply (li_insts _ _ _ _ _ _ _ Inv).
  + exact Hci.
  + apply isCall_nonphi, HciC.
  + apply isCall_nonterm, HciC.
  + intros b Hb Hin. apply has_terminator_sB.
    apply (li_term _ _ _ _ _ _ _ Inv); [apply in_map, Hb|].
    intros EM.
    assert (E : sB b = mkBlock M []).
    { apply (block_eq_of_addr (sF F)); auto.
      - apply (li_blocks _ _ _ _ _ _ _ Inv).
      - apply in_map, Hb.
      - apply (li_M _ _ _ _ _ _ _ Inv). }
    apply (f_equal insts) in E. simpl in E.
    destruct (insts b); [destruct Hin | discriminate].
  + assert (Inv1 := loop_inv_step _ _ _ _ _ _ _ _ _ _ _ Inv Ec Hsite Hrel).
    assert (Q1 := Hstep _ _ _ _ _ _ _ Inv Ec Hsite Hrel HQ).
    simpl in Hrun. rewrite Ec in Hrun1. rewrite (bind_eq _ _ _ _ _ Hrun1) in Hrun.
    apply bind_Some in Hrun. destruct Hrun as (lg1 & F2 & Hrun2 & Hret).
    unfold ret in Hret. inv Hret.
    specialize (IH _ _ _ _ Inv1 Q1 Hrun2).
    rewrite <- app_assoc in IH. exact IH.
Qed.

Lemma loop_inv_next_new T M closed calls0 lg c todo G :
  loop_inv T M closed calls0 lg (c :: todo) G -> ~ In c (map fst lg).
Proof.
intros Inv.
assert (NDs : NoDup (map iaddr (filter (is_call_site T) calls0))).
{ rewrite <- (li_calls _ _ _ _ _ _ _ Inv), filter_filter_sub by apply is_call_site_isCall.
  apply NoDup_map_filter. apply (li_insts _ _ _ _ _ _ _ Inv). }
rewrite (li_sites _ _ _ _ _ _ _ Inv) in NDs. apply NoDup_mid in NDs. apply NDs.
Qed.

(** The resume block recorded for a call site begins, in the merged
    function, with the instruction that followed the call. *)
Lemma merge_result_resumes T F u F' lg F1 :
  wf fn_args F -> merge_result fresh fn_args T F u F' ->
  split_pairs fresh (fresh (block_addrs F)) (collectCallSites T F)
              (F ++ [mkBlock (fresh (block_addrs F)) []]) = Some (lg, F1) ->
  forall c P R, In (c, (P, R)) lg ->
  forall ci n, iaddr ci = c -> next_in_function F ci n ->
               isa_PHI (ikind n) = false -> is_call_site T n = false ->
               exists rest,
                 find_block R F'
                 = Some (mkBlock R (rename_inst (collectCallSites T F) u n :: rest)).
Proof.
intros WF Hres Hpairs0.
destruct Hres as [M lg0 G1 G2 phis w s dflt tail EM Hpairs Hfst Inv EF' Hk NB NI Hu Hp Htail].
subst M. rewrite Hpairs in Hpairs0. injection Hpairs0 as Elg EF1. subst lg0.
set (cs := collectCallSites T F) in *. set (M := fresh (block_addrs F)) in *.
intros c P R He ci n Ec (blk & Hblk & pre & post & Eblk) HPn Hsn.
assert (Hci : In ci (all_insts F)).
{ apply (in_block_all_insts F blk _ Hblk). rewrite Eblk. apply in_or_app. right. left.
  reflexivity. }
assert (Hn : In n (all_insts F)).
{ apply (in_block_all_insts F blk _ Hblk). rewrite Eblk. apply in_or_app. right. right. left.
  reflexivity. }
assert (Hc : In c cs) by (rewrite <- Hfst; apply (in_map fst _ _ He)).
assert (Hsc : is_call_site T ci = true).
{ apply (in_collectCallSites T F ci (wf_insts _ _ WF) Hci). rewrite Ec. exact Hc. }
assert (HPc : isa_PHI (ikind ci) = false)
  by (apply isCall_nonphi, (is_call_site_isCall T), Hsc).
assert (Hncs : ~ In (iaddr n) cs).
{ intros Hi. rewrite (in_collectCallSites T F n (wf_insts _ _ WF) Hn Hi) in Hsn.
  discriminate. }
assert (H0 : resumes_inv [] (sF (F ++ [mkBlock M []])) ci n).
{ left. split; [intros []|]. exists (sB blk). split.
  - rewrite sF_app. apply in_or_app. left. apply in_map, Hblk.
  - exists (map strip pre), (map strip post). simpl. rewrite Eblk, map_app. simpl.
    rewrite (strip_nonphi ci HPc), (strip_nonphi n HPn). reflexivity. }
assert (H1 := split_pairs_invariant T M (targets_closed F) (filter isCall (all_insts F))
                (fun lg G => resumes_inv lg G ci n)).
simpl in H1.
specialize (H1 (fun lg c0 todo cj G PR G' Inv0 Ecj Hsj Hrel HQ =>
                  eq_ind (iaddr cj)
                         (fun a => resumes_inv (lg ++ [(a, PR)]) G' ci n)
                         (resumes_inv_step T M lg G cj PR G' ci n
                            (li_insts _ _ _ _ _ _ _ Inv0) Hrel Hsj
                            (eq_ind_r (fun a => ~ In a (map fst lg))
                                      (loop_inv_next_new _ _ _ _ _ _ _ _ Inv0) Ecj)
                            HPc HPn Hsn HQ)
                         c0 Ecj)).
specialize (H1 cs [] (F ++ [mkBlock M []]) lg (plug G1 M [] G2)
               (initial_inv fresh fresh_spec fn_args T F WF) H0 Hpairs).
simpl in H1.
destruct H1 as [[Hno _]|(P0 & R0 & post0 & Hlg0 & Hblk0)].
{ exfalso. apply Hno. rewrite Ec, Hfst. exact Hc. }
assert (ND1 : NoDup (map fst lg)).
{ rewrite Hfst. apply collectCallSites_NoDup, WF. }
rewrite Ec in Hlg0.
assert (EPR := NoDup_fst_unique lg c (P0, R0) (P, R) ND1 Hlg0 He).
injection EPR as -> ->.
apply in_map_iff in Hblk0. destruct Hblk0 as ([a l0] & Es & Hb0).
rewrite sB_mk in Es. injection Es as Ea El. subst a.
destruct l0 as [|x [|y l0]]; simpl in El; try discriminate.
assert (Ex : strip x = ci) by (apply (f_equal (fun l => hd (strip x) l)) in El; exact El).
assert (Ey : strip y = n)
  by (apply (f_equal (fun l => hd (strip y) (tl l))) in El; exact El).
apply strip_inv_nonphi in Ex; [|exact HPc]. apply strip_inv_nonphi in Ey; [|exact HPn].
subst x y.
assert (HinG : In (mkBlock R (ci :: n :: l0)) (G1 ++ G2)).
{ unfold plug in Hb0. apply in_app_iff in Hb0. apply in_app_iff.
  destruct Hb0 as [H|[H|H]]; auto. discriminate. }
assert (Erw : rw cs u (ci :: n :: l0) = rename_inst cs u n :: rw cs u l0).
{ unfold rw. simpl. rewrite Ec.
  rewrite (proj2 (existsb_eqb_In c cs) Hc), (existsb_eqb_notin _ _ Hncs). reflexivity. }
exists (rw cs u l0). rewrite <- Erw.
change (mkBlock R (rw cs u (ci :: n :: l0)))
  with (on_insts (rw cs u) (mkBlock R (ci :: n :: l0))).
change R with (baddr (on_insts (rw cs u) (mkBlock R (ci :: n :: l0)))) at 1.
apply find_block_in; [exact NB|].
rewrite EF'. unfold plug. apply in_app_iff in HinG. apply in_app_iff.
destruct HinG as [H|H]; [left|right; right; apply in_or_app; left];
  apply (in_map (on_insts (rw cs u)) _ _ H).
Qed.
End Resumes.

(** ** The way back from the call block *)

Section ReturnPath.
Variable fresh : list addr -> addr.
Hypothesis fresh_spec : forall l, ~ In (fresh l) l.
Variable fn_args : addr -> list typ.

(** C3: the discriminator and the switch pair every origin block with its
    own resume block.  Each origin block has one discriminator entry, with
    a constant of its own; the switch has one case per constant; and the
    constant selected on arrival from an origin block [P] hits the case
    whose target is the resume block [R] recorded with [P] when [P] was
    split.  What [P] and [R] are in the merged function: [P] is a block
    that ends in a branch to the call block; [R] is a block that the merge
    created (it is neither a block of the original function nor the call
    block), and it begins with the instruction that followed the call in
    the original function, operands renamed, whenever that instruction is
    neither a PHI node nor one of the merged calls itself. *)
Theorem redispatch_returns_to_own_resume_block T F :
  wf fn_args F -> 2 <= length (collectCallSites T F) ->
  exists u F' lg F1 inc dflt cases,
    mergeCallSites fresh fn_args T F = Some (Some u, F')
    /\ split_pairs fresh (fresh (block_addrs F)) (collectCallSites T F)
                   (F ++ [mkBlock (fresh (block_addrs F)) []]) = Some (lg, F1)
    /\ map fst lg = collectCallSites T F
    /\ redispatch (fresh (block_addrs F)) F' = Some (inc, dflt, cases)
    /\ NoDup (map origin_of lg)
    /\ Permutation (map snd inc) (map origin_of lg)
    /\ NoDup (map fst inc)
    /\ map fst inc = map VConstant (map fst cases)
    /\ NoDup (map fst cases)
    /\ (forall c P R, In (c, (P, R)) lg ->
          (exists k, getIncomingValueForBlock inc P = Some (VConstant k)
                     /\ findCaseDest cases dflt k = CaseEdge R)
          /\ (exists blk b, In blk F' /\ baddr blk = P
                            /\ getTerminator (insts blk)
                               = Some (mkInst b (Br (fresh (block_addrs F)))))
          /\ In R (block_addrs F')
          /\ ~ In R (block_addrs F)
          /\ R <> fresh (block_addrs F)
          /\ (forall ci n,
                iaddr ci = c -> next_in_function F ci n ->
                isa_PHI (ikind n) = false -> is_call_site T n = false ->
                exists rest,
                  find_block R F'
                  = Some (mkBlock R (rename_inst (collectCallSites T F) u n :: rest)))).
Proof.
intros WF Hlen.
destruct (mergeCallSites_merges fresh fresh_spec fn_args T F WF Hlen) as (u & F' & Hrun & Hres).
destruct (merge_result_redispatch fresh fn_args T F u F' Hres)
  as (lg & F1 & dflt & Hpairs & Hfst & ND & Hred & _).
destruct (ret_map_facts lg ND) as (Hsorted & Hperm & Hkeys).
exists u, F', lg, F1, (discr_incoming 0 (ret_map lg [])), dflt,
       (switch_cases 0 (ret_map lg [])).
split; [exact Hrun|]. split; [exact Hpairs|]. split; [exact Hfst|].
split; [exact Hred|]. split; [exact ND|].
split; [rewrite discr_incoming_blocks; exact Hkeys|].
split.
{ rewrite discr_incoming_consts. apply NoDup_map_inj; [|apply Zseq_NoDup].
  intros x y E. inv E. reflexivity. }
split.
{ rewrite discr_incoming_consts, switch_cases_consts, map_map. reflexivity. }
split.
{ rewrite switch_cases_consts. apply NoDup_map_inj; [|apply Zseq_NoDup].
  intros x y E. inv E. reflexivity. }
intros c P R Hin.
destruct (merge_result_origins fresh fresh_spec fn_args T F u F' lg F1 WF Hres Hpairs
            c P R Hin) as (HP & HR1 & HR2 & HR3).
split; [|split; [exact HP|split; [exact HR1|split; [exact HR2|split; [exact HR3|]]]]].
- destruct (redispatch_entry dflt (ret_map lg []) 0%Z P R) as (k & _ & H1 & H2).
  + apply StronglySorted_lt_NoDup, Hsorted.
  + apply (Permutation_in _ (Permutation_sym Hperm)).
    apply in_map_iff. exists (c, (P, R)). auto.
  + exists (APInt 32 k). auto.
- apply (merge_result_resumes fresh fresh_spec fn_args T F u F' lg F1 WF Hres Hpairs
           c P R Hin).
Qed.
End ReturnPath.

(** ** [runOnFunction]: when it reports a change *)

Lemma eligible_calls_fn isI f x :
  eligible isI x && calls_fn f x = negb (isI f) && is_call_site f x.
Proof.
destruct x as [a k]. unfold eligible, calls_fn, is_call_site. simpl.
destruct k as [[i|m|c|g|m|m] args| | | | | |]; simpl; rewrite ?andb_false_r; try reflexivity.
destruct (Nat.eqb_spec g f) as [->|N]; [rewrite !andb_true_r; reflexivity|].
rewrite !andb_false_r. reflexivity.
Qed.

Lemma eligible_calls_to_addrs isI f F :
  map iaddr (eligible_calls_to isI f F) = if isI f then [] else collectCallSites f F.
Proof.
unfold eligible_calls_to. rewrite collectCallSites_filter.
rewrite (filter_ext _ _ (eligible_calls_fn isI f)).
destruct (isI f); simpl; [|reflexivity].
rewrite filter_nil; [reflexivity|]. reflexivity.
Qed.

Lemma eligible_calls_to_many isI f F :
  2 <= length (eligible_calls_to isI f F)
  <-> isI f = false /\ 2 <= length (collectCallSites f F).
Proof.
rewrite <- (length_map iaddr), eligible_calls_to_addrs.
destruct (isI f); simpl; split; try tauto; try lia.
Qed.

Section Modified.
Variable fresh : list addr -> addr.
Hypothesis fresh_spec : forall l, ~ In (fresh l) l.
Variable fn_args : addr -> list typ.
Variable fn_isIntrinsic : addr -> bool.
Variable reg2mem : Func -> Func.

(** C7: on a well-formed function [runOnFunction] returns.  It returns
    true exactly when some callee has two or more eligible call sites in
    [F].  In that case merges did occur: in the function [Fm] that the
    loop over the callee groups leaves, every such callee is called from a
    single instruction, and [Fm] has at least three blocks more than [F];
    the demotion pass has been run once, on [Fm].  Otherwise the demotion
    pass has not been run and the function is as it was. *)
Theorem runOnFunction_modified F :
  wf fn_args F ->
  exists Modified n F' Fm,
    runOnFunction fresh fn_args fn_isIntrinsic reg2mem F = Some ((Modified, n), F')
    /\ merge_groups fresh fn_args (groupCallSites fn_isIntrinsic F) false F
       = Some (Modified, Fm)
    /\ (Modified = true <->
        exists f, 2 <= length (eligible_calls_to fn_isIntrinsic f F))
    /\ n = (if Modified then 1 else 0)
    /\ F' = (if Modified then reg2mem Fm else F)
    /\ (Modified = false -> Fm = F)
    /\ (forall f, 2 <= length (eligible_calls_to fn_isIntrinsic f F) ->
                  exists x, calls_to f Fm = [x])
    /\ (Modified = true -> length F + 3 <= length Fm).
Proof.
intros WF.
destruct (merge_groups_total fresh fresh_spec fn_args (groupCallSites fn_isIntrinsic F)
            false F WF) as (b & Fm & Hrun & WFm & Hb & Hsame).
destruct (merge_groups_sites fresh fresh_spec fn_args fn_isIntrinsic reg2mem
            (groupCallSites fn_isIntrinsic F) false F b Fm WF)
  as (_ & H2 & _ & H4).
{ apply StronglySorted_lt_NoDup, groupCallSites_sorted. }
{ intros KV Hin. destruct KV as [f l]. apply groupCallSites_in in Hin. simpl. tauto. }
{ exact Hrun. }
assert (Hiff : (exists KV, In KV (groupCallSites fn_isIntrinsic F) /\ 2 <= length (snd KV))
               <-> exists f, 2 <= length (eligible_calls_to fn_isIntrinsic f F)).
{ split.
  - intros ([f l] & Hin & Hlen). exists f. apply eligible_calls_to_many.
    apply groupCallSites_in in Hin. destruct Hin as (HI & -> & _). auto.
  - intros (f & Hlen). apply eligible_calls_to_many in Hlen. destruct Hlen as [HI Hlen].
    exists (f, collectCallSites f F). split; [|exact Hlen].
    apply groupCallSites_in. repeat split; [exact HI|].
    intros E. rewrite E in Hlen. simpl in Hlen. lia. }
exists b, (if b then 1 else 0), (if b then reg2mem Fm else F), Fm.
split.
{ unfold runOnFunction, gets. unfold bind at 1. rewrite (bind_eq _ _ _ _ _ Hrun).
  destruct b; [reflexivity|]. rewrite (Hsame eq_refl). reflexivity. }
split; [exact Hrun|].
split.
{ rewrite <- Hiff. split.
  - intros E. apply Hb in E. destruct E as [E|E]; [discriminate|exact E].
  - intros H. apply Hb. right. exact H. }
split; [reflexivity|]. split; [reflexivity|]. split; [exact Hsame|]. split.
- intros f Hlen. apply eligible_calls_to_many in Hlen. destruct Hlen as [HI Hlen].
  assert (Hin : In (f, collectCallSites f F) (groupCallSites fn_isIntrinsic F)).
  { apply groupCallSites_in. repeat split; [exact HI|].
    intros E. rewrite E in Hlen. simpl in Hlen. lia. }
  specialize (H2 _ Hin). simpl in H2.
  destruct (Nat.ltb_spec 1 (length (collectCallSites f F))) as [_|L]; [|lia].
  destruct H2 as (u & Hu). rewrite calls_to_collect in Hu.
  destruct (calls_to f Fm) as [|x [|y l]]; try discriminate. exists x. reflexivity.
- intros E. apply H4. apply Hb in E. destruct E as [E|E]; [discriminate|exact E].
Qed.
End Modified.

(** ** Ineligible calls through the merges of [runOnFunction] *)

Lemma redirected_refl x : redirected (fun _ _ => False) x x.
Proof.
split; [reflexivity|]. exists (fun v => v). split; [left; auto|].
symmetry. apply map_operands_id.
Qed.

Lemma redirected_iff (R R' : addr -> addr -> Prop) x x' :
  (forall i j, R i j <-> R' i j) -> redirected R x x' -> redirected R' x x'.
Proof.
intros Hsub (Ea & sigma & Hs & Ek). split; [exact Ea|].
exists sigma. split; [|exact Ek].
intros v. destruct (Hs v) as [[E Hn]|(i & j & Ev & Hr & E)].
- left. split; [exact E|]. intros i j Ev Hr. apply (Hn i j Ev), Hsub, Hr.
- right. exists i, j. split; [exact Ev|]. split; [apply Hsub, Hr|exact E].
Qed.

Lemma redirected_rename (R : addr -> addr -> Prop) cs u x x' :
  redirected R x x' -> (forall i j, R i j -> ~ In j cs) ->
  redirected (fun i j => R i j \/ (In i cs /\ j = u)) x (rename_inst cs u x').
Proof.
intros (Ea & sigma & Hs & Ek) Hcs. split; [exact Ea|].
exists (fun v => rename_value cs u (sigma v)). split.
- intros v. destruct (Hs v) as [[E Hn]|(i & j & -> & Hr & E)]; rewrite E.
  + destruct v as [i| | | | |]; simpl;
      try (left; split; [reflexivity|intros ? ? ?; discriminate]).
    destruct (existsb (Nat.eqb i) cs) eqn:Ex.
    * right. exists i, u. split; [reflexivity|]. split; [|reflexivity].
      right. split; [apply existsb_eqb_In, Ex|reflexivity].
    * left. split; [reflexivity|]. intros i' j' Ev [Hr|[Hi _]].
      -- exact (Hn i' j' Ev Hr).
      -- inv Ev. apply existsb_eqb_In in Hi. congruence.
  + right. exists i, j. split; [reflexivity|]. split; [left; exact Hr|].
    simpl. rewrite (existsb_eqb_notin _ _ (Hcs i j Hr)). reflexivity.
- unfold rename_inst. simpl. rewrite Ek, map_operands_comp. reflexivity.
Qed.

Lemma redirected_callee (R : addr -> addr -> Prop) x x' :
  redirected R x x' ->
  getCalledFunction (ikind x') = getCalledFunction (ikind x)
  /\ isInlineAsm (ikind x') = isInlineAsm (ikind x)
  /\ isa_CallInst (ikind x') = isa_CallInst (ikind x).
Proof.
intros (_ & sigma & Hs & Ek). rewrite Ek.
destruct (ikind x) as [callee args| | | | | |]; simpl; auto.
destruct (Hs callee) as [[E _]|(i & j & -> & _ & E)]; rewrite E; auto.
Qed.

Lemma redirected_eligible (R : addr -> addr -> Prop) isI x x' :
  redirected R x x' -> eligible isI x' = eligible isI x.
Proof.
intros H. destruct (redirected_callee R x x' H) as (E1 & E2 & E3).
unfold eligible. rewrite E1, E2, E3. reflexivity.
Qed.

Lemma redirected_is_call_site (R : addr -> addr -> Prop) T x x' :
  redirected R x x' -> is_call_site T x' = is_call_site T x.
Proof.
intros H. destruct (redirected_callee R x x' H) as (E1 & E2 & E3).
unfold is_call_site. rewrite E1, E2, E3. reflexivity.
Qed.

Lemma collectCallSites_inst_addrs T F c : In c (collectCallSites T F) -> In c (inst_addrs F).
Proof.
intros H. apply collectCallSites_spec in H. destruct H as (x & args & Hx & <- & _).
apply in_map, Hx.
Qed.

Section IneligibleCalls.
Variable fresh : list addr -> addr.
Hypothesis fresh_spec : forall l, ~ In (fresh l) l.
Variable fn_args : addr -> list typ.
Variable fn_isIntrinsic : addr -> bool.

Lemma merge_groups_redirects groups : forall Modified F Modified' F' (R : addr -> addr -> Prop),
  wf fn_args F -> NoDup (map fst groups) ->
  (forall KV, In KV groups ->
              fn_isIntrinsic (fst KV) = false /\ snd KV = collectCallSites (fst KV) F) ->
  (forall i j KV, R i j -> In KV groups -> ~ In j (snd KV)) ->
  merge_groups fresh fn_args groups Modified F = Some (Modified', F') ->
  forall x0 x, redirected R x0 x -> In x (all_insts F) ->
               isCall x0 = true -> eligible fn_isIntrinsic x0 = false ->
               exists x', In x' (all_insts F')
                          /\ redirected
                               (fun i j => R i j
                                           \/ exists KV, In KV groups
                                                         /\ 2 <= length (snd KV)
                                                         /\ In i (snd KV)
                                                         /\ collectCallSites (fst KV) F' = [j])
                               x0 x'.
Proof.
induction groups as [|KV groups IH];
  intros Modified F Modified' F' R WF ND Hg HR Hrun x0 x Hred Hx Hc He.
- simpl in Hrun. unfold ret in Hrun. inv Hrun. exists x. split; [exact Hx|].
  apply (redirected_iff R); [|exact Hred].
  intros i j. split; [auto|]. intros [Hr|(KV & [] & _)]. exact Hr.
- simpl in ND. apply NoDup_cons_iff in ND. destruct ND as [Hk ND].
  destruct (Hg KV (or_introl eq_refl)) as [HIK EKV].
  assert (Hg' : forall KV', In KV' groups ->
                            fn_isIntrinsic (fst KV') = false
                            /\ snd KV' = collectCallSites (fst KV') F)
    by (intros KV' Hin; apply Hg; right; exact Hin).
  simpl in Hrun. destruct (Nat.ltb_spec 1 (length (snd KV))) as [L|L].
  + rewrite EKV in L.
    destruct (mergeCallSites_merges fresh fresh_spec fn_args (fst KV) F WF L)
      as (u & F1 & Hrun1 & Hres).
    rewrite (bind_eq _ _ _ _ _ Hrun1) in Hrun.
    assert (WF1 := merge_result_wf fresh fn_args (fst KV) F u F1 WF Hres).
    assert (Hother : forall f, f <> fst KV -> collectCallSites f F1 = collectCallSites f F).
    { intros f N. apply (merge_result_other_sites fresh fn_args (fst KV) F u F1 f Hres N). }
    assert (Hu1 : collectCallSites (fst KV) F1 = [u]).
    { destruct (merge_result_calls_to fresh fn_args (fst KV) F u F1 Hres) as (args & Hcs).
      rewrite calls_to_collect, Hcs. reflexivity. }
    assert (Hufresh := merge_result_fresh_call fresh fresh_spec fn_args (fst KV) F u F1 WF Hres).
    assert (Hg1 : forall KV', In KV' groups -> snd KV' = collectCallSites (fst KV') F1).
    { intros KV' Hin. rewrite (proj2 (Hg' KV' Hin)). symmetry. apply Hother.
      intros E. apply Hk. rewrite <- E. apply in_map, Hin. }
    assert (Hns : is_call_site (fst KV) x = false).
    { rewrite (redirected_is_call_site R (fst KV) x0 x Hred).
      apply (ineligible_not_call_site fn_isIntrinsic); assumption. }
    assert (Hcx : isCall x = true).
    { unfold isCall. destruct (redirected_callee R x0 x Hred) as (_ & _ & E).
      rewrite E. exact Hc. }
    assert (Hx1 := merge_result_keeps_call fresh fn_args (fst KV) F u F1 x Hres Hx Hcx Hns).
    assert (Hred1 := redirected_rename R (collectCallSites (fst KV) F) u x0 x Hred).
    rewrite <- EKV in Hred1.
    specialize (Hred1 (fun i j Hr => HR i j KV Hr (or_introl eq_refl))).
    rewrite EKV in Hred1.
    destruct (IH true F1 Modified' F'
                 (fun i j => R i j \/ (In i (collectCallSites (fst KV) F) /\ j = u))
                 WF1 ND) with (x0 := x0) (x := rename_inst (collectCallSites (fst KV) F) u x)
      as (x' & Hx' & Hred'); auto.
    { intros KV' Hin. split; [apply (Hg' KV' Hin)|apply (Hg1 KV' Hin)]. }
    { intros i j KV' [Hr|[_ ->]] Hin.
      - apply (HR i j KV' Hr). right. exact Hin.
      - rewrite (proj2 (Hg' KV' Hin)). intros Hi. apply Hufresh.
        apply (collectCallSites_inst_addrs _ _ _ Hi). }
    destruct (merge_groups_sites fresh fresh_spec fn_args fn_isIntrinsic (fun G => G)
                groups true F1 Modified' F' WF1 ND Hg1 Hrun) as (Hs1 & _).
    exists x'. split; [exact Hx'|].
    revert Hred'. apply redirected_iff.
    intros i j. split.
    * intros [[Hr|[Hi ->]]|(KV' & Hin & H2 & H3 & H4)].
      -- left. exact Hr.
      -- right. exists KV. split; [left; reflexivity|]. rewrite EKV.
         split; [exact L|]. split; [exact Hi|].
         rewrite (Hs1 (fst KV) Hk). exact Hu1.
      -- right. exists KV'. split; [right; exact Hin|]. auto.
    * intros [Hr|(KV' & [<-|Hin] & H2 & H3 & H4)].
      -- left. left. exact Hr.
      -- left. right. rewrite EKV in H3. split; [exact H3|].
         rewrite (Hs1 (fst KV) Hk), Hu1 in H4. congruence.
      -- right. exists KV'. auto.
  + destruct (IH Modified F Modified' F' R WF ND Hg') with (x0 := x0) (x := x)
      as (x' & Hx' & Hred'); auto.
    { intros i j KV' Hr Hin. apply (HR i j KV' Hr). right. exact Hin. }
    exists x'. split; [exact Hx'|].
    revert Hred'. apply redirected_iff.
    intros i j. split.
    * intros [Hr|(KV' & Hin & H2 & H3 & H4)]; [left; exact Hr|].
      right. exists KV'. split; [right; exact Hin|]. auto.
    * intros [Hr|(KV' & [<-|Hin] & H2 & H3 & H4)]; [left; exact Hr|lia|].
      right. exists KV'. auto.
Qed.

(** C6 (as amended): indirect, inline-assembly and intrinsic calls are
    never recorded in a callee group and never collected by the merger for
    a target [runOnFunction] hands it; after all the merges each of them is
    still in the function, at its address, still ineligible, with the same
    operands in the same order, except that an operand (the called value
    of an indirect call included) that was the result of a merged call
    names the unified call that replaced that call, and every other operand
    is as it was. *)
Theorem ineligible_calls_never_merged F :
  wf fn_args F ->
  (forall f l, In (f, l) (groupCallSites fn_isIntrinsic F) ->
     fn_isIntrinsic f = false
     /\ (forall c, In c l ->
           exists x, In x (all_insts F) /\ iaddr x = c
                     /\ eligible fn_isIntrinsic x = true
                     /\ getCalledFunction (ikind x) = Some f)
     /\ (forall G c, In c (collectCallSites f G) ->
           exists x, In x (all_insts G) /\ iaddr x = c
                     /\ eligible fn_isIntrinsic x = true))
  /\ exists Modified Fm,
       merge_groups fresh fn_args (groupCallSites fn_isIntrinsic F) false F
       = Some (Modified, Fm)
       /\ forall x, In x (all_insts F) -> isCall x = true ->
                    eligible fn_isIntrinsic x = false ->
                    exists x', In x' (all_insts Fm)
                               /\ redirected (merged_into fn_isIntrinsic F Fm) x x'
                               /\ eligible fn_isIntrinsic x' = false.
Proof.
intros WF. split.
- intros f l Hin. destruct (groupCallSites_eligible fn_isIntrinsic F f l Hin) as [HI Hl].
  split; [exact HI|]. split; [exact Hl|].
  intros G c Hc. apply collectCallSites_spec in Hc. destruct Hc as (x & args & Hx & Ec & Ek).
  exists x. split; [exact Hx|]. split; [exact Ec|].
  unfold eligible. rewrite Ek. simpl. rewrite HI. reflexivity.
- destruct (merge_groups_total fresh fresh_spec fn_args
              (groupCallSites fn_isIntrinsic F) false F WF)
    as (b & Fm & Hrun & _).
  exists b, Fm. split; [exact Hrun|].
  intros x Hx Hc He.
  destruct (merge_groups_redirects (groupCallSites fn_isIntrinsic F) false F b Fm
              (fun _ _ => False) WF) with (x0 := x) (x := x)
    as (x' & Hx' & Hred); auto.
  + apply StronglySorted_lt_NoDup, groupCallSites_sorted.
  + intros [f l] HKV. apply groupCallSites_in in HKV. simpl. tauto.
  + apply redirected_refl.
  + exists x'. split; [exact Hx'|]. split.
    * revert Hred. apply redirected_iff.
      intros i j. split.
      -- intros [[]|([f l] & Hin & H2 & H3 & H4)]. simpl in *.
         apply groupCallSites_in in Hin. destruct Hin as (HI & -> & _).
         exists f. auto.
      -- intros (f & HI & Hi & H2 & Hj). right.
         exists (f, collectCallSites f F). simpl.
         split; [|auto]. apply groupCallSites_in.
         split; [exact HI|]. split; [reflexivity|].
         intros E. rewrite E in Hi. exact Hi.
    * rewrite (redirected_eligible _ fn_isIntrinsic x x' Hred). exact He.
Qed.
End IneligibleCalls.

(** ** [mergeCallSites] called directly: what it collects and merges *)







Section DirectCall.
Variable fresh : list addr -> addr.
Hypothesis fresh_spec : forall l, ~ In (fresh l) l.
Variable fn_args : addr -> list typ.
Variable fn_isIntrinsic : addr -> bool.

End DirectCall.

(** ** The further claims at concrete functions *)

Lemma chained_calls_wf : wf ex_params chained_calls.
Proof. apply wfb_sound. vm_compute. reflexivity. Qed.

(** C2: the code at a function where the third call to [T] passes the
    result of the first.  The call sites are split out one after the
    other: the origin block of the second call is the resume block of the
    first, and the origin block of the third call (block 13) is the resume
    block of the second.  The PHI node of the parameter holds, for block
    13, the unified call itself: [replaceAllUsesWith] has replaced the
    result of the first call, which the third call passed, by the result
    of the unified call.  Control arrives from block 13 right after the
    unified call has run on behalf of the second call site, so what the
    unified call is passed there is the result of [T] on the second call's
    argument, not the result of the first call. *)
Theorem chained_calls_stale_argument :
  wf ex_params chained_calls
  /\ mergeCallSites bump ex_params ex_T chained_calls = Some (Some 12, chained_merged)
  /\ split_pairs bump (bump (block_addrs chained_calls))
                 (collectCallSites ex_T chained_calls)
                 (chained_calls ++ [mkBlock (bump (block_addrs chained_calls)) []])
     = Some ([(1, (10, 12)); (2, (12, 13)); (3, (13, 14))], chained_split)
  /\ args_of 1 chained_calls = [VArgument 0]
  /\ args_of 2 chained_calls = [VArgument 1]
  /\ args_of 3 chained_calls = [VInst 1]
  /\ args_of 12 chained_merged = [VInst 11]
  /\ find_inst 11 chained_merged
     = Some (mkInst 11 (PHI (IntegerTy 32)
                            [(VArgument 0, 10); (VArgument 1, 12); (VInst 12, 13)]))
  /\ args_on_arrival chained_merged (args_of 12 chained_merged) 10 = [Some (VArgument 0)]
  /\ args_on_arrival chained_merged (args_of 12 chained_merged) 12 = [Some (VArgument 1)]
  /\ args_on_arrival chained_merged (args_of 12 chained_merged) 13 = [Some (VInst 12)].
Proof.
split; [exact chained_calls_wf|].
split; [vm_compute; reflexivity|].
split; [vm_compute; reflexivity|].
split; [vm_compute; reflexivity|].
split; [vm_compute; reflexivity|].
split; [vm_compute; reflexivity|].
split; [vm_compute; reflexivity|].
split; [vm_compute; reflexivity|].
split; [vm_compute; reflexivity|].
split; vm_compute; reflexivity.
Qed.

Lemma asm_user_wf : wf ex_params asm_user.
Proof. apply wfb_sound. vm_compute. reflexivity. Qed.

Lemma asm_user_run :
  merge_groups bump ex_params (groupCallSites ex_intrinsic asm_user) false asm_user
  = Some (true, asm_user_merged).
Proof. vm_compute. reflexivity. Qed.

Lemma asm_user_has_asm_call :
  In (mkInst 2 (Call (VInlineAsm 0) [VInst 1])) (all_insts asm_user).
Proof. vm_compute. auto. Qed.

(** C6 as stated fails on an inline-assembly call that uses the result of
    a merged call: the call is still there, but its operand now names the
    unified call. *)
Lemma asm_user_touched : ~ ineligible_untouched bump ex_params ex_intrinsic asm_user.
Proof.
unfold ineligible_untouched. intros H.
pose proof (H true asm_user_merged asm_user_run (mkInst 2 (Call (VInlineAsm 0) [VInst 1]))
              asm_user_has_asm_call eq_refl eq_refl) as H1.
vm_compute in H1.
repeat (destruct H1 as [H1|H1]; [discriminate|]). exact H1.
Qed.

Lemma mergeCallSites_phi_entries_witness :
  wf ex_params three_blocks
  /\ 2 <= length (collectCallSites ex_T three_blocks)
  /\ (exists u F' lg F1 phis w inc s dflt cases,
    mergeCallSites bump ex_params ex_T three_blocks = Some (Some u, F')
    /\ split_pairs bump (bump (block_addrs three_blocks)) (collectCallSites ex_T three_blocks)
                   (three_blocks ++ [mkBlock (bump (block_addrs three_blocks)) []]) = Some (lg, F1)
    /\ find_block (bump (block_addrs three_blocks)) F'
       = Some (mkBlock (bump (block_addrs three_blocks))
                 (phis ++ [mkInst w (PHI (IntegerTy 32) inc);
                           mkInst u (Call (VFunction ex_T) (map (fun p => VInst (iaddr p)) phis));
                           mkInst s (Switch (VInst w) dflt cases)]))
    /\ length phis = length (ex_params ex_T)
    /\ (forall p, In p phis ->
          exists ty inc', ikind p = PHI ty inc' /\ map snd inc' = map origin_of lg)
    /\ Permutation (map snd inc) (map origin_of lg)
    /\ NoDup (map origin_of lg)).
Proof.
split; [exact three_blocks_wf|].
split; [exact three_blocks_sites|].
exact (mergeCallSites_phi_entries bump bump_fresh ex_params ex_T three_blocks
         three_blocks_wf three_blocks_sites).
Defined.

Lemma redispatch_returns_to_own_resume_block_witness :
  wf ex_params three_blocks
  /\ 2 <= length (collectCallSites ex_T three_blocks)
  /\ (exists u F' lg F1 inc dflt cases,
    mergeCallSites bump ex_params ex_T three_blocks = Some (Some u, F')
    /\ split_pairs bump (bump (block_addrs three_blocks)) (collectCallSites ex_T three_blocks)
                   (three_blocks ++ [mkBlock (bump (block_addrs three_blocks)) []]) = Some (lg, F1)
    /\ map fst lg = collectCallSites ex_T three_blocks
    /\ redispatch (bump (block_addrs three_blocks)) F' = Some (inc, dflt, cases)
    /\ NoDup (map origin_of lg)
    /\ Permutation (map snd inc) (map origin_of lg)
    /\ NoDup (map fst inc)
    /\ map fst inc = map VConstant (map fst cases)
    /\ NoDup (map fst cases)
    /\ (forall c P R, In (c, (P, R)) lg ->
          (exists k, getIncomingValueForBlock inc P = Some (VConstant k)
                     /\ findCaseDest cases dflt k = CaseEdge R)
          /\ (exists blk b, In blk F' /\ baddr blk = P
                            /\ getTerminator (insts blk)
                               = Some (mkInst b (Br (bump (block_addrs three_blocks)))))
          /\ In R (block_addrs F')
          /\ ~ In R (block_addrs three_blocks)
          /\ R <> bump (block_addrs three_blocks)
          /\ (forall ci n,
                iaddr ci = c -> next_in_function three_blocks ci n ->
                isa_PHI (ikind n) = false -> is_call_site ex_T n = false ->
                exists rest,
                  find_block R F'
                  = Some (mkBlock R (rename_inst (collectCallSites ex_T three_blocks) u n :: rest))))).
Proof.
split; [exact three_blocks_wf|].
split; [exact three_blocks_sites|].
exact (redispatch_returns_to_own_resume_block bump bump_fresh ex_params ex_T three_blocks
         three_blocks_wf three_blocks_sites).
Defined.

Lemma runOnFunction_modified_witness :
  wf ex_params three_blocks
  /\ (exists Modified n F' Fm,
    runOnFunction bump ex_params ex_intrinsic (fun X : Func => X) three_blocks = Some ((Modified, n), F')
    /\ merge_groups bump ex_params (groupCallSites ex_intrinsic three_blocks) false three_blocks
       = Some (Modified, Fm)
    /\ (Modified = true <->
        exists f, 2 <= length (eligible_calls_to ex_intrinsic f three_blocks))
    /\ n = (if Modified then 1 else 0)
    /\ F' = (if Modified then (fun X : Func => X) Fm else three_blocks)
    /\ (Modified = false -> Fm = three_blocks)
    /\ (forall f, 2 <= length (eligible_calls_to ex_intrinsic f three_blocks) ->
                  exists x, calls_to f Fm = [x])
    /\ (Modified = true -> length three_blocks + 3 <= length Fm)).
Proof.
split; [exact three_blocks_wf|].
exact (runOnFunction_modified bump bump_fresh ex_params ex_intrinsic (fun X : Func => X)
         three_blocks three_blocks_wf).
Defined.

Lemma ineligible_calls_never_merged_witness :
  wf ex_params asm_user
  /\ ((forall f l, In (f, l) (groupCallSites ex_intrinsic asm_user) ->
     ex_intrinsic f = false
     /\ (forall c, In c l ->
           exists x, In x (all_insts asm_user) /\ iaddr x = c
                     /\ eligible ex_intrinsic x = true
                     /\ getCalledFunction (ikind x) = Some f)
     /\ (forall G c, In c (collectCallSites f G) ->
           exists x, In x (all_insts G) /\ iaddr x = c
                     /\ eligible ex_intrinsic x = true))
  /\ exists Modified Fm,
       merge_groups bump ex_params (groupCallSites ex_intrinsic asm_user) false asm_user
       = Some (Modified, Fm)
       /\ forall x, In x (all_insts asm_user) -> isCall x = true ->
                    eligible ex_intrinsic x = false ->
                    exists x', In x' (all_insts Fm)
                               /\ redirected (merged_into ex_intrinsic asm_user Fm) x x'
                               /\ eligible ex_intrinsic x' = false).
Proof.
split; [exact asm_user_wf|].
exact (ineligible_calls_never_merged bump bump_fresh ex_params ex_intrinsic asm_user
         asm_user_wf).
Defined.



(** With a null [Target] the collection of [mergeCallSites] picks up the
    indirect calls, and with two of them the merger runs into
    [Target->arg_size()]; [runOnFunction] files them under no callee and
    leaves the function as it is. *)
Example indirect_calls_collected :
  wf ex_params indirect_calls
  /\ collectCallSites_of None indirect_calls = [1; 2]
  /\ mergeCallSites_of bump ex_params None indirect_calls = None
  /\ groupCallSites ex_intrinsic indirect_calls = []
  /\ runOnFunction bump ex_params ex_intrinsic (fun X : Func => X) indirect_calls
     = Some ((false, 0), indirect_calls).
Proof.
split; [apply wfb_sound; vm_compute; reflexivity|].
split; [vm_compute; reflexivity|].
split; [vm_compute; reflexivity|].
split; vm_compute; reflexivity.
Qed.
